(** * MatX lazy operator engine: views, capabilities, transforms, host executor

    A shallow embedding of the operator nodes of MatX
    (include/matx/operators/*.h, include/matx/executors/host.h) and the
    properties its specification states about them.

    Conventions of the embedding.
    - [index_t] is the signed 64-bit index type of the library.  It is embedded
      as [Z].  Signed overflow is undefined behaviour in C++ and wraps around
      on the targets of the library: where the source multiplies sizes
      ([RepMatOp::Size], [FlattenOp::Size]) the product is [index_mul], with
      the wrap-around written out, and a statement that gives the
      mathematical product says that it is an [index_t].  Elsewhere the index
      arithmetic is the mathematical one.
    - A [cuda::std::array<index_t, N>] is a [list index_t] of length [N].  A
      read [a[i]] is [a !!! i] and a store [a[i] = v] is [<[i:=v]> a]; an
      out-of-range subscript is undefined behaviour in the source, the model
      reads [0] and drops the store there.
    - An operator type of the expression templates ([Rank()], [Size(dim)],
      [operator()(indices...)]) is a record [Op V] of functions.
    - A bounded [for] loop is [for_loop]; a [while] loop is a function
      defined by well-founded recursion on its variant. *)

From Stdlib Require Import ZArith List Lia Bool.
From stdpp Require Import base numbers list strings gmap.
From Equations Require Import Equations.

Local Open Scope Z_scope.

(** ** Core: index type, loops, operator nodes *)

Module Core.

Abbreviation index_t := Z.

(** The least and the greatest [index_t]. *)
Definition index_min : index_t := -9223372036854775808.
Definition index_max : index_t := 9223372036854775807.

Definition is_index (z : Z) : bool := (index_min <=? z) && (z <=? index_max).

(** The value of 64 bits in two's complement. *)
Definition wrap64 (z : Z) : index_t :=
  (z - index_min) mod 18446744073709551616 + index_min.

(** The product [a * b] of two [index_t] of the source, with its wrap-around.
    On operands that are not 64-bit values, which the source cannot have, the
    product is left as it is. *)
Definition index_mul (a b : index_t) : index_t :=
  if is_index a && is_index b then wrap64 (a * b) else a * b.

(** [for (int i = 0; i < n; i++) body(i)], threading the loop state. *)
Definition for_loop {S : Type} (n : nat) (body : nat -> S -> S) (s : S) : S :=
  fold_left (fun st i => body i st) (seq 0 n) s.

(** The operator node contract: [Rank()], [Size(dim)] and element access with
    one index per dimension ([operator()(indices...)], [get_value(op, idx)]). *)
Record Op (V : Type) : Type := MkOp {
  Rank : nat;
  Size : nat -> index_t;
  call : list index_t -> V
}.

Arguments MkOp {V} _ _ _.
Arguments Rank {V} _.
Arguments Size {V} _ _.
Arguments call {V} _ _.

(** The extents of a node, dimension 0 first. *)
Definition Shape {V : Type} (t : Op V) : list index_t :=
  map (Size t) (seq 0 (Rank t)).

(** A coordinate tuple is in range for a shape: one index per dimension, each
    in [[0, size(dim))]. *)
Definition valid_coords (shape idx : list index_t) : Prop :=
  Forall2 (fun s i => 0 <= i < s) shape idx.

#[global] Instance valid_coords_dec (shape idx : list index_t) :
  Decision (valid_coords shape idx).
Proof. unfold valid_coords. apply _. Defined.

(** A probe node of a given shape whose element at a coordinate tuple is the
    tuple itself; it makes the coordinate remapping of a view observable. *)
Definition coord_probe (shape : list index_t) : Op (list index_t) :=
  MkOp (length shape) (fun d => shape !!! d) (fun idx => idx).

Lemma wrap64_small (z : Z) :
  index_min <= z <= index_max -> wrap64 z = z.
Proof.
  unfold wrap64, index_min, index_max. intros Hz.
  rewrite Z.mod_small by lia. lia.
Qed.

Lemma is_index_spec (z : Z) :
  is_index z = true <-> index_min <= z <= index_max.
Proof. unfold is_index. rewrite andb_true_iff, !Z.leb_le. reflexivity. Qed.

(** A product that is an [index_t] does not wrap. *)
Lemma index_mul_exact (a b : index_t) :
  index_min <= a * b <= index_max -> index_mul a b = a * b.
Proof.
  intros H. unfold index_mul.
  destruct (is_index a && is_index b); [apply wrap64_small; exact H | reflexivity].
Qed.

Lemma index_mul_0_r (a : index_t) : index_mul a 0 = 0.
Proof.
  apply eq_trans with (a * 0); [| lia].
  apply index_mul_exact. unfold index_min, index_max. lia.
Qed.

Lemma index_mul_0_l (b : index_t) : index_mul 0 b = 0.
Proof.
  apply eq_trans with (0 * b); [| lia].
  apply index_mul_exact. unfold index_min, index_max. lia.
Qed.

Lemma index_mul_1_r (a : index_t) : index_mul a 1 = a.
Proof.
  unfold index_mul. destruct (is_index a) eqn:Ha; cbn [andb]; [| lia].
  apply is_index_spec in Ha.
  replace (is_index 1) with true by reflexivity.
  rewrite Z.mul_1_r. apply wrap64_small. exact Ha.
Qed.

Lemma for_loop_S {S : Type} (n : nat) (body : nat -> S -> S) (s : S) :
  for_loop (Datatypes.S n) body s = body n (for_loop n body s).
Proof.
  unfold for_loop. rewrite seq_S, fold_left_app. reflexivity.
Qed.

Lemma for_loop_0 {S : Type} (body : nat -> S -> S) (s : S) :
  for_loop 0 body s = s.
Proof. reflexivity. Qed.

Lemma gtb_false (a b : index_t) : a <= b -> (a >? b) = false.
Proof. intros H. rewrite Z.gtb_ltb. apply Z.ltb_ge. exact H. Qed.

Lemma gtb_true (a b : index_t) : b < a -> (a >? b) = true.
Proof. intros H. rewrite Z.gtb_ltb. apply Z.ltb_lt. exact H. Qed.

Lemma for_loop_ext {S : Type} (n : nat) (f g : nat -> S -> S) (s : S) :
  (forall (i : nat) (st : S), (i < n)%nat -> f i st = g i st) ->
  for_loop n f s = for_loop n g s.
Proof.
  intros Hfg. induction n as [| n IH]; [reflexivity |].
  rewrite !for_loop_S, IH by (intros i st Hi; apply Hfg; lia).
  apply Hfg. lia.
Qed.

Lemma Shape_length {V : Type} (t : Op V) : length (Shape t) = Rank t.
Proof. unfold Shape. rewrite length_map. apply length_seq. Qed.

Lemma Shape_lookup {V : Type} (t : Op V) (d : nat) :
  (d < Rank t)%nat -> Shape t !! d = Some (Size t d).
Proof.
  intros Hd. unfold Shape. rewrite list_lookup_fmap.
  rewrite lookup_seq_lt by exact Hd. reflexivity.
Qed.

Lemma valid_coords_length (shape idx : list index_t) :
  valid_coords shape idx -> length idx = length shape.
Proof. intros H. symmetry. exact (Forall2_length _ _ _ H). Qed.

Lemma valid_coords_lookup (shape idx : list index_t) (d : nat) (s : index_t) :
  valid_coords shape idx -> shape !! d = Some s -> 0 <= idx !!! d < s.
Proof.
  intros H Hs.
  destruct (Forall2_lookup_l _ _ _ _ _ H Hs) as (i & Hi & Hr).
  rewrite (list_lookup_total_correct _ _ _ Hi). exact Hr.
Qed.

(** The loop [for (i = 0; i < n; i++) a[i] = g(i, a[i])] updates the first
    [n] cells of [a] independently. *)
Lemma for_loop_update_length (g : nat -> index_t -> index_t) (l : list index_t) (n : nat) :
  length (for_loop n (fun i st => <[i := g i (st !!! i)]> st) l) = length l.
Proof.
  induction n as [| n IH]; [reflexivity |].
  rewrite for_loop_S, length_insert. exact IH.
Qed.

Lemma for_loop_update_lookup (g : nat -> index_t -> index_t) (l : list index_t) (n d : nat) :
  for_loop n (fun i st => <[i := g i (st !!! i)]> st) l !! d
  = if decide (d < n)%nat then g d <$> (l !! d) else l !! d.
Proof.
  induction n as [| n IH].
  - rewrite for_loop_0. destruct (decide (d < 0)%nat); [lia | reflexivity].
  - rewrite for_loop_S.
    set (st := for_loop n (fun i st => <[i := g i (st !!! i)]> st) l) in *.
    assert (Hlen : length st = length l) by apply for_loop_update_length.
    destruct (decide (d = n)) as [-> | Hne].
    + destruct (decide (n < n)%nat) as [Hbad | _]; [lia |].
      destruct (decide (n < S n)%nat) as [_ | Hbad]; [| lia].
      destruct (decide (n < length l)%nat) as [Hlt | Hge].
      * rewrite list_lookup_insert_eq by lia.
        rewrite (list_lookup_total_alt st n), IH.
        destruct (lookup_lt_is_Some_2 l n Hlt) as [x Hx].
        rewrite Hx. reflexivity.
      * rewrite list_insert_ge by lia. rewrite IH.
        rewrite (lookup_ge_None_2 l n) by lia. reflexivity.
    + rewrite list_lookup_insert_ne by congruence. rewrite IH.
      destruct (decide (d < n)%nat), (decide (d < S n)%nat); try lia; reflexivity.
Qed.

Lemma for_loop_update_imap (g : nat -> index_t -> index_t) (l : list index_t) :
  for_loop (length l) (fun i st => <[i := g i (st !!! i)]> st) l = imap g l.
Proof.
  apply list_eq. intros d.
  rewrite for_loop_update_lookup, list_lookup_imap.
  destruct (decide (d < length l)%nat) as [Hlt | Hge]; [reflexivity |].
  rewrite (lookup_ge_None_2 l d) by lia. reflexivity.
Qed.

(** Errors.  A throwing constructor returns [Err]; [x ← c; k] runs [k] only
    when [c] did not throw. *)
Inductive result (E A : Type) : Type :=
| Ok (a : A)
| Err (e : E).

Arguments Ok {E A} _.
Arguments Err {E A} _.

Definition bind {E A B : Type} (c : result E A) (k : A -> result E B) : result E B :=
  match c with
  | Ok a => k a
  | Err e => Err e
  end.

#[global] Instance result_bind {E : Type} : MBind (result E) :=
  fun A B k c => bind c k.

(** A [for] loop whose body may throw: the first throw leaves the loop. *)
Definition for_loop_M {E S : Type} (n : nat) (body : nat -> S -> result E S) (s : S)
    : result E S :=
  for_loop n (fun i r => st ← r; body i st) (Ok s).

(** The error codes the files at hand throw, and an exception: a code and
    its message. *)
Inductive matxError : Type :=
| matxInvalidDim
| matxInvalidParameter
| matxInvalidSize
| matxNotSupported.

Record matxException : Type := MkException {
  e_code : matxError;
  e_msg : string
}.

(** Modelled from the spec: the macro [MATX_ASSERT_STR] is defined in
    core/error.h, outside the files at hand.  Section 7: a failed
    construction-time check aborts the operation that triggered it, with the
    error named in the check. *)
Definition MATX_ASSERT_STR (a : bool) (error : matxError) (str : string)
    : result matxException unit :=
  if a then Ok tt else Err (MkException error str).

Lemma bind_Ok {E A B : Type} (a : A) (k : A -> result E B) :
  (x ← Ok a; k x) = k a.
Proof. reflexivity. Qed.

Lemma bind_Err {E A B : Type} (e : E) (k : A -> result E B) :
  (x ← Err e; k x) = Err e.
Proof. reflexivity. Qed.

Lemma for_loop_M_S {E S : Type} (n : nat) (body : nat -> S -> result E S) (s : S) :
  for_loop_M (Datatypes.S n) body s = (st ← for_loop_M n body s; body n st).
Proof. unfold for_loop_M. rewrite for_loop_S. reflexivity. Qed.

End Core.

Import Core.

(** ** Reverse (ReverseOp, operators/reverse.h) *)

Module Reverse.

(** [ReverseOp::get_impl] for [EPT == ElementsPerThread::ONE]. *)
Definition get_impl {V : Type} (DIM : nat) (op : Op V)
    (indices : list index_t) : V :=
  if (Rank op =? 0)%nat then call op []
  else
    let idx := indices in
    let idx := <[DIM := Size op DIM - idx !!! DIM - 1]> idx in
    call op idx.

(** [ReverseOp<DIM, T1>]: [Rank()] and [Size(dim)] forward to the inner
    node, [operator()] is [get_impl] on the stored node. *)
Definition ReverseOp {V : Type} (DIM : nat) (op_ : Op V) : Op V :=
  MkOp (Rank op_) (fun dim => Size op_ dim) (fun indices => get_impl DIM op_ indices).

(** The coordinate a reverse along [DIM] reads from. *)
Definition reversed_coords {V : Type} (DIM : nat) (t : Op V)
    (idx : list index_t) : list index_t :=
  <[DIM := Size t DIM - idx !!! DIM - 1]> idx.

Lemma reversed_coords_twice {V : Type} (DIM : nat) (t : Op V) (idx : list index_t) :
  <[DIM := Size t DIM - (reversed_coords DIM t idx) !!! DIM - 1]>
    (reversed_coords DIM t idx) = idx.
Proof.
  unfold reversed_coords.
  destruct (decide (DIM < length idx)%nat) as [Hlt | Hge].
  - rewrite list_lookup_total_insert_eq by exact Hlt.
    rewrite list_insert_insert_eq.
    apply list_insert_id.
    rewrite list_lookup_lookup_total_lt by exact Hlt.
    f_equal. lia.
  - rewrite !list_insert_ge by (try rewrite length_insert; lia).
    reflexivity.
Qed.

Lemma reversed_coords_valid {V : Type} (DIM : nat) (t : Op V) (idx : list index_t) :
  valid_coords (Shape t) idx -> valid_coords (Shape t) (reversed_coords DIM t idx).
Proof.
  intros Hv. unfold reversed_coords.
  destruct (decide (DIM < Rank t)%nat) as [Hlt | Hge].
  - pose proof (valid_coords_lookup _ _ _ _ Hv (Shape_lookup t DIM Hlt)) as Hr.
    unfold valid_coords.
    rewrite <- (list_insert_id (Shape t) DIM (Size t DIM)) by (apply Shape_lookup; exact Hlt).
    apply Forall2_insert; [exact Hv | lia].
  - rewrite list_insert_ge; [exact Hv |].
    rewrite (valid_coords_length _ _ Hv), Shape_length. lia.
Qed.

(** C9. Reversing twice along the same dimension gives the node back element
    for element at every in-range coordinate tuple; one reverse reads the
    inner node at [size(DIM) - i - 1] in the reversed dimension (an in-range
    coordinate again), and keeps the rank and every dimension's size. *)
Theorem reverse_involution {V : Type} (DIM : nat) (t : Op V) (idx : list index_t) :
  (DIM < Rank t)%nat ->
  valid_coords (Shape t) idx ->
  call (ReverseOp DIM (ReverseOp DIM t)) idx = call t idx
  /\ call (ReverseOp DIM t) idx = call t (<[DIM := Size t DIM - idx !!! DIM - 1]> idx)
  /\ valid_coords (Shape t) (<[DIM := Size t DIM - idx !!! DIM - 1]> idx)
  /\ Rank (ReverseOp DIM t) = Rank t
  /\ forall d : nat, Size (ReverseOp DIM t) d = Size t d.
Proof.
  intros HDIM Hv.
  assert (Hr : (Rank t =? 0)%nat = false) by (apply Nat.eqb_neq; lia).
  repeat split.
  - unfold ReverseOp, get_impl. cbn [Rank Size call]. rewrite Hr.
    f_equal. apply (reversed_coords_twice DIM t idx).
  - unfold ReverseOp, get_impl. cbn [Rank Size call]. rewrite Hr. reflexivity.
  - apply (reversed_coords_valid DIM t idx Hv).
Qed.

Lemma reverse_involution_witness :
  call (ReverseOp 1 (ReverseOp 1 (coord_probe [3; 4]))) [1; 0] = [1; 0]
  /\ call (ReverseOp 1 (coord_probe [3; 4])) [1; 0] = [1; 3].
Proof.
  assert (H1 : (1 < Rank (coord_probe [3; 4]%Z))%nat) by (cbn; lia).
  assert (H2 : valid_coords (Shape (coord_probe [3; 4])) [1; 0]).
  { cbn. repeat constructor; lia. }
  destruct (reverse_involution 1 (coord_probe [3; 4]) [1; 0] H1 H2) as (Ha & Hb & _).
  split; [exact Ha | exact Hb].
Defined.

End Reverse.

(** ** Repeat (RepMatOp, operators/repmat.h) *)

Module RepMat.

(** The members of [RepMatOp<T1, DIM>]: the inner node and the repeat factor
    of each dimension ([index_t reps_[T1::Rank()]]). *)
Record RepMatOp_t (V : Type) : Type := MkRepMatOp {
  op_ : Op V;
  reps_ : list index_t
}.

Arguments MkRepMatOp {V} _ _.
Arguments op_ {V} _.
Arguments reps_ {V} _.

(** [RepMatOp(const T1 &op, index_t reps)].  The array member is not
    initialised in the source; its cells read [0] here until the loop has
    stored into them. *)
Definition RepMatOp_scalar {V : Type} (DIM : nat) (op : Op V) (reps : index_t)
    : RepMatOp_t V :=
  MkRepMatOp op
    (for_loop DIM (fun dim r => <[dim := reps]> r) (replicate (Rank op) 0)).

(** [RepMatOp(const T1 &op, const cuda::std::array<index_t, DIM> reps)] and
    the [const index_t *reps] overload, which has the same body. *)
Definition RepMatOp_array {V : Type} (DIM : nat) (op : Op V) (reps : list index_t)
    : RepMatOp_t V :=
  MkRepMatOp op
    (for_loop DIM (fun dim r => <[dim := reps !!! dim]> r) (replicate (Rank op) 0)).

(** [RepMatOp::get_impl] for [EPT == ElementsPerThread::ONE].  [%] is the
    truncating remainder of C++, [Z.rem]. *)
Definition get_impl {V : Type} (op : Op V) (indices : list index_t) : V :=
  if (Rank op =? 0)%nat then call op []
  else
    let idx := indices in
    let idx :=
      for_loop (length idx)
        (fun i a => <[i := Z.rem (a !!! i) (Size op i)]> a) idx in
    call op idx.

(** The node a [RepMatOp] value is: [Rank()], [Size(dim)], [operator()].
    [Size(dim)] is the 64-bit product [op_.Size(dim) * reps_[dim]]. *)
Definition as_op {V : Type} (r : RepMatOp_t V) : Op V :=
  MkOp (Rank (op_ r))
       (fun dim => index_mul (Size (op_ r) dim) (reps_ r !!! dim))
       (fun indices => get_impl (op_ r) indices).

(** [repmat(t, reps)] with one factor for every dimension, and with one
    factor per dimension; both instantiate [DIM = T1::Rank()]. *)
Definition repmat {V : Type} (t : Op V) (reps : index_t) : Op V :=
  as_op (RepMatOp_scalar (Rank t) t reps).

Definition repmat_dims {V : Type} (t : Op V) (reps : list index_t) : Op V :=
  as_op (RepMatOp_array (Rank t) t reps).

Lemma ctor_loop_lookup (f : nat -> index_t) (n d : nat) :
  (d < n)%nat ->
  for_loop n (fun dim r => <[dim := f dim]> r) (replicate n 0) !!! d = f d.
Proof.
  intros Hd.
  pose proof (for_loop_update_lookup (fun i _ => f i) (replicate n 0) n d) as H.
  cbv beta in H.
  rewrite decide_True in H by exact Hd.
  rewrite lookup_replicate_2 in H by exact Hd.
  apply list_lookup_total_correct. exact H.
Qed.

Lemma repmat_Size {V : Type} (t : Op V) (reps : index_t) (d : nat) :
  (d < Rank t)%nat -> Size (repmat t reps) d = index_mul (Size t d) reps.
Proof.
  intros Hd. unfold repmat, as_op, RepMatOp_scalar. cbn [Size op_ reps_].
  rewrite (ctor_loop_lookup (fun _ => reps)) by exact Hd. reflexivity.
Qed.

Lemma repmat_dims_Size {V : Type} (t : Op V) (reps : list index_t) (d : nat) :
  (d < Rank t)%nat -> Size (repmat_dims t reps) d = index_mul (Size t d) (reps !!! d).
Proof.
  intros Hd. unfold repmat_dims, as_op, RepMatOp_array. cbn [Size op_ reps_].
  rewrite (ctor_loop_lookup (fun dim => reps !!! dim)) by exact Hd. reflexivity.
Qed.

Lemma get_impl_imap {V : Type} (op : Op V) (idx : list index_t) :
  length idx = Rank op ->
  get_impl op idx = call op (imap (fun d i => Z.rem i (Size op d)) idx).
Proof.
  intros Hlen. unfold get_impl.
  destruct (Rank op =? 0)%nat eqn:Hr.
  - apply Nat.eqb_eq in Hr. rewrite Hr in Hlen.
    apply nil_length_inv in Hlen. subst idx. reflexivity.
  - cbv zeta.
    rewrite (for_loop_update_imap (fun i x => Z.rem x (Size op i)) idx).
    reflexivity.
Qed.

(** In-range coordinates of a node [r] that is empty in every dimension in
    which [t] is wrap to in-range coordinates of [t], and on them the
    truncating remainder is the modulus. *)
Lemma wrap_coords {V : Type} (t r : Op V) (idx : list index_t) :
  Rank r = Rank t ->
  (forall d : nat, (d < Rank t)%nat -> Size t d = 0 -> Size r d = 0) ->
  Forall (fun s => 0 <= s) (Shape t) ->
  valid_coords (Shape r) idx ->
  imap (fun d i => Z.rem i (Size t d)) idx = imap (fun d i => i mod Size t d) idx
  /\ valid_coords (Shape t) (imap (fun d i => i mod Size t d) idx).
Proof.
  intros Hrank Hmul Hnn Hv.
  assert (Hlen : length idx = Rank t).
  { rewrite (valid_coords_length _ _ Hv), Shape_length. exact Hrank. }
  assert (Hpt : forall d i, idx !! d = Some i ->
                  0 <= i /\ 0 < Size t d /\ (d < Rank t)%nat).
  { intros d i Hi.
    assert (Hd : (d < Rank t)%nat).
    { rewrite <- Hlen. apply lookup_lt_is_Some. eauto. }
    assert (Hdr : (d < Rank r)%nat) by lia.
    pose proof (valid_coords_lookup _ _ d _ Hv (Shape_lookup r d Hdr)) as Hr.
    rewrite (list_lookup_total_correct _ _ _ Hi) in Hr.
    assert (0 <= Size t d).
    { rewrite Forall_forall in Hnn. apply Hnn.
      apply list_elem_of_lookup. exists d. apply Shape_lookup, Hd. }
    destruct (Z.eq_dec (Size t d) 0) as [E | E]; [rewrite (Hmul d Hd E) in Hr; lia |].
    repeat split; lia. }
  split.
  - apply list_eq. intros d. rewrite !list_lookup_imap.
    destruct (idx !! d) as [i |] eqn:Hi; [| reflexivity].
    destruct (Hpt d i Hi) as (H0 & Hs & _). cbn.
    f_equal. apply Z.rem_mod_nonneg; lia.
  - unfold valid_coords. apply Forall2_same_length_lookup_2.
    + rewrite length_imap, Shape_length. lia.
    + intros d s j Hs Hj.
      rewrite list_lookup_imap in Hj.
      destruct (idx !! d) as [i |] eqn:Hi; [| discriminate].
      cbn in Hj. injection Hj as <-.
      destruct (Hpt d i Hi) as (H0 & Hpos & Hd).
      rewrite (Shape_lookup t d Hd) in Hs. injection Hs as <-.
      apply Z.mod_pos_bound. exact Hpos.
Qed.

(** The repeat of a node that is empty in a dimension is empty in it. *)
Lemma repmat_empty {V : Type} (t : Op V) (reps : list index_t) (k : index_t) (d : nat) :
  (d < Rank t)%nat -> Size t d = 0 ->
  Size (repmat_dims t reps) d = 0 /\ Size (repmat t k) d = 0.
Proof.
  intros Hd Hz. rewrite repmat_dims_Size, repmat_Size, Hz by exact Hd.
  split; apply index_mul_0_l.
Qed.

Lemma repmat_call {V : Type} (t r : Op V) (idx : list index_t) :
  Rank r = Rank t ->
  (forall d : nat, (d < Rank t)%nat -> Size t d = 0 -> Size r d = 0) ->
  call r = get_impl t ->
  Forall (fun s => 0 <= s) (Shape t) ->
  valid_coords (Shape r) idx ->
  call r idx = call t (imap (fun d i => i mod Size t d) idx)
  /\ valid_coords (Shape t) (imap (fun d i => i mod Size t d) idx).
Proof.
  intros Hrank Hz Hcall Hnn Hv.
  destruct (wrap_coords t r idx Hrank Hz Hnn Hv) as [Hrem Hin].
  split; [| exact Hin].
  rewrite Hcall, get_impl_imap, Hrem; [reflexivity |].
  rewrite (valid_coords_length _ _ Hv), Shape_length. exact Hrank.
Qed.

(** The product of 64 bits wraps: four repeats of a node of size [2^62] have
    size 0. *)
Example repmat_size_wraps :
  Size (repmat (coord_probe [4611686018427387904]) 4) 0 = 0.
Proof. vm_compute. reflexivity. Qed.

(** C7. The size of a repeat node in each dimension is the inner size times
    the factor of that dimension (for one factor per dimension and for one
    factor for all) whenever that product is an [index_t]; for an inner node
    of non-negative extents its element at an in-range coordinate tuple is
    the inner element at [i mod size(d)] in each dimension [d], an in-range
    coordinate of the inner node, for both forms of the repeat; and
    repeating a size-[2] node 3 times has size [6] and element 4 is element
    0 of the input. *)
Theorem repmat_size_and_element {V : Type} (t : Op V) (reps : list index_t)
    (k : index_t) :
  Rank (repmat_dims t reps) = Rank t
  /\ Rank (repmat t k) = Rank t
  /\ (forall d : nat, (d < Rank t)%nat ->
        index_min <= Size t d * reps !!! d <= index_max ->
        Size (repmat_dims t reps) d = Size t d * reps !!! d)
  /\ (forall d : nat, (d < Rank t)%nat ->
        index_min <= Size t d * k <= index_max ->
        Size (repmat t k) d = Size t d * k)
  /\ (Forall (fun s => 0 <= s) (Shape t) ->
      forall idx : list index_t,
        (valid_coords (Shape (repmat_dims t reps)) idx ->
         call (repmat_dims t reps) idx = call t (imap (fun d i => i mod Size t d) idx)
         /\ valid_coords (Shape t) (imap (fun d i => i mod Size t d) idx))
        /\ (valid_coords (Shape (repmat t k)) idx ->
            call (repmat t k) idx = call t (imap (fun d i => i mod Size t d) idx)
            /\ valid_coords (Shape t) (imap (fun d i => i mod Size t d) idx)))
  /\ Shape (repmat (coord_probe [2]) 3) = [6]
  /\ call (repmat (coord_probe [2]) 3) [4] = [0].
Proof.
  split; [reflexivity |]. split; [reflexivity |].
  split.
  { intros d Hd Hfit. rewrite repmat_dims_Size by exact Hd.
    apply index_mul_exact. exact Hfit. }
  split.
  { intros d Hd Hfit. rewrite repmat_Size by exact Hd.
    apply index_mul_exact. exact Hfit. }
  split.
  { intros Hnn idx. split; intros Hv.
    - apply (repmat_call t (repmat_dims t reps) idx eq_refl); try assumption.
      + intros d Hd Hz. apply (repmat_empty t reps k d Hd Hz).
      + reflexivity.
    - apply (repmat_call t (repmat t k) idx eq_refl); try assumption.
      + intros d Hd Hz. apply (repmat_empty t reps k d Hd Hz).
      + reflexivity. }
  split; vm_compute; reflexivity.
Qed.

Lemma repmat_size_and_element_witness :
  Size (repmat_dims (coord_probe [2; 3]) [2; 2]) 1%nat = 6
  /\ Size (repmat (coord_probe [2; 3]) 4) 0%nat = 8
  /\ call (repmat_dims (coord_probe [2; 3]) [2; 2]) [3; 4] = [1; 1].
Proof.
  destruct (repmat_size_and_element (coord_probe [2; 3]) [2; 2] 4)
    as (_ & _ & Hs & Hk & He & _).
  split.
  { apply (Hs 1%nat); [cbn; lia | vm_compute; split; intros [=]]. }
  split.
  { apply (Hk 0%nat); [cbn; lia | vm_compute; split; intros [=]]. }
  assert (Hnn : Forall (fun s => 0 <= s) (Shape (coord_probe [2; 3]))).
  { cbn. repeat constructor; lia. }
  assert (Hv : valid_coords (Shape (repmat_dims (coord_probe [2; 3]) [2; 2])) [3; 4]).
  { apply (bool_decide_unpack _). vm_compute. exact I. }
  exact (proj1 (proj1 (He Hnn [3; 4]) Hv)).
Defined.

End RepMat.

(** ** Shape and index algebra *)

Module ShapeAlgebra.

(** Product of the extents; [1] for rank 0. *)
Definition shape_product (shape : list index_t) : index_t :=
  fold_right Z.mul 1 shape.

(** Modelled from the spec: [TotalSize(op)] is declared outside the files at
    hand.  Section 4.1: the total element count is the product of all
    dimension sizes, and [1] for rank 0. *)
Definition TotalSize {V : Type} (op : Op V) : index_t :=
  shape_product (Shape op).

(** Modelled from the spec: the flat-to-coordinate mapping of section 4.1,
    row-major with the last dimension varying fastest.  The coordinate of a
    dimension is the flat index divided by the number of elements of the
    dimensions after it, and the remainder goes on to those dimensions. *)
Fixpoint GetIdxFromAbs_shape (shape : list index_t) (abs : index_t) : list index_t :=
  match shape with
  | [] => []
  | _ :: rest =>
      let prod := shape_product rest in
      let q := abs / prod in
      q :: GetIdxFromAbs_shape rest (abs - prod * q)
  end.

(** Modelled from the spec: [GetIdxFromAbs(op, abs)] is declared outside the
    files at hand; it applies the mapping of section 4.1 to the shape of
    [op]. *)
Definition GetIdxFromAbs {V : Type} (op : Op V) (abs : index_t) : list index_t :=
  GetIdxFromAbs_shape (Shape op) abs.

(** Modelled from the spec: the reverse mapping of section 4.1, from a
    coordinate tuple to its row-major flat index. *)
Fixpoint GetAbsFromIdx_shape (shape idx : list index_t) : index_t :=
  match shape, idx with
  | _ :: rest, i :: idx' => i * shape_product rest + GetAbsFromIdx_shape rest idx'
  | _, _ => 0
  end.

Lemma GetIdxFromAbs_shape_length (shape : list index_t) (abs : index_t) :
  length (GetIdxFromAbs_shape shape abs) = length shape.
Proof.
  revert abs. induction shape as [| s rest IH]; intros abs; cbn; [reflexivity |].
  rewrite IH. reflexivity.
Qed.

(** Coordinates to flat index and back. *)
Lemma coords_flat_coords (shape idx : list index_t) :
  valid_coords shape idx ->
  0 <= GetAbsFromIdx_shape shape idx < shape_product shape
  /\ GetIdxFromAbs_shape shape (GetAbsFromIdx_shape shape idx) = idx.
Proof.
  intros Hv. induction Hv as [| s i rest idx' Hi _ IH].
  - cbn. split; [lia | reflexivity].
  - destruct IH as [Hb Hrt]. cbn [GetAbsFromIdx_shape GetIdxFromAbs_shape shape_product fold_right].
    fold (shape_product rest).
    set (P := shape_product rest) in *.
    set (r := GetAbsFromIdx_shape rest idx') in *.
    assert (Hq : (i * P + r) / P = i).
    { rewrite Z.div_add_l by lia. rewrite (Z.div_small r P) by lia. lia. }
    split; [nia |].
    cbv zeta. rewrite Hq.
    replace (i * P + r - P * i) with r by lia.
    rewrite Hrt. reflexivity.
Qed.

(** Flat index to coordinates and back. *)
Lemma flat_coords_flat (shape : list index_t) (abs : index_t) :
  Forall (fun s => 0 <= s) shape ->
  0 <= abs < shape_product shape ->
  valid_coords shape (GetIdxFromAbs_shape shape abs)
  /\ GetAbsFromIdx_shape shape (GetIdxFromAbs_shape shape abs) = abs.
Proof.
  intros Hnn. revert abs.
  induction Hnn as [| s rest Hs _ IH]; intros abs Habs.
  - cbn in *. split; [constructor | lia].
  - cbn [GetAbsFromIdx_shape GetIdxFromAbs_shape shape_product fold_right] in *.
    fold (shape_product rest) in *.
    set (P := shape_product rest) in *.
    assert (HP : 0 < P).
    { destruct (Z_lt_le_dec 0 P) as [? | HPn]; [assumption | nia]. }
    cbv zeta.
    pose proof (Z.div_mod abs P ltac:(lia)) as Hdm.
    pose proof (Z.mod_pos_bound abs P HP) as Hmb.
    assert (Hr : abs - P * (abs / P) = abs mod P) by lia.
    assert (Hq : 0 <= abs / P < s).
    { split; [apply Z.div_pos; lia |].
      apply Z.div_lt_upper_bound; [exact HP | nia]. }
    rewrite Hr.
    destruct (IH (abs mod P) Hmb) as [Hv Hrt].
    split.
    + constructor; [exact Hq | exact Hv].
    + rewrite Hrt. lia.
Qed.

(** The flat-to-coordinate mapping is injective on [[0, total)]. *)
Lemma GetIdxFromAbs_shape_inj (shape : list index_t) (a b : index_t) :
  Forall (fun s => 0 <= s) shape ->
  0 <= a < shape_product shape -> 0 <= b < shape_product shape ->
  GetIdxFromAbs_shape shape a = GetIdxFromAbs_shape shape b -> a = b.
Proof.
  intros Hnn Ha Hb Heq.
  destruct (flat_coords_flat shape a Hnn Ha) as [_ Hra].
  destruct (flat_coords_flat shape b Hnn Hb) as [_ Hrb].
  rewrite <- Hra, <- Hrb, Heq. reflexivity.
Qed.

End ShapeAlgebra.

Import ShapeAlgebra.

(** ** Flatten (FlattenOp, operators/flatten.h) *)

Module Flatten.

(** Modelled from the spec: [RandomOperatorIterator] is declared in
    core/iterator.h, outside the files at hand.  Dereferencing an iterator
    over [op] at flat offset [id0] gives the element of [op] at the coordinate
    tuple the flat-to-coordinate mapping of section 4.1 assigns to [id0]. *)
Definition RandomOperatorIterator_deref {V : Type} (op : Op V) (id0 : index_t) : V :=
  call op (GetIdxFromAbs op id0).

(** [FlattenOp::Size(dim)]; [size *= op1_.Size(r)] is a 64-bit product. *)
Definition FlattenOp_Size {V : Type} (op1_ : Op V) (dim : nat) : index_t :=
  let size := 1 in
  if (dim =? 0)%nat
  then for_loop (Rank op1_) (fun r size => index_mul size (Size op1_ r)) size
  else size.

(** [FlattenOp<T1>]: rank 1, and [operator()(id0)] dereferences a random
    access iterator over the inner node at [id0]. *)
Definition FlattenOp {V : Type} (op1_ : Op V) : Op V :=
  MkOp 1 (FlattenOp_Size op1_)
       (fun indices => RandomOperatorIterator_deref op1_ (indices !!! 0%nat)).

(** [flatten(a)]: nodes of rank 0 and 1 are returned as they are. *)
Definition flatten {V : Type} (a : Op V) : Op V :=
  if (Rank a <=? 1)%nat then a else FlattenOp a.

Lemma shape_product_snoc (l : list index_t) (x : index_t) :
  shape_product (l ++ [x]) = shape_product l * x.
Proof.
  unfold shape_product. induction l as [| y l IHl]; cbn [app fold_right]; [lia |].
  rewrite IHl. lia.
Qed.

Lemma shape_product_zero (l : list index_t) :
  0 ∈ l -> shape_product l = 0.
Proof.
  unfold shape_product. induction l as [| x l IH]; intros Hin.
  - exfalso. exact (not_elem_of_nil 0 Hin).
  - cbn [fold_right]. apply elem_of_cons in Hin. destruct Hin as [<- | Hin].
    + reflexivity.
    + rewrite (IH Hin). lia.
Qed.

Lemma shape_prefix_pos {V : Type} (t : Op V) (n : nat) :
  (forall r : nat, (r < n)%nat -> 1 <= Size t r) ->
  1 <= shape_product (map (Size t) (seq 0 n)).
Proof.
  induction n as [| n IH]; intros Hpos; [cbn; lia |].
  rewrite seq_S, map_app. cbn [map Nat.add]. rewrite shape_product_snoc.
  assert (1 <= Size t n) by (apply Hpos; lia).
  assert (1 <= shape_product (map (Size t) (seq 0 n)))
    by (apply IH; intros r Hr; apply Hpos; lia).
  nia.
Qed.

(** The loop of [Size] over extents that are all at least 1: the products
    grow, so none wraps when the last one is an [index_t]. *)
Lemma size_loop_product {V : Type} (t : Op V) (n : nat) :
  (forall r : nat, (r < n)%nat -> 1 <= Size t r) ->
  shape_product (map (Size t) (seq 0 n)) <= index_max ->
  for_loop n (fun r size => index_mul size (Size t r)) 1
  = shape_product (map (Size t) (seq 0 n)).
Proof.
  induction n as [| n IH]; intros Hpos Hfit; [reflexivity |].
  assert (Hn : 1 <= Size t n) by (apply Hpos; lia).
  assert (Hp : forall r : nat, (r < n)%nat -> 1 <= Size t r)
    by (intros r Hr; apply Hpos; lia).
  pose proof (shape_prefix_pos t n Hp) as Hge.
  rewrite seq_S, map_app in Hfit |- *. cbn [map Nat.add] in Hfit |- *.
  rewrite shape_product_snoc in Hfit |- *.
  rewrite for_loop_S, IH by (try exact Hp; nia).
  apply index_mul_exact. unfold index_min. nia.
Qed.

(** The loop of [Size] over extents one of which is 0. *)
Lemma size_loop_zero {V : Type} (t : Op V) (n : nat) :
  (exists r : nat, (r < n)%nat /\ Size t r = 0) ->
  for_loop n (fun r size => index_mul size (Size t r)) 1 = 0.
Proof.
  induction n as [| n IH]; intros (r & Hr & Hz); [lia |].
  rewrite for_loop_S. destruct (decide (r = n)) as [-> | Hne].
  - rewrite Hz. apply index_mul_0_r.
  - rewrite IH by (exists r; split; [lia | exact Hz]). apply index_mul_0_l.
Qed.

(** The size of a flattened node of non-negative extents is the product of
    the extents when that product is an [index_t]. *)
Lemma FlattenOp_Size_0 {V : Type} (t : Op V) :
  Forall (fun s => 0 <= s) (Shape t) ->
  shape_product (Shape t) <= index_max ->
  FlattenOp_Size t 0 = shape_product (Shape t).
Proof.
  intros Hnn Hfit. unfold FlattenOp_Size. cbn [Nat.eqb]. cbv zeta.
  destruct (decide (0 ∈ Shape t)) as [Hz | Hnz].
  - rewrite (shape_product_zero _ Hz). apply size_loop_zero.
    apply list_elem_of_lookup in Hz. destruct Hz as [r Hr].
    assert (Hlt : (r < Rank t)%nat).
    { rewrite <- (Shape_length t). apply lookup_lt_is_Some. eauto. }
    exists r. split; [exact Hlt |].
    rewrite (Shape_lookup t r Hlt) in Hr. injection Hr as ->. reflexivity.
  - apply size_loop_product; [| exact Hfit].
    intros r Hr.
    assert (Hin : Size t r ∈ Shape t).
    { apply list_elem_of_lookup. exists r. apply Shape_lookup. exact Hr. }
    rewrite Forall_forall in Hnn. specialize (Hnn _ Hin).
    destruct (Z.eq_dec (Size t r) 0) as [E | E]; [| lia].
    exfalso. apply Hnz. rewrite <- E. exact Hin.
Qed.

(** The product of 64 bits wraps: the flattening of a node of shape
    [[2^32; 2^32]] has size 0. *)
Example flatten_size_wraps :
  Size (flatten (coord_probe [4294967296; 4294967296])) 0 = 0.
Proof. vm_compute. reflexivity. Qed.

(** C8. For an inner node of rank above 1 with non-negative extents whose
    product is an [index_t], [flatten] gives a rank-1 node whose size is the
    product of the inner sizes; its element at a flat index [k] in range is
    the inner element at the row-major coordinate tuple of [k], which is in
    range for the inner node; and the element at the flat index of an
    in-range coordinate tuple is the inner element at that tuple. *)
Theorem flatten_row_major {V : Type} (t : Op V) :
  (1 < Rank t)%nat ->
  Forall (fun s => 0 <= s) (Shape t) ->
  shape_product (Shape t) <= index_max ->
  Rank (flatten t) = 1%nat
  /\ Size (flatten t) 0 = shape_product (Shape t)
  /\ (forall k : index_t, 0 <= k < Size (flatten t) 0 ->
        call (flatten t) [k] = call t (GetIdxFromAbs_shape (Shape t) k)
        /\ valid_coords (Shape t) (GetIdxFromAbs_shape (Shape t) k))
  /\ (forall idx : list index_t, valid_coords (Shape t) idx ->
        0 <= GetAbsFromIdx_shape (Shape t) idx < Size (flatten t) 0
        /\ call (flatten t) [GetAbsFromIdx_shape (Shape t) idx] = call t idx).
Proof.
  intros Hrank Hnn Hfit.
  assert (Hfl : flatten t = FlattenOp t).
  { unfold flatten. destruct (Nat.leb_spec (Rank t) 1); [lia | reflexivity]. }
  rewrite Hfl. cbn [Rank Size call FlattenOp].
  rewrite (FlattenOp_Size_0 t Hnn Hfit).
  repeat split.
  - apply (flat_coords_flat (Shape t) k Hnn). assumption.
  - apply (coords_flat_coords (Shape t) idx). assumption.
  - apply (coords_flat_coords (Shape t) idx). assumption.
  - unfold RandomOperatorIterator_deref, GetIdxFromAbs. cbn.
    destruct (coords_flat_coords (Shape t) idx) as [_ ->]; [assumption | reflexivity].
Qed.

Lemma flatten_row_major_witness :
  Size (flatten (coord_probe [2; 3])) 0 = 6
  /\ call (flatten (coord_probe [2; 3])) [4] = [1; 1].
Proof.
  assert (H1 : (1 < Rank (coord_probe [2; 3]%Z))%nat) by (cbn; lia).
  assert (H2 : Forall (fun s => 0 <= s) (Shape (coord_probe [2; 3]))).
  { cbn. repeat constructor; lia. }
  assert (H3 : shape_product (Shape (coord_probe [2; 3])) <= index_max).
  { vm_compute. intros [=]. }
  destruct (flatten_row_major (coord_probe [2; 3]) H1 H2 H3) as (_ & Hs & Hk & _).
  split; [exact Hs |].
  assert (H4 : 0 <= 4 < Size (flatten (coord_probe [2; 3])) 0).
  { rewrite Hs. vm_compute. split; [intros [=] | reflexivity]. }
  exact (proj1 (Hk 4 H4)).
Defined.

End Flatten.

(** ** Slice (SliceOp, operators/slice.h) *)

Module Slice.

(** The index markers of the library.  They are declared outside the files
    at hand, so the embedding takes them as parameters: [matxEnd] (to the end
    of the dimension), [matxDropDim] (drop the dimension), [matxKeepDim]
    (valid for [clone()] only) and [matxIdxSentinel], the value every marker
    is compared against. *)
Class Markers : Type := MkMarkers {
  matxKeepDim : index_t;
  matxDropDim : index_t;
  matxEnd : index_t;
  matxIdxSentinel : index_t
}.

(** An instance of the markers: the largest values of a 64-bit [index_t],
    with [matxIdxSentinel] below them all. *)
Definition markers64 : Markers :=
  MkMarkers 9223372036854775807 9223372036854775806 9223372036854775805
            9223372036854775803.

(** [(shape_type)std::ceil(static_cast<double>(a) / static_cast<double>(b))],
    a floating-point computation the embedding takes as a parameter. *)
Class DoubleCeil : Type :=
  ceil_div_double : index_t -> index_t -> index_t.

(** An instance for small operands: the exact ceiling of the quotient.  The
    floating-point computation differs from it where the conversion to
    [double] or the division rounds (operands from [2^53] on) and for a
    divisor 0, where the source converts an infinity or a NaN. *)
Definition ceil_quotient : DoubleCeil := fun a b => - ((- a) / b).

(** The members of [SliceOp<DIM, T, StrideType>].  [strides_] is [None] for
    [StrideType = NoStride] and an array of the rank of [T] otherwise. *)
Record SliceOp_t (V : Type) : Type := MkSliceOp {
  op_ : Op V;
  sizes_ : list index_t;
  dims_ : list nat;
  starts_ : list index_t;
  strides_ : option (list index_t)
}.

Arguments MkSliceOp {V} _ _ _ _ _.
Arguments op_ {V} _.
Arguments sizes_ {V} _.
Arguments dims_ {V} _.
Arguments starts_ {V} _.
Arguments strides_ {V} _.

Section SliceOp.

Context {M : Markers} {C : DoubleCeil} {V : Type}.

(** [starts[i] < 0 ? op.Size(i) + starts[i] : starts[i]], and the same for
    [ends]. *)
Definition resolve (size v : index_t) : index_t :=
  if v <? 0 then size + v else v.

(** One iteration of the loop over the dimensions of [T] in the constructor;
    the loop state is the counter [d] and the members written so far.  When
    more than [DIM] dimensions are kept the source stores to [dims_[d]] and
    [sizes_[d]] past the arrays, which is undefined; the stores are dropped
    here, and the statements below are about constructions that keep at most
    [DIM] dimensions. *)
Definition ctor_body (op : Op V) (starts ends : list index_t)
    (strides : option (list index_t)) (i : nat) (st : nat * SliceOp_t V)
    : result matxException (nat * SliceOp_t V) :=
  let '(d, s) := st in
  let start := resolve (Size op i) (starts !!! i) in
  let end_ := resolve (Size op i) (ends !!! i) in
  _ ← MATX_ASSERT_STR ((start >? matxIdxSentinel) || (start <? Size op i))
        matxInvalidDim "Slice slice index out of range of operator";
  _ ← MATX_ASSERT_STR ((end_ >? matxIdxSentinel) || (end_ <=? Size op i))
        matxInvalidDim "Slice end index out of range of operator";
  let s := MkSliceOp (op_ s) (sizes_ s) (dims_ s) (<[i := start]> (starts_ s)) (strides_ s) in
  let s :=
    match strides, strides_ s with
    | Some str, Some str_ =>
        MkSliceOp (op_ s) (sizes_ s) (dims_ s) (starts_ s) (Some (<[i := str !!! i]> str_))
    | _, _ => s
    end in
  if negb (end_ =? matxDropDim) then
    _ ← MATX_ASSERT_STR (negb (end_ =? matxKeepDim))
          matxInvalidParameter "matxKeepDim only valid for clone(), not slice()";
    let s := MkSliceOp (op_ s) (sizes_ s) (<[d := i]> (dims_ s)) (starts_ s) (strides_ s) in
    let s :=
      if end_ =? matxEnd
      then MkSliceOp (op_ s) (<[d := Size op i - start]> (sizes_ s)) (dims_ s) (starts_ s) (strides_ s)
      else MkSliceOp (op_ s) (<[d := end_ - start]> (sizes_ s)) (dims_ s) (starts_ s) (strides_ s) in
    let s :=
      match strides, strides_ s with
      | Some _, Some str_ =>
          MkSliceOp (op_ s)
            (<[d := ceil_div_double (sizes_ s !!! d) (str_ !!! d)]> (sizes_ s))
            (dims_ s) (starts_ s) (strides_ s)
      | _, _ => s
      end in
    Ok (S d, s)
  else Ok (d, s).

(** [SliceOp(op, starts, ends, strides)].  The array members are not
    initialised in the source; their cells read [0] here until the loop has
    stored into them. *)
Definition SliceOp (DIM : nat) (op : Op V) (starts ends : list index_t)
    (strides : option (list index_t)) : result matxException (SliceOp_t V) :=
  let init :=
    MkSliceOp op (replicate DIM 0) (replicate DIM 0%nat) (replicate (Rank op) 0)
      (match strides with
       | Some _ => Some (replicate (Rank op) 0)
       | None => None
       end) in
  '(d, s) ← for_loop_M (Rank op) (ctor_body op starts ends strides) (0%nat, init);
  _ ← MATX_ASSERT_STR (d =? DIM)%nat matxInvalidDim
        "SliceOp: Number of dimensions without matxDropDim must equal new rank.";
  Ok s.

(** [SliceOp::get_impl] for [EPT == ElementsPerThread::ONE]; [rank] is
    [Rank()], the rank of the slice. *)
Definition get_impl (rank : nat) (op : Op V) (starts : list index_t)
    (strides : option (list index_t)) (dims : list nat) (indices : list index_t) : V :=
  let ind := starts in
  let inds := indices in
  let ind :=
    for_loop (Rank op) (fun i ind =>
      for_loop rank (fun j ind =>
        if (dims !!! j =? i)%nat then
          match strides with
          | Some str => <[i := starts !!! j + inds !!! j * str !!! i]> ind
          | None => <[i := starts !!! j + inds !!! j]> ind
          end
        else ind) ind) ind in
  call op ind.

(** The node a [SliceOp] value is: [Rank()] is [DIM], [Size(dim)] is
    [sizes_[dim]], [operator()] is [get_impl] on the members. *)
Definition as_op (DIM : nat) (s : SliceOp_t V) : Op V :=
  MkOp DIM (fun dim => sizes_ s !!! dim)
       (fun indices => get_impl DIM (op_ s) (starts_ s) (strides_ s) (dims_ s) indices).

(** [slice<N>(op, starts, ends)] on an operator that is not a tensor view;
    [slice(op, starts, ends)] is [N = OpType::Rank()]. *)
Definition slice (N : nat) (op : Op V) (starts ends : list index_t)
    : result matxException (Op V) :=
  s ← SliceOp N op starts ends None; Ok (as_op N s).

(** *** The checks of the constructor *)

(** The resolved start and end of dimension [i]. *)
Definition start_of (op : Op V) (starts : list index_t) (i : nat) : index_t :=
  resolve (Size op i) (starts !!! i).

Definition end_of (op : Op V) (ends : list index_t) (i : nat) : index_t :=
  resolve (Size op i) (ends !!! i).

(** The exception the checks of dimension [i] throw, if any. *)
Definition dim_error (op : Op V) (starts ends : list index_t) (i : nat)
    : option matxException :=
  let start := start_of op starts i in
  let end_ := end_of op ends i in
  if negb ((start >? matxIdxSentinel) || (start <? Size op i))
  then Some (MkException matxInvalidDim "Slice slice index out of range of operator")
  else if negb ((end_ >? matxIdxSentinel) || (end_ <=? Size op i))
  then Some (MkException matxInvalidDim "Slice end index out of range of operator")
  else if negb (end_ =? matxDropDim) && (end_ =? matxKeepDim)
  then Some (MkException matxInvalidParameter
               "matxKeepDim only valid for clone(), not slice()")
  else None.

(** The dimensions of the inner node a slice keeps, among the first [n]. *)
Definition kept_dims (op : Op V) (ends : list index_t) (n : nat) : list nat :=
  filter (fun i => end_of op ends i <> matxDropDim) (seq 0 n).

Lemma ctor_body_error (op : Op V) (starts ends : list index_t)
    (strides : option (list index_t)) (i : nat) (st : nat * SliceOp_t V)
    (e : matxException) :
  dim_error op starts ends i = Some e ->
  ctor_body op starts ends strides i st = Err e.
Proof.
  destruct st as [d s]. unfold dim_error, ctor_body, start_of, end_of.
  destruct ((_ >? matxIdxSentinel) || (_ <? Size op i)); cbn;
    [| intros [= <-]; reflexivity].
  destruct ((_ >? matxIdxSentinel) || (_ <=? Size op i)); cbn;
    [| intros [= <-]; reflexivity].
  destruct (_ =? matxDropDim); cbn; [discriminate |].
  destruct (_ =? matxKeepDim); cbn; [intros [= <-]; reflexivity | discriminate].
Qed.

(** What one iteration that passes its checks does to the loop state. *)
Lemma ctor_body_ok (op : Op V) (starts ends : list index_t)
    (strides : option (list index_t)) (i d : nat) (s : SliceOp_t V) :
  dim_error op starts ends i = None ->
  exists (d' : nat) (s' : SliceOp_t V),
    ctor_body op starts ends strides i (d, s) = Ok (d', s')
    /\ op_ s' = op_ s
    /\ starts_ s' = <[i := start_of op starts i]> (starts_ s)
    /\ strides_ s' =
         match strides, strides_ s with
         | Some str, Some str_ => Some (<[i := str !!! i]> str_)
         | _, _ => strides_ s
         end
    /\ (if decide (end_of op ends i = matxDropDim)
        then d' = d /\ dims_ s' = dims_ s /\ sizes_ s' = sizes_ s
        else d' = S d /\ dims_ s' = <[d := i]> (dims_ s)
             /\ length (sizes_ s') = length (sizes_ s)
             /\ (strides = None ->
                 sizes_ s' =
                   <[d := if end_of op ends i =? matxEnd
                          then Size op i - start_of op starts i
                          else end_of op ends i - start_of op starts i]> (sizes_ s))).
Proof.
  unfold dim_error, ctor_body. fold (start_of op starts i) (end_of op ends i).
  destruct (decide (end_of op ends i = matxDropDim)) as [Hdrop | Hkeep].
  - destruct ((_ >? matxIdxSentinel) || (_ <? Size op i)); cbn [negb]; [| intros [=]].
    destruct ((_ >? matxIdxSentinel) || (_ <=? Size op i)); cbn [negb]; [| intros [=]].
    rewrite (proj2 (Z.eqb_eq _ _) Hdrop). cbn [negb andb].
    intros _. eexists _, _. split; [reflexivity |]. cbn [op_ starts_ strides_ dims_ sizes_].
    destruct strides as [str |], (strides_ s) as [str_ |]; repeat split; reflexivity.
  - destruct ((_ >? matxIdxSentinel) || (_ <? Size op i)); cbn [negb]; [| intros [=]].
    destruct ((_ >? matxIdxSentinel) || (_ <=? Size op i)); cbn [negb]; [| intros [=]].
    rewrite (proj2 (Z.eqb_neq _ _) Hkeep). cbn [negb andb].
    destruct (end_of op ends i =? matxKeepDim); [intros [=] |].
    intros _.
    destruct strides as [str |], (strides_ s) as [str_ |],
      (end_of op ends i =? matxEnd);
      (eexists _, _; split; [reflexivity |]; cbn [op_ starts_ strides_ dims_ sizes_];
       repeat split; rewrite ?length_insert;
       first [reflexivity | intros _; reflexivity | intros [=]]).
Qed.

(** The loop over the dimensions throws the exception of the first dimension
    whose checks fail, and completes when no dimension fails. *)
Lemma ctor_loop_outcome (op : Op V) (starts ends : list index_t)
    (strides : option (list index_t)) (n : nat) (st0 : nat * SliceOp_t V) :
  match for_loop_M n (ctor_body op starts ends strides) st0 with
  | Ok _ => forall i : nat, (i < n)%nat -> dim_error op starts ends i = None
  | Err e => exists i : nat, (i < n)%nat /\ dim_error op starts ends i = Some e
               /\ forall k : nat, (k < i)%nat -> dim_error op starts ends k = None
  end.
Proof.
  induction n as [| n IH].
  - cbn. intros i Hi. lia.
  - rewrite for_loop_M_S.
    destruct (for_loop_M n (ctor_body op starts ends strides) st0) as [[d s] | e].
    + rewrite bind_Ok. destruct (dim_error op starts ends n) as [e |] eqn:He.
      * rewrite (ctor_body_error _ _ _ _ _ _ _ He).
        exists n. split; [lia |]. split; [exact He |]. intros k Hk. apply IH. exact Hk.
      * destruct (ctor_body_ok op starts ends strides n d s He) as (d' & s' & -> & _).
        intros i Hi. destruct (decide (i = n)) as [-> | Hne]; [exact He |].
        apply IH. lia.
    + rewrite bind_Err. destruct IH as (i & Hi & He & Hk).
      exists i. split; [lia |]. split; [exact He | exact Hk].
Qed.

(** The members after [n] iterations that all passed their checks. *)
Lemma ctor_loop_state (op : Op V) (starts ends : list index_t)
    (strides : option (list index_t)) (DIM n : nat) (d : nat) (s : SliceOp_t V) :
  (n <= Rank op)%nat ->
  for_loop_M n (ctor_body op starts ends strides)
    (0%nat,
     MkSliceOp op (replicate DIM 0) (replicate DIM 0%nat) (replicate (Rank op) 0)
       (match strides with
        | Some _ => Some (replicate (Rank op) 0)
        | None => None
        end)) = Ok (d, s) ->
  op_ s = op
  /\ d = length (kept_dims op ends n)
  /\ length (starts_ s) = Rank op
  /\ (forall i : nat, (i < n)%nat -> starts_ s !!! i = start_of op starts i)
  /\ length (dims_ s) = DIM
  /\ (forall j : nat, (j < d)%nat -> (j < DIM)%nat ->
        dims_ s !! j = kept_dims op ends n !! j)
  /\ length (sizes_ s) = DIM
  /\ match strides with
     | None => strides_ s = None
     | Some str => exists str_ : list index_t,
         strides_ s = Some str_ /\ length str_ = Rank op
         /\ forall i : nat, (i < n)%nat -> str_ !!! i = str !!! i
     end.
Proof.
  revert d s. induction n as [| n IH]; intros d s Hn Hrun.
  - cbn in Hrun. injection Hrun as <- <-. cbn.
    repeat split; rewrite ?length_replicate; try reflexivity; try (intros; lia).
    destruct strides as [str |]; [| reflexivity].
    eexists. split; [reflexivity |]. rewrite length_replicate.
    split; [reflexivity | intros; lia].
  - rewrite for_loop_M_S in Hrun.
    pose proof (ctor_loop_outcome op starts ends strides n
      (0%nat,
       MkSliceOp op (replicate DIM 0) (replicate DIM 0%nat) (replicate (Rank op) 0)
         (match strides with
          | Some _ => Some (replicate (Rank op) 0)
          | None => None
          end))) as Hout.
    destruct (for_loop_M n (ctor_body op starts ends strides) _) as [[d0 s0] | e] eqn:Hprev;
      [| discriminate].
    destruct (IH d0 s0 ltac:(lia) eq_refl)
      as (Hop & Hd & Hls & Hst & Hld & Hdims & Hlz & Hstr).
    rewrite bind_Ok in Hrun.
    destruct (dim_error op starts ends n) as [e |] eqn:He.
    { rewrite (ctor_body_error _ _ _ _ _ _ _ He) in Hrun. discriminate. }
    destruct (ctor_body_ok op starts ends strides n d0 s0 He)
      as (d' & s' & Hbody & Hop' & Hst' & Hstr' & Hcase).
    rewrite Hbody in Hrun. injection Hrun as <- <-.
    assert (Hkept : kept_dims op ends (S n)
                    = kept_dims op ends n
                      ++ (if decide (end_of op ends n = matxDropDim) then [] else [n])).
    { unfold kept_dims. rewrite seq_S, filter_app. cbn [filter list_filter].
      f_equal. cbn. destruct (decide (end_of op ends n = matxDropDim)) as [Hdr | Hdr].
      - rewrite decide_False by (intros Hc; apply Hc; exact Hdr). reflexivity.
      - rewrite decide_True by exact Hdr. reflexivity. }
    split; [congruence |].
    assert (Hstarts : length (starts_ s') = Rank op /\
              forall i : nat, (i < S n)%nat -> starts_ s' !!! i = start_of op starts i).
    { rewrite Hst', length_insert. split; [exact Hls |].
      intros i Hi. destruct (decide (i = n)) as [-> | Hne].
      - apply list_lookup_total_insert_eq. lia.
      - rewrite list_lookup_total_insert_ne by congruence. apply Hst. lia. }
    assert (Hstrides : match strides with
       | None => strides_ s' = None
       | Some str => exists str_ : list index_t,
           strides_ s' = Some str_ /\ length str_ = Rank op
           /\ forall i : nat, (i < S n)%nat -> str_ !!! i = str !!! i
       end).
    { destruct strides as [str |].
      - destruct Hstr as (str_ & Hs0 & Hlen & Hval). rewrite Hs0 in Hstr'.
        eexists. split; [exact Hstr' |]. rewrite length_insert. split; [exact Hlen |].
        intros i Hi. destruct (decide (i = n)) as [-> | Hne].
        + apply list_lookup_total_insert_eq. lia.
        + rewrite list_lookup_total_insert_ne by congruence. apply Hval. lia.
      - rewrite Hstr'. exact Hstr. }
    rewrite Hkept.
    destruct (decide (end_of op ends n = matxDropDim)) as [Hdr | Hdr].
    + destruct Hcase as (-> & Hdm & Hsz). rewrite app_nil_r, Hdm, Hsz.
      repeat split; try tauto; try assumption.
    + destruct Hcase as (-> & Hdm & Hsz & _).
      rewrite Hdm, Hsz, length_insert, length_app. cbn [length].
      repeat split; try tauto; try assumption; try lia.
      intros j Hj HjD. destruct (decide (j = d0)) as [-> | Hne].
      * rewrite list_lookup_insert_eq by lia.
        rewrite lookup_app_r by lia.
        rewrite Hd, Nat.sub_diag. reflexivity.
      * rewrite list_lookup_insert_ne by congruence.
        rewrite lookup_app_l by lia. apply Hdims; lia.
Qed.

(** *** Element access of a slice that keeps every dimension *)

(** The stride of dimension [i]: [1] when the slice has no strides. *)
Definition stride_of (strides : option (list index_t)) (i : nat) : index_t :=
  match strides with
  | Some str => str !!! i
  | None => 1
  end.

Lemma kept_dims_all (op : Op V) (ends : list index_t) (n : nat) :
  (forall i : nat, (i < n)%nat -> end_of op ends i <> matxDropDim) ->
  kept_dims op ends n = seq 0 n.
Proof.
  intros Hall. unfold kept_dims.
  induction n as [| n IH]; [reflexivity |].
  rewrite seq_S, filter_app, IH by (intros i Hi; apply Hall; lia).
  cbn. rewrite decide_True by (apply Hall; lia). reflexivity.
Qed.

(** The inner loop of [get_impl] when [dims[j] = j]: only [j = i] stores. *)
Lemma inner_loop_identity_dims (dims : list nat) (f : nat -> list index_t -> list index_t)
    (i n : nat) (ind : list index_t) :
  (forall j : nat, (j < n)%nat -> dims !!! j = j) ->
  for_loop n (fun j a => if (dims !!! j =? i)%nat then f j a else a) ind
  = if decide (i < n)%nat then f i ind else ind.
Proof.
  intros Hd. induction n as [| n IH].
  - rewrite for_loop_0. destruct (decide (i < 0)%nat); [lia | reflexivity].
  - rewrite for_loop_S, IH by (intros j Hj; apply Hd; lia).
    rewrite (Hd n) by lia.
    destruct (Nat.eqb_spec n i) as [-> | Hne].
    + destruct (decide (i < i)%nat); [lia |].
      destruct (decide (i < S i)%nat); [reflexivity | lia].
    + destruct (decide (i < n)%nat), (decide (i < S n)%nat); try lia; reflexivity.
Qed.

Lemma get_impl_identity_dims (op : Op V) (starts : list index_t)
    (strides : option (list index_t)) (dims : list nat) (indices : list index_t) :
  length starts = Rank op ->
  (forall j : nat, (j < Rank op)%nat -> dims !!! j = j) ->
  get_impl (Rank op) op starts strides dims indices
  = call op (imap (fun i _ => starts !!! i + indices !!! i * stride_of strides i) starts).
Proof.
  intros Hlen Hd. unfold get_impl. cbv zeta. f_equal.
  rewrite <- Hlen at 1.
  rewrite <- (for_loop_update_imap
                (fun i _ => starts !!! i + indices !!! i * stride_of strides i) starts).
  apply for_loop_ext. intros i a Hi.
  rewrite (inner_loop_identity_dims dims
             (fun j a => match strides with
                         | Some str => <[i := starts !!! j + indices !!! j * str !!! i]> a
                         | None => <[i := starts !!! j + indices !!! j]> a
                         end) i (Rank op) a Hd).
  rewrite decide_True by lia.
  destruct strides as [str |]; cbn [stride_of]; [reflexivity |].
  rewrite Z.mul_1_r. reflexivity.
Qed.

(** A slice that keeps every dimension reads the inner node at
    [start + i * stride] in each dimension, with the resolved start. *)
Lemma slice_keep_all_access (op : Op V) (starts ends : list index_t)
    (strides : option (list index_t)) (s : SliceOp_t V) (idx : list index_t) :
  SliceOp (Rank op) op starts ends strides = Ok s ->
  (forall i : nat, (i < Rank op)%nat -> end_of op ends i <> matxDropDim) ->
  exists ind : list index_t,
    call (as_op (Rank op) s) idx = call op ind
    /\ length ind = Rank op
    /\ forall i : nat, (i < Rank op)%nat ->
         ind !!! i = start_of op starts i + idx !!! i * stride_of strides i.
Proof.
  intros Hctor Hall. unfold SliceOp in Hctor. cbv zeta in Hctor.
  destruct (for_loop_M (Rank op) (ctor_body op starts ends strides) _)
    as [[d s0] | e] eqn:Hloop; [| discriminate].
  rewrite bind_Ok in Hctor.
  destruct (Nat.eqb_spec d (Rank op)) as [Hd | Hd]; [| discriminate].
  cbn in Hctor. injection Hctor as <-.
  destruct (ctor_loop_state op starts ends strides (Rank op) (Rank op) d s0
              (Nat.le_refl _) Hloop)
    as (Hop & _ & Hls & Hst & Hld & Hdims & _ & Hstr).
  rewrite (kept_dims_all op ends (Rank op) Hall) in Hdims.
  assert (Hid : forall j : nat, (j < Rank op)%nat -> dims_ s0 !!! j = j).
  { intros j Hj. apply list_lookup_total_correct.
    rewrite Hdims by lia. apply lookup_seq_lt. exact Hj. }
  exists (imap (fun i _ => starts_ s0 !!! i + idx !!! i * stride_of (strides_ s0) i)
               (starts_ s0)).
  split; [| split].
  - cbn [call as_op]. rewrite Hop.
    apply get_impl_identity_dims; assumption.
  - rewrite length_imap. exact Hls.
  - intros i Hi.
    assert (Hsome : is_Some (starts_ s0 !! i)) by (apply lookup_lt_is_Some; lia).
    destruct Hsome as [x Hx].
    erewrite list_lookup_total_correct
      by (rewrite list_lookup_imap, Hx; reflexivity).
    rewrite (Hst i Hi). f_equal. f_equal.
    destruct strides as [str |].
    + destruct Hstr as (str_ & -> & _ & Hval). cbn. apply Hval. exact Hi.
    + rewrite Hstr. reflexivity.
Qed.

End SliceOp.

(** *** The scenarios of the specification, with the 64-bit markers *)

(** The rank-2 node of size [[3,4]] sliced with [starts=[0,1]],
    [ends=[3,3]] has size [[3,2]] and its element [(1,0)] is element [(1,1)]
    of the input. *)
Example slice_scenario :
  exists t : Op (list index_t),
    slice (M := markers64) (C := ceil_quotient) 2 (coord_probe [3; 4]) [0; 1] [3; 3] = Ok t
    /\ Shape t = [3; 2]
    /\ call t [1; 0] = [1; 1].
Proof. eexists. split; [vm_compute; reflexivity |]. split; vm_compute; reflexivity. Qed.

(** C1.  The round trip fails on a slice that drops a dimension in front of
    a kept one: [get_impl] adds the local coordinate [j] to [starts[j]], the
    start of inner dimension [j], where the kept dimension is [dims[j]].
    The rank-2 node of size [[3,4]] sliced with [starts=[2,1]],
    [ends=[matxDropDim,3]] is a rank-1 node of size [[2]] whose element [(0)]
    is element [(2,2)] of the input, where [starts[dim] + i * stride[dim]]
    is [(2,1)]. *)
Theorem slice_dropped_dim_reads_other_start :
  exists t : Op (list index_t),
    slice (M := markers64) (C := ceil_quotient) 1 (coord_probe [3; 4])
      [2; 1] [matxDropDim (Markers := markers64); 3] = Ok t
    /\ Shape t = [2]
    /\ call t [0] = [2; 2]
    /\ call t [0] <> [2; 1 + 0 * 1].
Proof.
  eexists. split; [vm_compute; reflexivity |].
  split; [vm_compute; reflexivity |].
  split; [vm_compute; reflexivity |].
  vm_compute. intros [=].
Qed.

(** Against C3 as stated.  A start equal to the size lies in [[0, size]],
    and the constructor rejects it with the range error: the node of size
    [[3]] sliced with [starts=[3]], [ends=[3]].  And a start outside
    [[0, size]] does not always give the range error: the node of size
    [[3,4]] sliced with [starts=[0,9]], [ends=[matxKeepDim,4]] is rejected
    for the marker of dimension 0, before dimension 1 is looked at. *)
Lemma slice_start_at_size_rejected :
  (0 <= start_of (coord_probe [3]) [3] 0 <= Size (coord_probe [3]) 0
   /\ 0 <= end_of (coord_probe [3]) [3] 0 <= Size (coord_probe [3]) 0
   /\ SliceOp (M := markers64) (C := ceil_quotient) 1 (coord_probe [3]) [3] [3] None
      = Err (MkException matxInvalidDim "Slice slice index out of range of operator"))
  /\ (Size (coord_probe [3; 4]) 1 < start_of (coord_probe [3; 4]) [0; 9] 1
      /\ SliceOp (M := markers64) (C := ceil_quotient) 2 (coord_probe [3; 4]) [0; 9]
           [matxKeepDim (Markers := markers64); 4] None
         = Err (MkException matxInvalidParameter
                  "matxKeepDim only valid for clone(), not slice()")).
Proof.
  split.
  - split; [vm_compute; split; intros [=] |].
    split; [vm_compute; split; intros [=] |].
    vm_compute. reflexivity.
  - split; vm_compute; reflexivity.
Qed.

End Slice.

(** ** Capability negotiation (get_capability of the operators) *)

Module Capability.

(** Modelled from the spec: [ElementsPerThread] is declared in
    core/capabilities.h, outside the files at hand.  Glossary and section
    4.3: the granularity trait is a count of contiguous elements processed
    together in one evaluation step, and its smallest value is 1,
    [ElementsPerThread::ONE]. *)
Definition ElementsPerThread : Type := positive.

Definition ONE : ElementsPerThread := 1%positive.

(** The capability kinds: [ELEMENTS_PER_THREAD], which the operators at hand
    single out, and the kinds they treat alike. *)
Inductive OperatorCapability (OtherCap : Type) : Type :=
| ELEMENTS_PER_THREAD
| OTHER (c : OtherCap).

Arguments ELEMENTS_PER_THREAD {OtherCap}.
Arguments OTHER {OtherCap} _.

(** Modelled from the spec: [capability_attributes<Cap>] and
    [combine_capabilities<Cap>] are declared in core/capabilities.h, outside
    the files at hand.  Sections 3 and 4.3: every kind has a value type, a
    default value and a binary combination rule, and the rule of the
    granularity trait is the minimum. *)
Class Attributes (OtherCap : Type) : Type := MkAttributes {
  other_type : OtherCap -> Type;
  other_default : forall c : OtherCap, other_type c;
  other_combine : forall c : OtherCap, other_type c -> other_type c -> other_type c;
  ept_default : ElementsPerThread
}.

Section Negotiation.

Context {OtherCap : Type} {A : Attributes OtherCap}.

Definition cap_type (Cap : OperatorCapability OtherCap) : Type :=
  match Cap with
  | ELEMENTS_PER_THREAD => ElementsPerThread
  | OTHER c => other_type c
  end.

Definition default_value (Cap : OperatorCapability OtherCap) : cap_type Cap :=
  match Cap with
  | ELEMENTS_PER_THREAD => ept_default
  | OTHER c => other_default c
  end.

Definition combine (Cap : OperatorCapability OtherCap)
    : cap_type Cap -> cap_type Cap -> cap_type Cap :=
  match Cap with
  | ELEMENTS_PER_THREAD => Pos.min
  | OTHER c => other_combine c
  end.

(** [combine_capabilities<Cap>(self, caps...)]. *)
Definition combine_capabilities (Cap : OperatorCapability OtherCap)
    (self : cap_type Cap) (caps : list (cap_type Cap)) : cap_type Cap :=
  fold_left (combine Cap) caps self.

(** The expression trees built from the operators at hand.  A leaf is a node
    whose capability is its own declaration (a tensor, a generator). *)
Inductive Node : Type :=
| Leaf (declared : forall Cap : OperatorCapability OtherCap, cap_type Cap)
| SliceOp (op_ : Node)
| ReverseOp (op_ : Node)
| RemapOp (op_ idx_ : Node)
| RepMatOp (op_ : Node)
| FlattenOp (op1_ : Node)
| StddOp (a_ : Node)
| ArgMinOp (a_ : Node)
| AllOp (a_ : Node)
| HistOp (a_ : Node)
| CovOp (a_ : Node)
| Interp1Op (x_ v_ xq_ : Node)
| BlackScholes (V_ S_ K_ r_ T_ : Node).

(** [get_capability<Cap>()] of each operator; on an inner node it is
    [detail::get_operator_capability<Cap>(inner)]. *)
Fixpoint get_capability (Cap : OperatorCapability OtherCap) (n : Node) : cap_type Cap :=
  match n with
  | Leaf declared => declared Cap
  | SliceOp op_ | ReverseOp op_ | RepMatOp op_ | FlattenOp op_ =>
      match Cap as c return cap_type c with
      | ELEMENTS_PER_THREAD => ONE
      | OTHER c =>
          let self_has_cap := default_value (OTHER c) in
          combine_capabilities (OTHER c) self_has_cap [get_capability (OTHER c) op_]
      end
  | RemapOp op_ idx_ =>
      match Cap as c return cap_type c with
      | ELEMENTS_PER_THREAD => ONE
      | OTHER c =>
          let self_has_cap := default_value (OTHER c) in
          combine_capabilities (OTHER c) self_has_cap
            [get_capability (OTHER c) op_; get_capability (OTHER c) idx_]
      end
  | StddOp a_ | ArgMinOp a_ | AllOp a_ | HistOp a_ | CovOp a_ =>
      let self_has_cap := default_value Cap in
      combine_capabilities Cap self_has_cap [get_capability Cap a_]
  | Interp1Op x_ v_ xq_ =>
      match Cap as c return cap_type c with
      | ELEMENTS_PER_THREAD => ONE
      | OTHER c =>
          let self_has_cap := default_value (OTHER c) in
          combine_capabilities (OTHER c) self_has_cap
            [get_capability (OTHER c) x_; get_capability (OTHER c) v_;
             get_capability (OTHER c) xq_]
      end
  | BlackScholes V_ S_ K_ r_ T_ =>
      let self_has_cap := default_value Cap in
      combine_capabilities Cap self_has_cap
        [get_capability Cap V_; get_capability Cap S_; get_capability Cap K_;
         get_capability Cap r_; get_capability Cap T_]
  end.

(** The views that do non-contiguous access, as wrappers of a tree. *)
Inductive View : Type :=
| slice_view
| reverse_view
| remap_view (idx_ : Node)
| repeat_view
| flatten_view.

Definition wrap (v : View) (t : Node) : Node :=
  match v with
  | slice_view => SliceOp t
  | reverse_view => ReverseOp t
  | remap_view idx_ => RemapOp t idx_
  | repeat_view => RepMatOp t
  | flatten_view => FlattenOp t
  end.

(** One level of a tree around a hole, and a path from the root to a hole. *)
Inductive Frame : Type :=
| in_slice | in_reverse | in_repmat | in_flatten
| in_remap_op (idx_ : Node) | in_remap_idx (op_ : Node)
| in_stdd | in_argmin | in_all | in_hist | in_cov
| in_interp_x (v_ xq_ : Node) | in_interp_v (x_ xq_ : Node) | in_interp_xq (x_ v_ : Node)
| in_bs_V (S_ K_ r_ T_ : Node) | in_bs_S (V_ K_ r_ T_ : Node)
| in_bs_K (V_ S_ r_ T_ : Node) | in_bs_r (V_ S_ K_ T_ : Node)
| in_bs_T (V_ S_ K_ r_ : Node).

Definition plug_frame (f : Frame) (t : Node) : Node :=
  match f with
  | in_slice => SliceOp t
  | in_reverse => ReverseOp t
  | in_repmat => RepMatOp t
  | in_flatten => FlattenOp t
  | in_remap_op idx_ => RemapOp t idx_
  | in_remap_idx op_ => RemapOp op_ t
  | in_stdd => StddOp t
  | in_argmin => ArgMinOp t
  | in_all => AllOp t
  | in_hist => HistOp t
  | in_cov => CovOp t
  | in_interp_x v_ xq_ => Interp1Op t v_ xq_
  | in_interp_v x_ xq_ => Interp1Op x_ t xq_
  | in_interp_xq x_ v_ => Interp1Op x_ v_ t
  | in_bs_V S_ K_ r_ T_ => BlackScholes t S_ K_ r_ T_
  | in_bs_S V_ K_ r_ T_ => BlackScholes V_ t K_ r_ T_
  | in_bs_K V_ S_ r_ T_ => BlackScholes V_ S_ t r_ T_
  | in_bs_r V_ S_ K_ T_ => BlackScholes V_ S_ K_ t T_
  | in_bs_T V_ S_ K_ r_ => BlackScholes V_ S_ K_ r_ t
  end.

(** [plug ctx t]: the tree with [t] in the hole; the innermost frame comes
    first. *)
Definition plug (ctx : list Frame) (t : Node) : Node :=
  fold_left (fun n f => plug_frame f n) ctx t.

(** The granularity of a tree, as a number of elements. *)
Definition granularity (t : Node) : Z :=
  Zpos (get_capability ELEMENTS_PER_THREAD t).

Lemma view_declares_ONE (v : View) (t : Node) :
  get_capability ELEMENTS_PER_THREAD (wrap v t) = ONE.
Proof. destruct v; reflexivity. Qed.

Lemma plug_frame_monotone (f : Frame) (t1 t2 : Node) :
  granularity t1 <= granularity t2 ->
  granularity (plug_frame f t1) <= granularity (plug_frame f t2).
Proof.
  unfold granularity. intros H.
  destruct f; cbn [plug_frame get_capability combine_capabilities fold_left combine];
    lia.
Qed.

Lemma plug_monotone (ctx : list Frame) (t1 t2 : Node) :
  granularity t1 <= granularity t2 ->
  granularity (plug ctx t1) <= granularity (plug ctx t2).
Proof.
  revert t1 t2. induction ctx as [| f ctx IH]; intros t1 t2 H; [exact H |].
  cbn [plug fold_left]. apply IH. apply plug_frame_monotone. exact H.
Qed.

(** C5. A non-contiguous view (slice, reverse, remap, repeat, flatten)
    declares [ElementsPerThread::ONE], the smallest granularity, whatever
    tree it wraps; so the granularity of the wrapped tree is at most the
    granularity of the tree, and putting the view around any subtree of an
    expression tree does not raise the granularity of the whole tree. *)
Theorem view_granularity_le (v : View) (t : Node) (ctx : list Frame) :
  get_capability ELEMENTS_PER_THREAD (wrap v t) = ONE
  /\ granularity (wrap v t) = 1
  /\ 1 <= granularity t
  /\ granularity (wrap v t) <= granularity t
  /\ granularity (plug ctx (wrap v t)) <= granularity (plug ctx t).
Proof.
  assert (H1 : granularity (wrap v t) = 1).
  { unfold granularity. rewrite view_declares_ONE. reflexivity. }
  assert (H2 : 1 <= granularity t) by (unfold granularity; lia).
  split; [apply view_declares_ONE |].
  split; [exact H1 |].
  split; [exact H2 |].
  split; [lia |].
  apply plug_monotone. lia.
Qed.

End Negotiation.

End Capability.

(** ** Transform nodes and their temporaries (stdd.h, all.h, hist.h, cov.h,
       argmin.h) *)

Module Transform.

(** A tensor over allocated memory: the handle of its storage ([None] for a
    tensor that was never made) and its shape. *)
Record tensor_impl_t : Type := MkTensorImpl {
  ldata_ : option positive;
  shape_ : list index_t
}.

(** An invalid release: a handle that is not live. *)
Inductive alloc_error : Type := invalid_free (p : positive).

(** The transforms with an output temporary, with the members that select
    the computation. *)
Inductive Kind (V : Type) : Type :=
| stdd (ddof_ : Z)
| all
| hist (lower_ upper_ : V) (num_levels_ : Z)
| cov.

Arguments stdd {V} _.
Arguments all {V}.
Arguments hist {V} _ _ _.
Arguments cov {V}.

(** Operator nodes with their lifecycle state.  [Operand] is a node with no
    state of its own (a tensor view, a stateless operator).  [TransformOp]
    is [StddOp], [AllOp], [HistOp] or [CovOp] with its members [a_],
    [out_dims_], [tmp_out_] and [ptr].  [ArgMinOp] has the member [a_]
    only. *)
Inductive XformOp (V : Type) : Type :=
| Operand (t : Op V)
| TransformOp (k : Kind V) (rank : nat) (a_ : XformOp V) (out_dims_ : list index_t)
    (tmp_out_ : tensor_impl_t) (ptr : option positive)
| ArgMinOp (ORank : nat) (a_ : XformOp V).

Arguments Operand {V} _.
Arguments TransformOp {V} _ _ _ _ _ _.
Arguments ArgMinOp {V} _ _.

Section Lifecycle.

Context {V : Type}.

(** The content of a cell of freshly allocated memory. *)
Variable junk : V.

(** The compute provider ([stdd_impl], [all_impl], [hist_impl],
    [cov_impl]): the value it stores at each flat index of the output, given
    the transform, element access to the input and the output shape. *)
Variable provider :
  Kind V -> (list index_t -> option V) -> list index_t -> index_t -> V.

(** [Rank()] and [Size(dim)]. *)
Definition Rank (n : XformOp V) : nat :=
  match n with
  | Operand t => Core.Rank t
  | TransformOp _ rank _ _ _ _ => rank
  | ArgMinOp ORank _ => ORank
  end.

Definition Size (n : XformOp V) (dim : nat) : index_t :=
  match n with
  | Operand t => Core.Size t dim
  | TransformOp _ _ _ out_dims_ _ _ => out_dims_ !!! dim
  | ArgMinOp _ _ => 0
  end.

(** The tag [matx_transform_op] of the operator classes. *)
Definition is_matx_transform_op (n : XformOp V) : bool :=
  match n with
  | Operand _ => false
  | TransformOp _ _ _ _ _ _ => true
  | ArgMinOp _ _ => true
  end.

(** The constructors: [StddOp(a, ddof)], [AllOp(a)], [HistOp(a, lower,
    upper, num_levels)], [CovOp(A)] and [ArgMinOp(a)].  [ptr] starts as
    [nullptr]. *)
Definition StddOp (ORank : nat) (a : XformOp V) (ddof : Z) : XformOp V :=
  TransformOp (stdd ddof) ORank a
    (for_loop ORank (fun r o => <[r := Size a r]> o) (replicate ORank 0))
    (MkTensorImpl None []) None.

Definition AllOp (ORank : nat) (a : XformOp V) : XformOp V :=
  TransformOp all ORank a
    (for_loop ORank (fun r o => <[r := Size a r]> o) (replicate ORank 0))
    (MkTensorImpl None []) None.

Definition HistOp (a : XformOp V) (lower upper : V) (num_levels : Z) : XformOp V :=
  let out_dims_ :=
    for_loop (Rank a) (fun r o => <[r := Size a r]> o) (replicate (Rank a) 0) in
  TransformOp (hist lower upper num_levels) (Rank a) a
    (<[(length out_dims_ - 1)%nat := num_levels - 1]> out_dims_)
    (MkTensorImpl None []) None.

Definition CovOp (a : XformOp V) : XformOp V :=
  TransformOp cov (Rank a) a
    (for_loop (Rank a) (fun r o => <[r := Size a r]> o) (replicate (Rank a) 0))
    (MkTensorImpl None []) None.

(** Modelled from the spec: [tensor_impl_t::operator()] is declared outside
    the files at hand.  A tensor made over fresh storage holds its elements
    in row-major order (section 4.1); reading outside live storage has no
    value. *)
Definition tensor_read (h : gmap positive (list V)) (t : tensor_impl_t)
    (idx : list index_t) : option V :=
  p ← ldata_ t;
  buf ← h !! p;
  buf !! Z.to_nat (GetAbsFromIdx_shape (shape_ t) idx).

(** Element access, [operator()(indices...)].  [StddOp], [AllOp], [HistOp]
    and [CovOp] return [tmp_out_(indices...)]; the call operator of
    [ArgMinOp] is deleted, so the node has no element access. *)
Definition access (n : XformOp V) (h : gmap positive (list V)) (idx : list index_t)
    : option V :=
  match n with
  | Operand t => Some (call t idx)
  | TransformOp _ _ _ _ tmp_out_ _ => tensor_read h tmp_out_ idx
  | ArgMinOp _ _ => None
  end.

(** Modelled from the spec: [detail::AllocateTempTensor] and [matxAlloc]
    are declared outside the files at hand.  Sections 4.5 and 6: allocate a
    buffer sized to the shape, under a handle no live buffer has, and make
    the tensor over it. *)
Definition AllocateTempTensor (shape : list index_t) (h : gmap positive (list V))
    : tensor_impl_t * positive * gmap positive (list V) :=
  let p := fresh (dom h) in
  (MkTensorImpl (Some p) shape, p,
   <[p := replicate (Z.to_nat (shape_product shape)) junk]> h).

(** Modelled from the spec: [matxFree] is declared outside the files at
    hand.  Section 6: [free(handle)] releases the buffer of a live handle;
    releasing [nullptr] does nothing, and a handle that is not live is an
    invalid release. *)
Definition matxFree (ptr : option positive) (h : gmap positive (list V))
    : result alloc_error (gmap positive (list V)) :=
  match ptr with
  | None => Ok h
  | Some p =>
      match h !! p with
      | Some _ => Ok (delete p h)
      | None => Err (invalid_free p)
      end
  end.

(** [Exec(make_tuple(tmp_out_), ex)]: the provider fills the whole shape of
    the output tensor. *)
Definition Exec (k : Kind V) (a_ : XformOp V) (out : tensor_impl_t)
    (h : gmap positive (list V)) : gmap positive (list V) :=
  match ldata_ out with
  | Some p =>
      <[p := map (fun flat => provider k (access a_ h) (shape_ out) (Z.of_nat flat))
               (seq 0 (Z.to_nat (shape_product (shape_ out))))]> h
  | None => h
  end.

(** [PreRun(shape, ex)]: the inner node first ([InnerPreRun]), then the
    temporary and the eager computation.  [ArgMinOp::PreRun] forwards to the
    inner node and does nothing else. *)
Fixpoint PreRun (n : XformOp V) (h : gmap positive (list V))
    : XformOp V * gmap positive (list V) :=
  match n with
  | Operand t => (Operand t, h)
  | TransformOp k rank a_ out_dims_ _ _ =>
      let '(a_, h) := PreRun a_ h in
      let '(tmp_out_, ptr, h) := AllocateTempTensor out_dims_ h in
      let h := Exec k a_ tmp_out_ h in
      (TransformOp k rank a_ out_dims_ tmp_out_ (Some ptr), h)
  | ArgMinOp ORank a_ =>
      let '(a_, h) := PreRun a_ h in
      (ArgMinOp ORank a_, h)
  end.

(** [PostRun(shape, ex)]: the inner node first, then [matxFree(ptr)].
    Modelled from the spec: [ArgMinOp] declares no [PostRun] and inherits
    the one of [BaseOp], declared outside the files at hand; section 4.2:
    the hooks default to forwarding the call to every inner node. *)
Fixpoint PostRun (n : XformOp V) (h : gmap positive (list V))
    : result alloc_error (gmap positive (list V)) :=
  match n with
  | Operand _ => Ok h
  | TransformOp _ _ a_ _ _ ptr =>
      h ← PostRun a_ h;
      matxFree ptr h
  | ArgMinOp _ a_ => PostRun a_ h
  end.

(** Matched cycles on one node instance: [PreRun], [PostRun], again. *)
Fixpoint run_cycles (m : nat) (n : XformOp V) (h : gmap positive (list V))
    : result alloc_error (XformOp V * gmap positive (list V)) :=
  match m with
  | O => Ok (n, h)
  | S m =>
      let '(n, h) := PreRun n h in
      h ← PostRun n h;
      run_cycles m n h
  end.

(** The handles the nodes of a tree hold, inner nodes first. *)
Fixpoint owned (n : XformOp V) : list positive :=
  match n with
  | Operand _ => []
  | TransformOp _ _ a_ _ _ ptr => owned a_ ++ option_list ptr
  | ArgMinOp _ a_ => owned a_
  end.

(** The heap without the buffers of the handles [ps]. *)
Definition without (ps : list positive) (h : gmap positive (list V))
    : gmap positive (list V) :=
  filter (fun kv => kv.1 ∉ ps) h.

Lemma without_lookup (ps : list positive) (h : gmap positive (list V)) (p : positive) :
  without ps h !! p = if decide (p ∈ ps) then None else h !! p.
Proof.
  unfold without. destruct (decide (p ∈ ps)) as [Hin | Hout].
  - apply map_lookup_filter_None. right. intros x _ Hn. apply Hn. exact Hin.
  - destruct (h !! p) as [x |] eqn:Hp.
    + apply map_lookup_filter_Some. split; [exact Hp | exact Hout].
    + apply map_lookup_filter_None. left. exact Hp.
Qed.

(** [PostRun] releases the handles of the tree, each once, when they are
    distinct and live. *)
Lemma PostRun_releases (n : XformOp V) (g : gmap positive (list V)) :
  NoDup (owned n) ->
  (forall p : positive, p ∈ owned n -> is_Some (g !! p)) ->
  PostRun n g = Ok (without (owned n) g).
Proof.
  revert g. induction n as [t | k rank a IH dims tmp ptr | r a IH]; intros g Hnd Hlive.
  - cbn. f_equal. apply map_eq. intros p. rewrite without_lookup.
    rewrite decide_False by apply not_elem_of_nil. reflexivity.
  - cbn [PostRun owned] in *.
    apply NoDup_app in Hnd. destruct Hnd as (Hnda & Hdisj & Hndp).
    rewrite (IH g Hnda) by (intros p Hp; apply Hlive, elem_of_app; left; exact Hp).
    rewrite bind_Ok.
    destruct ptr as [p |]; cbn [matxFree option_list].
    + assert (Hp : p ∉ owned a).
      { intros Hin. apply (Hdisj p Hin). apply list_elem_of_singleton. reflexivity. }
      destruct (Hlive p) as [buf Hbuf]; [apply elem_of_app; right; apply list_elem_of_singleton; reflexivity |].
      rewrite without_lookup, decide_False, Hbuf by exact Hp.
      f_equal. apply map_eq. intros q.
      rewrite without_lookup.
      destruct (decide (q = p)) as [-> | Hne].
      * rewrite lookup_delete_eq.
        rewrite decide_True by (apply elem_of_app; right; apply list_elem_of_singleton; reflexivity).
        reflexivity.
      * rewrite lookup_delete_ne by congruence. rewrite without_lookup.
        destruct (decide (q ∈ owned a)) as [Hq | Hq].
        -- rewrite decide_True by (apply elem_of_app; left; exact Hq). reflexivity.
        -- rewrite decide_False; [reflexivity |].
           intros Hin. apply elem_of_app in Hin. destruct Hin as [Hin | Hin];
             [exact (Hq Hin) | apply list_elem_of_singleton in Hin; congruence].
    + rewrite app_nil_r. reflexivity.
  - cbn [PostRun owned] in *. apply IH; assumption.
Qed.

(** [PreRun] gives every transform node of the tree a buffer under a handle
    that was not live, and leaves the other buffers as they were. *)
Lemma PreRun_allocates (n : XformOp V) (h : gmap positive (list V))
    (n' : XformOp V) (h' : gmap positive (list V)) :
  PreRun n h = (n', h') ->
  NoDup (owned n')
  /\ (forall p : positive, p ∈ owned n' -> h !! p = None /\ is_Some (h' !! p))
  /\ (forall p : positive, p ∉ owned n' -> h' !! p = h !! p).
Proof.
  revert h n' h'.
  induction n as [t | k rank a IH dims tmp ptr | r a IH]; intros h n' h' Hrun.
  - cbn in Hrun. injection Hrun as <- <-. cbn.
    split; [constructor |]. split; [| reflexivity].
    intros p Hp. exfalso. exact (not_elem_of_nil p Hp).
  - cbn [PreRun] in Hrun.
    destruct (PreRun a h) as [a' h1] eqn:Ha.
    destruct (IH h a' h1 Ha) as (Hnd & Hnew & Hold).
    unfold AllocateTempTensor, Exec in Hrun. cbn in Hrun.
    injection Hrun as <- <-. cbn [owned option_list].
    set (p := fresh (dom h1)).
    assert (Hp1 : h1 !! p = None) by (apply not_elem_of_dom, is_fresh).
    assert (Hpa : p ∉ owned a').
    { intros Hin. destruct (Hnew p Hin) as [_ [x Hx]]. congruence. }
    split; [| split].
    + apply NoDup_app. split; [exact Hnd |]. split; [| apply NoDup_singleton].
      intros q Hq Hq'. apply list_elem_of_singleton in Hq'. subst q. exact (Hpa Hq).
    + intros q Hq. apply elem_of_app in Hq. destruct Hq as [Hq | Hq].
      * destruct (Hnew q Hq) as [Hn Hs]. split; [exact Hn |].
        assert (q <> p) by (intros ->; exact (Hpa Hq)).
        rewrite !lookup_insert_ne by congruence. exact Hs.
      * apply list_elem_of_singleton in Hq. subst q. split.
        -- rewrite <- (Hold p Hpa). exact Hp1.
        -- rewrite lookup_insert_eq. eexists. reflexivity.
    + intros q Hq.
      assert (Hq1 : q ∉ owned a') by (intros Hin; apply Hq, elem_of_app; left; exact Hin).
      assert (Hq2 : q <> p).
      { intros ->. apply Hq, elem_of_app. right. apply list_elem_of_singleton. reflexivity. }
      rewrite !lookup_insert_ne by congruence. apply Hold. exact Hq1.
  - cbn [PreRun] in Hrun.
    destruct (PreRun a h) as [a' h1] eqn:Ha.
    injection Hrun as <- <-. cbn [owned]. apply (IH h a' h1 Ha).
Qed.

(** A [PreRun] and its [PostRun] leave the heap as it was. *)
Lemma PreRun_PostRun (n : XformOp V) (h : gmap positive (list V))
    (n' : XformOp V) (h' : gmap positive (list V)) :
  PreRun n h = (n', h') -> PostRun n' h' = Ok h.
Proof.
  intros Hrun. destruct (PreRun_allocates n h n' h' Hrun) as (Hnd & Hnew & Hold).
  rewrite PostRun_releases; [| exact Hnd | intros p Hp; apply (Hnew p Hp)].
  f_equal. apply map_eq. intros p. rewrite without_lookup.
  destruct (decide (p ∈ owned n')) as [Hin | Hout].
  - symmetry. apply (Hnew p Hin).
  - apply Hold. exact Hout.
Qed.

Lemma run_cycles_restore (m : nat) (n : XformOp V) (h : gmap positive (list V)) :
  exists n' : XformOp V, run_cycles m n h = Ok (n', h).
Proof.
  revert n. induction m as [| m IH]; intros n.
  - exists n. reflexivity.
  - cbn [run_cycles]. destruct (PreRun n h) as [n1 h1] eqn:Hrun.
    rewrite (PreRun_PostRun n h n1 h1 Hrun), bind_Ok. apply IH.
Qed.

(** The tuple [Exec] of [ArgMinOp] receives, and the compute provider
    [argmin_impl], which stores the minimum into its first argument and the
    index of the minimum into its second. *)
Variable Out : Type.

Variable argmin_impl : Out -> Out -> (list index_t -> option V) -> Out * Out.

(** [ArgMinOp::Exec(out, ex)].  The [static_assert] on the size of the tuple
    is an error of the call; [argmin_impl] gets the first two components. *)
Definition ArgMinOp_Exec (a_ : XformOp V) (h : gmap positive (list V)) (out : list Out)
    : result string (list Out) :=
  match out with
  | [o; i; rest] =>
      let '(o, i) := argmin_impl o i (access a_ h) in
      Ok [o; i; rest]
  | _ => Err "Must use mtie with 2 outputs on argmin(). ie: (mtie(O, I) = argmin(A))"
  end.

(** C4 (amended).  For a transform node with an output temporary ([StddOp],
    [AllOp], [HistOp], [CovOp]), in any state and over any inner tree:
    [PreRun] allocates a buffer under a handle that was not live, sized to
    the product of [out_dims_], and the provider fills every cell of it;
    element access at in-range coordinates then reads the cell of the buffer
    at the row-major flat index; the matching [PostRun] succeeds and leaves
    the heap as it was before [PreRun]; and so does any number of matched
    cycles on the node. *)
Theorem transform_prerun_postrun (k : Kind V) (rank : nat) (a_ : XformOp V)
    (out_dims_ : list index_t) (tmp_out_ : tensor_impl_t) (ptr : option positive)
    (h : gmap positive (list V)) :
  exists (a' : XformOp V) (p : positive) (buf : list V) (h' : gmap positive (list V)),
    PreRun (TransformOp k rank a_ out_dims_ tmp_out_ ptr) h
    = (TransformOp k rank a' out_dims_ (MkTensorImpl (Some p) out_dims_) (Some p), h')
    /\ h !! p = None
    /\ h' !! p = Some buf
    /\ length buf = Z.to_nat (shape_product out_dims_)
    /\ (exists input : list index_t -> option V,
          forall flat : nat, (flat < length buf)%nat ->
            buf !! flat = Some (provider k input out_dims_ (Z.of_nat flat)))
    /\ (forall idx : list index_t, valid_coords out_dims_ idx ->
          exists v : V,
            buf !! Z.to_nat (GetAbsFromIdx_shape out_dims_ idx) = Some v
            /\ access
                 (TransformOp k rank a' out_dims_ (MkTensorImpl (Some p) out_dims_) (Some p))
                 h' idx = Some v)
    /\ PostRun
         (TransformOp k rank a' out_dims_ (MkTensorImpl (Some p) out_dims_) (Some p)) h'
       = Ok h
    /\ forall m : nat, exists n' : XformOp V,
         run_cycles m (TransformOp k rank a_ out_dims_ tmp_out_ ptr) h = Ok (n', h).
Proof.
  destruct (PreRun (TransformOp k rank a_ out_dims_ tmp_out_ ptr) h) as [n' h'] eqn:Hrun.
  pose proof (PreRun_PostRun _ _ _ _ Hrun) as Hpost.
  pose proof (PreRun_allocates _ _ _ _ Hrun) as (_ & Hnew & _).
  cbn [PreRun] in Hrun. destruct (PreRun a_ h) as [a' h1] eqn:Ha.
  unfold AllocateTempTensor, Exec in Hrun. cbn in Hrun.
  injection Hrun as <- <-.
  set (p := fresh (dom h1)) in *.
  set (input := access a' (<[p := replicate (Z.to_nat (shape_product out_dims_)) junk]> h1)) in *.
  set (buf := map (fun flat => provider k input out_dims_ (Z.of_nat flat))
                  (seq 0 (Z.to_nat (shape_product out_dims_)))) in *.
  assert (Hlen : length buf = Z.to_nat (shape_product out_dims_)).
  { unfold buf. rewrite length_map, length_seq. reflexivity. }
  exists a', p, buf, (<[p := buf]> (<[p := replicate (Z.to_nat (shape_product out_dims_)) junk]> h1)).
  split; [reflexivity |].
  split.
  { apply (Hnew p). cbn [owned option_list]. apply elem_of_app. right.
    apply list_elem_of_singleton. reflexivity. }
  split; [apply lookup_insert_eq |].
  split; [exact Hlen |].
  split.
  { exists input. intros flat Hflat. unfold buf.
    rewrite list_lookup_fmap, lookup_seq_lt by lia. reflexivity. }
  split.
  { intros idx Hv.
    destruct (coords_flat_coords out_dims_ idx Hv) as [Hb _].
    destruct (lookup_lt_is_Some_2 buf (Z.to_nat (GetAbsFromIdx_shape out_dims_ idx)))
      as [v Hvv]; [lia |].
    exists v. split; [exact Hvv |].
    cbn [access]. unfold tensor_read. cbn [ldata_ shape_ mbind option_bind].
    rewrite lookup_insert_eq. cbn. exact Hvv. }
  split; [exact Hpost |].
  intros m. apply run_cycles_restore.
Qed.

(** C10.  The [ArgMinOp] node has no element access, in any state of the
    heap, before and after its [PreRun]; its [Size(dim)] is 0 for every
    [dim]; its [PreRun] runs the one of the inner node and gives the node no
    buffer of its own; and its [Exec] is an error unless the tuple has three
    components, of which [argmin_impl] gets the first two, the value and the
    index output, and the third is left as it is. *)
Theorem argmin_no_element_access (ORank : nat) (a_ : XformOp V)
    (h : gmap positive (list V)) (idx : list index_t) (dim : nat) :
  access (ArgMinOp ORank a_) h idx = None
  /\ Size (ArgMinOp ORank a_) dim = 0
  /\ (exists (a' : XformOp V) (h' : gmap positive (list V)),
        PreRun a_ h = (a', h')
        /\ PreRun (ArgMinOp ORank a_) h = (ArgMinOp ORank a', h')
        /\ owned (ArgMinOp ORank a') = owned a'
        /\ access (ArgMinOp ORank a') h' idx = None)
  /\ (forall out : list Out,
        (exists r : list Out, ArgMinOp_Exec a_ h out = Ok r) <-> length out = 3%nat)
  /\ (forall o i rest : Out,
        ArgMinOp_Exec a_ h [o; i; rest]
        = Ok [(argmin_impl o i (access a_ h)).1; (argmin_impl o i (access a_ h)).2; rest]).
Proof.
  split; [reflexivity |]. split; [reflexivity |]. split.
  { destruct (PreRun a_ h) as [a' h'] eqn:Ha. exists a', h'.
    split; [reflexivity |]. split; [| split; reflexivity].
    cbn [PreRun]. rewrite Ha. reflexivity. }
  split.
  - intros out. split.
    + intros [r Hr].
      destruct out as [| o [| i [| rest [| x out]]]]; cbn in Hr; try discriminate Hr.
      reflexivity.
    + intros Hlen.
      destruct out as [| o [| i [| rest [| x out]]]]; cbn in Hlen; try discriminate Hlen.
      cbn. destruct (argmin_impl o i (access a_ h)). eexists. reflexivity.
  - intros o i rest. cbn. destruct (argmin_impl o i (access a_ h)). reflexivity.
Qed.

End Lifecycle.

(** Against C4 as stated: the [PreRun] of an [ArgMinOp] over a tensor
    allocates nothing, and the node, a transform node by its tag, has no
    element access after it. *)
Lemma argmin_prerun_allocates_nothing :
  is_matx_transform_op (ArgMinOp 0 (Operand (coord_probe [8]))) = true
  /\ PreRun [] (fun _ _ _ _ => []) (ArgMinOp 0 (Operand (coord_probe [8]))) ∅
     = (ArgMinOp 0 (Operand (coord_probe [8])), ∅)
  /\ access (ArgMinOp 0 (Operand (coord_probe [8]))) ∅ [] = None.
Proof. repeat split. Qed.

(** The standard deviation node over a tensor of 8 elements, reduced to a
    scalar: one buffer of one cell after [PreRun], read by element access,
    and an empty heap again after [PostRun]. *)
Example stdd_scalar_lifecycle :
  exists (n' : XformOp (list index_t)) (h' : gmap positive (list (list index_t))),
    PreRun [] (fun _ _ _ flat => [flat]) (StddOp 0 (Operand (coord_probe [8])) 1) ∅
    = (n', h')
    /\ size h' = 1%nat
    /\ access n' h' [] = Some [0]
    /\ PostRun n' h' = Ok ∅.
Proof.
  eexists _, _. split; [reflexivity |].
  split; [vm_compute; reflexivity |].
  split; [vm_compute; reflexivity |].
  apply (PreRun_PostRun [] (fun _ _ _ flat => [flat])
           (StddOp 0 (Operand (coord_probe [8])) 1) ∅). reflexivity.
Qed.

End Transform.

(** ** Interpolation (Interp1Op, operators/interp.h) *)

Module Interp.

(** [InterpMethod]. *)
Inductive InterpMethod : Type :=
| LINEAR
| NEAREST
| NEXT
| PREV
| SPLINE.

(** The [domain_type] of the sample and query points with the operations
    the search and the nearest-neighbour rule use: [<], [==] and [-].  [<]
    is a strict order and no value is below one it is [==] to. *)
Class Domain : Type := MkDomain {
  D : Type;
  ltb : D -> D -> bool;
  eqb : D -> D -> bool;
  sub : D -> D -> D;
  ltb_trans : forall a b c : D, ltb a b = true -> ltb b c = true -> ltb a c = true;
  ltb_asym : forall a b : D, ltb a b = true -> ltb b a = false;
  eqb_not_ltb : forall a b : D, eqb a b = true -> ltb a b = false /\ ltb b a = false
}.

Lemma Z_ltb_trans (a b c : Z) : (a <? b) = true -> (b <? c) = true -> (a <? c) = true.
Proof. intros H1 H2. apply Z.ltb_lt in H1, H2. apply Z.ltb_lt. lia. Qed.

Lemma Z_ltb_asym (a b : Z) : (a <? b) = true -> (b <? a) = false.
Proof. intros H. apply Z.ltb_lt in H. apply Z.ltb_ge. lia. Qed.

Lemma Z_eqb_not_ltb (a b : Z) : (a =? b) = true -> (a <? b) = false /\ (b <? a) = false.
Proof.
  intros H. apply Z.eqb_eq in H. subst b. rewrite Z.ltb_irrefl. split; reflexivity.
Qed.

(** Integral sample points. *)
#[export] Instance Z_Domain : Domain :=
  MkDomain Z Z.ltb Z.eqb Z.sub Z_ltb_trans Z_ltb_asym Z_eqb_not_ltb.

(** The members of [Interp1Op<OpX, OpV, OpXQ>] that element access reads:
    sample points, sample values, query points and the method. *)
Record Interp1Op_t {Dom : Domain} (V : Type) : Type := MkInterp1Op {
  x_ : Op D;
  v_ : Op V;
  xq_ : Op D;
  method_ : InterpMethod
}.

Arguments MkInterp1Op {Dom V} _ _ _ _.
Arguments x_ {Dom V} _.
Arguments v_ {Dom V} _.
Arguments xq_ {Dom V} _.
Arguments method_ {Dom V} _.

Definition inspect {A : Type} (a : A) : {b : A | a = b} := exist _ a eq_refl.

(** The truncating quotient [(low + high) / 2] of C++ lies strictly between
    [low] and [high] when they are more than 1 apart. *)
Lemma quot2_between (low high : index_t) :
  1 < high - low -> low < Z.quot (low + high) 2 < high.
Proof.
  intros H. pose proof (Z.quot_rem' (low + high) 2) as Hqr.
  pose proof (Z.rem_bound_abs (low + high) 2 ltac:(lia)) as Hr.
  lia.
Qed.

Section Interp1.

Context {Dom : Domain} {V : Type}.

(** [get_value<EPT>(op, idx)], declared outside the files at hand, on the
    sample points and on the sample values: the element of the operand the
    index array selects. *)
Variable get_value_x : Op D -> list index_t -> D.
Variable get_value_v : Op V -> list index_t -> V.

(** [interpolate_linear] and [interpolate_spline] compute in floating
    point; the embedding takes their results as parameters. *)
Variable interpolate_linear :
  Interp1Op_t V -> D -> list index_t -> list index_t -> V.
Variable interpolate_spline :
  Interp1Op_t V -> D -> list index_t -> list index_t -> V.

Variable op : Interp1Op_t V.

(** [RANK], [AXIS] and [AXIS_X]. *)
Definition RANK : nat := Rank (xq_ op).
Definition AXIS : nat := (RANK - 1)%nat.
Definition AXIS_X : nat := (Rank (x_ op) - 1)%nat.

(** The [while] loop of [searchsorted] on the [AXIS] entries of [idx_low]
    and [idx_high]; [idx] is the index array the three arrays are copies
    of.  The result is the [AXIS] entries of the two arrays returned. *)
Equations? searchsorted_loop (idx : list index_t) (x_query : D) (low high : index_t)
    : index_t * index_t by wf (Z.to_nat (high - low)) lt :=
  searchsorted_loop idx x_query low high with inspect (high - low >? 1) := {
    | exist _ true Hgt =>
        let mid := Z.quot (low + high) 2 in
        let x_mid := get_value_x (x_ op) (<[AXIS := mid]> idx) in
        if eqb x_query x_mid then (mid, mid)
        else if ltb x_query x_mid then searchsorted_loop idx x_query low mid
        else searchsorted_loop idx x_query mid high
    | exist _ false _ => (low, high) }.
Proof.
  all: rewrite Z.gtb_ltb in Hgt; apply Z.ltb_lt in Hgt;
    pose proof (quot2_between low high Hgt); lia.
Qed.

(** [searchsorted(idx, x_query)]. *)
Definition searchsorted (idx : list index_t) (x_query : D)
    : list index_t * list index_t :=
  let idx_low := <[AXIS := 0]> idx in
  let idx_high := <[AXIS := Size (x_ op) AXIS_X - 1]> idx in
  let x_low := get_value_x (x_ op) idx_low in
  if ltb x_query x_low then
    (<[AXIS := Size (x_ op) AXIS_X]> idx_low, <[AXIS := 0]> idx_high)
  else if eqb x_query x_low then (idx_low, idx_low)
  else
    let x_high := get_value_x (x_ op) idx_high in
    if ltb x_high x_query then
      (<[AXIS := Size (x_ op) AXIS_X - 1]> idx_low,
       <[AXIS := Size (x_ op) AXIS_X]> idx_high)
    else if eqb x_query x_high then (idx_high, idx_high)
    else
      let '(low, high) :=
        searchsorted_loop idx x_query (idx_low !!! AXIS) (idx_high !!! AXIS) in
      (<[AXIS := low]> idx, <[AXIS := high]> idx).

(** [interpolate_nearest], [interpolate_next], [interpolate_prev]. *)
Definition interpolate_nearest (x_query : D) (idx_low idx_high : list index_t) : V :=
  if idx_low !!! AXIS =? Size (x_ op) AXIS_X then get_value_v (v_ op) idx_high
  else if idx_high !!! AXIS =? Size (x_ op) AXIS_X then get_value_v (v_ op) idx_low
  else
    let x_low := get_value_x (x_ op) idx_low in
    let x_high := get_value_x (x_ op) idx_high in
    if ltb (sub x_query x_low) (sub x_high x_query)
    then get_value_v (v_ op) idx_low
    else get_value_v (v_ op) idx_high.

Definition interpolate_next (x_query : D) (idx_low idx_high : list index_t) : V :=
  if idx_high !!! AXIS =? Size (x_ op) AXIS_X then get_value_v (v_ op) idx_low
  else get_value_v (v_ op) idx_high.

Definition interpolate_prev (x_query : D) (idx_low idx_high : list index_t) : V :=
  if idx_low !!! AXIS =? Size (x_ op) AXIS_X then get_value_v (v_ op) idx_high
  else get_value_v (v_ op) idx_low.

(** [interpolate]: the dispatch on [method_]. *)
Definition interpolate (x_query : D) (idx_low idx_high : list index_t) : V :=
  match method_ op with
  | LINEAR => interpolate_linear op x_query idx_low idx_high
  | NEAREST => interpolate_nearest x_query idx_low idx_high
  | NEXT => interpolate_next x_query idx_low idx_high
  | PREV => interpolate_prev x_query idx_low idx_high
  | SPLINE => interpolate_spline op x_query idx_low idx_high
  end.

(** [operator()(indices...)] for [EPT == ElementsPerThread::ONE]. *)
Definition Interp1Op_call (indices : list index_t) : V :=
  let idx := indices in
  let x_query := call (xq_ op) indices in
  let '(idx_low, idx_high) := searchsorted idx x_query in
  interpolate x_query idx_low idx_high.

(** The node: [Rank()] and [Size(dim)] are those of the query points. *)
Definition as_op : Op V :=
  MkOp (Rank (xq_ op)) (fun dim => Size (xq_ op) dim) Interp1Op_call.

(** *** A query point between two adjacent samples *)

(** The sample point at position [i] along the axis, for the batch the
    index array [idx] selects. *)
Definition x_at (idx : list index_t) (i : index_t) : D :=
  get_value_x (x_ op) (<[AXIS := i]> idx).

(** The sample points are strictly ascending along the axis. *)
Definition ascending (idx : list index_t) : Prop :=
  forall i j : index_t, 0 <= i < j -> j < Size (x_ op) AXIS_X ->
    ltb (x_at idx i) (x_at idx j) = true.

Section Between.

Variables (idx : list index_t) (q : D) (k : index_t).

Hypothesis Hasc : ascending idx.
Hypothesis Hk : 0 <= k /\ k + 1 < Size (x_ op) AXIS_X.
Hypothesis Hlow : ltb (x_at idx k) q = true.
Hypothesis Hhigh : ltb q (x_at idx (k + 1)) = true.

Lemma sample_below (i : index_t) : 0 <= i <= k -> ltb (x_at idx i) q = true.
Proof.
  intros Hi. destruct (Z.eq_dec i k) as [-> | Hne]; [exact Hlow |].
  apply (ltb_trans _ (x_at idx k)); [| exact Hlow].
  apply Hasc; lia.
Qed.

Lemma sample_above (i : index_t) :
  k + 1 <= i < Size (x_ op) AXIS_X -> ltb q (x_at idx i) = true.
Proof.
  intros Hi. destruct (Z.eq_dec i (k + 1)) as [-> | Hne]; [exact Hhigh |].
  apply (ltb_trans _ (x_at idx (k + 1))); [exact Hhigh |].
  apply Hasc; lia.
Qed.

Lemma not_eqb_below (i : index_t) : 0 <= i <= k -> eqb q (x_at idx i) = false.
Proof.
  intros Hi. destruct (eqb q (x_at idx i)) eqn:He; [| reflexivity].
  destruct (eqb_not_ltb _ _ He) as [_ Hn].
  rewrite (sample_below i Hi) in Hn. discriminate Hn.
Qed.

Lemma not_eqb_above (i : index_t) :
  k + 1 <= i < Size (x_ op) AXIS_X -> eqb q (x_at idx i) = false.
Proof.
  intros Hi. destruct (eqb q (x_at idx i)) eqn:He; [| reflexivity].
  destruct (eqb_not_ltb _ _ He) as [Hn _].
  rewrite (sample_above i Hi) in Hn. discriminate Hn.
Qed.

(** The loop narrows any bracket around [k] to [(k, k + 1)]. *)
Lemma searchsorted_loop_brackets (low high : index_t) :
  0 <= low <= k -> k + 1 <= high < Size (x_ op) AXIS_X ->
  searchsorted_loop idx q low high = (k, k + 1).
Proof.
  apply (searchsorted_loop_elim
           (fun idx' q' low high res =>
              idx' = idx -> q' = q ->
              0 <= low <= k -> k + 1 <= high < Size (x_ op) AXIS_X ->
              res = (k, k + 1))); [| | reflexivity | reflexivity].
  - intros idx' q' lo hi Hgt IHl IHr _ -> -> Hlo Hhi. cbv zeta in *.
    rewrite Z.gtb_ltb in Hgt. apply Z.ltb_lt in Hgt.
    pose proof (quot2_between lo hi Hgt) as Hmid.
    fold (x_at idx (Z.quot (lo + hi) 2)).
    destruct (Z_le_gt_dec (Z.quot (lo + hi) 2) k) as [Hle | Hgtk].
    + rewrite not_eqb_below by lia.
      rewrite (ltb_asym _ _ (sample_below (Z.quot (lo + hi) 2) ltac:(lia))).
      apply IHr; [reflexivity | reflexivity | lia | lia].
    + rewrite not_eqb_above by lia.
      rewrite sample_above by lia.
      apply IHl; [reflexivity | reflexivity | lia | lia].
  - intros idx' q' lo hi Hle _ -> -> Hlo Hhi.
    rewrite Z.gtb_ltb in Hle. apply Z.ltb_ge in Hle.
    f_equal; lia.
Qed.

(** [searchsorted] returns the bracket [(k, k + 1)]. *)
Lemma searchsorted_brackets :
  (AXIS < length idx)%nat ->
  searchsorted idx q = (<[AXIS := k]> idx, <[AXIS := k + 1]> idx).
Proof.
  intros Hax. unfold searchsorted. cbv zeta.
  rewrite !list_insert_insert_eq.
  fold (x_at idx 0) (x_at idx (Size (x_ op) AXIS_X - 1)).
  rewrite (ltb_asym _ _ (sample_below 0 ltac:(lia))).
  rewrite not_eqb_below by lia.
  rewrite (ltb_asym _ _ (sample_above (Size (x_ op) AXIS_X - 1) ltac:(lia))).
  rewrite not_eqb_above by lia.
  rewrite !list_lookup_total_insert_eq by exact Hax.
  rewrite searchsorted_loop_brackets by lia.
  reflexivity.
Qed.

End Between.

End Interp1.

(** A rank-1 tensor over a list of elements. *)
Definition tensor1 {T : Type} (l : list T) (d : T) : Op T :=
  MkOp 1 (fun _ => Z.of_nat (length l)) (fun idx => nth (Z.to_nat (idx !!! 0%nat)) l d).

(** Against C2 as stated: the query point 1, halfway between the samples 0
    and 2, takes the value 20 of the sample at 2, the higher-indexed one, not
    the value 10 of the lower-indexed one. *)
Lemma nearest_tie_takes_higher_sample :
  call (as_op (fun t idx => call t idx) (fun t idx => call t idx)
          (fun _ _ _ _ => 0) (fun _ _ _ _ => 0)
          (MkInterp1Op (Dom := Z_Domain) (tensor1 [0; 2] 0) (tensor1 [10; 20] 0) (tensor1 [1] 0) NEAREST))
       [0]
  = 20
  /\ @sub Z_Domain 1 0 = @sub Z_Domain 2 1
  /\ call (tensor1 [10; 20] 0) [0] = 10
  /\ 20 <> call (tensor1 [10; 20] 0) [0].
Proof.
  split; [vm_compute; reflexivity |].
  split; [reflexivity |]. split; [reflexivity |].
  vm_compute. intros [=].
Qed.

(** C2 (amended).  With sample points strictly ascending along the axis, a
    query point strictly between the adjacent samples [k] and [k + 1] and
    equally far from both takes, under [InterpMethod::NEAREST], the value of
    sample [k + 1], the higher-indexed of the two. *)
Theorem nearest_tie_higher_index {Dom : Domain} {V : Type}
    (get_value_x : Op D -> list index_t -> D)
    (get_value_v : Op V -> list index_t -> V)
    (interpolate_linear interpolate_spline :
       Interp1Op_t V -> D -> list index_t -> list index_t -> V)
    (op : Interp1Op_t V) (indices : list index_t) (k : index_t) :
  method_ op = NEAREST ->
  (1 <= Rank (xq_ op))%nat ->
  length indices = Rank (xq_ op) ->
  ascending get_value_x op indices ->
  0 <= k /\ k + 1 < Size (x_ op) (AXIS_X op) ->
  ltb (x_at get_value_x op indices k) (call (xq_ op) indices) = true ->
  ltb (call (xq_ op) indices) (x_at get_value_x op indices (k + 1)) = true ->
  sub (call (xq_ op) indices) (x_at get_value_x op indices k)
  = sub (x_at get_value_x op indices (k + 1)) (call (xq_ op) indices) ->
  call (as_op get_value_x get_value_v interpolate_linear interpolate_spline op) indices
  = get_value_v (v_ op) (<[AXIS op := k + 1]> indices).
Proof.
  intros Hm Hrank Hlen Hasc Hk Hlow Hhigh Htie.
  assert (Hax : (AXIS op < length indices)%nat) by (unfold AXIS, RANK; lia).
  cbn [call as_op]. unfold Interp1Op_call. cbv zeta.
  rewrite (searchsorted_brackets get_value_x op indices (call (xq_ op) indices) k
             Hasc Hk Hlow Hhigh Hax).
  unfold interpolate. rewrite Hm. unfold interpolate_nearest. cbv zeta.
  rewrite !list_lookup_total_insert_eq by exact Hax.
  rewrite (proj2 (Z.eqb_neq _ _)) by lia.
  rewrite (proj2 (Z.eqb_neq _ _)) by lia.
  fold (x_at get_value_x op indices k) (x_at get_value_x op indices (k + 1)).
  rewrite Htie.
  destruct (ltb (sub _ _) (sub _ _)) eqn:Hlt; [| reflexivity].
  rewrite (ltb_asym _ _ Hlt) in Hlt. discriminate Hlt.
Qed.

Lemma nearest_tie_higher_index_witness :
  call (as_op (fun t idx => call t idx) (fun t idx => call t idx)
          (fun _ _ _ _ => 0) (fun _ _ _ _ => 0)
          (MkInterp1Op (Dom := Z_Domain) (tensor1 [0; 2; 6] 0) (tensor1 [10; 20; 30] 0) (tensor1 [4] 0)
             NEAREST))
       [0]
  = 30.
Proof.
  apply (nearest_tie_higher_index (Dom := Z_Domain)
           (fun t idx => call t idx) (fun t idx => call t idx)
           (fun _ _ _ _ => 0) (fun _ _ _ _ => 0)
           (MkInterp1Op (Dom := Z_Domain) (tensor1 [0; 2; 6] 0) (tensor1 [10; 20; 30] 0) (tensor1 [4] 0)
              NEAREST)
           [0] 1).
  - reflexivity.
  - cbn. lia.
  - reflexivity.
  - intros i j Hij Hj. cbn in Hj.
    assert (Hc : (i = 0 /\ j = 1) \/ (i = 0 /\ j = 2) \/ (i = 1 /\ j = 2)) by lia.
    destruct Hc as [[-> ->] | [[-> ->] | [-> ->]]]; reflexivity.
  - cbn. lia.
  - reflexivity.
  - reflexivity.
  - reflexivity.
Defined.

End Interp.

(** ** Host executor (HostExecutor, executors/host.h) *)

Module Host.

Inductive ThreadsMode : Type :=
| SINGLE
| SELECT
| ALL.

(** [HostExecParams]: the thread count ([cpu_set_] is never read). *)
Record HostExecParams : Type := MkHostExecParams {
  threads_ : Z
}.

Definition GetNumThreads (p : HostExecParams) : Z := threads_ p.

(** [HostExecutor<MODE>]: its parameters. *)
Record HostExecutor (MODE : ThreadsMode) : Type := MkHostExecutor {
  params_ : HostExecParams
}.

Arguments MkHostExecutor {MODE} _.
Arguments params_ {MODE} _.

Section Executor.

(** Whether the library is compiled with [MATX_EN_OMP], and the value of
    [omp_get_num_procs()]. *)
Variable MATX_EN_OMP : bool.
Variable omp_get_num_procs : Z.

(** [HostExecutor()] and [HostExecutor(params)]. *)
Definition HostExecutor_default (MODE : ThreadsMode) : HostExecutor MODE :=
  let n_threads := 1 in
  let n_threads :=
    match MODE with
    | SINGLE => 1
    | ALL => if MATX_EN_OMP then omp_get_num_procs else n_threads
    | SELECT => n_threads
    end in
  MkHostExecutor (MkHostExecParams n_threads).

Definition HostExecutor_of_params (MODE : ThreadsMode) (params : HostExecParams)
    : HostExecutor MODE :=
  MkHostExecutor params.

(** The memory the operator writes to when it is called. *)
Context {S : Type}.

(** The coordinate tuple of iteration [i]: [GetIdxFromAbs(op, i)]. *)
Definition idx_of (op : Op (S -> S)) (i : nat) : list index_t :=
  GetIdxFromAbs op (Z.of_nat i).

(** The calls [op(args...)] of a sequence of coordinate tuples, one after
    the other. *)
Definition apply_calls (op : Op (S -> S)) (trace : list (list index_t)) (st : S) : S :=
  fold_left (fun st idx => call op idx st) trace st.

(** [Exec(op)]: the sequences of coordinate tuples at which one call of
    [Exec] may invoke the operator.  A rank-0 operator is invoked once with
    no argument.  The sequential loop visits the flat indices
    [0 .. size-1] in order.  Under [#pragma omp parallel for] every
    iteration is executed once by some thread; the iterations write
    different elements, and their effects take place in some order, any
    permutation of [0 .. size-1]. *)
Inductive Exec_trace (ex : HostExecParams) (op : Op (S -> S))
    : list (list index_t) -> Prop :=
| Exec_rank0 :
    Rank op = 0%nat ->
    Exec_trace ex op [[]]
| Exec_omp (order : list nat) :
    Rank op <> 0%nat ->
    MATX_EN_OMP = true ->
    GetNumThreads ex > 1 ->
    Permutation order (seq 0 (Z.to_nat (TotalSize op))) ->
    Exec_trace ex op (map (idx_of op) order)
| Exec_loop :
    Rank op <> 0%nat ->
    MATX_EN_OMP = false \/ GetNumThreads ex <= 1 ->
    Exec_trace ex op (map (idx_of op) (seq 0 (Z.to_nat (TotalSize op)))).

(** [Exec(op)] from memory [st] may end in memory [st']. *)
Definition Exec (ex : HostExecParams) (op : Op (S -> S)) (st st' : S) : Prop :=
  exists trace : list (list index_t),
    Exec_trace ex op trace /\ st' = apply_calls op trace st.

End Executor.

(** An element-wise assignment into an output tensor: the node of shape
    [shape] whose call at a coordinate tuple stores there the value [f] of
    the expression at that tuple.  The memory is the content of the output
    tensor, by coordinate tuple. *)
Definition elementwise {V : Type} (shape : list index_t) (f : list index_t -> V)
    : Op (gmap (list index_t) V -> gmap (list index_t) V) :=
  MkOp (length shape) (fun d => shape !!! d) (fun idx st => <[idx := f idx]> st).

(** [BlackScholes<O, I1>] of examples/black_scholes.cu, a custom
    element-wise operator: [out_(idx)] gets a value computed from the
    inputs at [idx]; [price] is its floating-point formula. *)
Definition BlackScholes {V : Type} (out_shape : list index_t)
    (price : V -> V -> V -> V -> V -> V) (K_ V_ S_ r_ T_ : Op V)
    : Op (gmap (list index_t) V -> gmap (list index_t) V) :=
  MkOp (length out_shape) (fun i => out_shape !!! i)
       (fun idx st =>
          <[idx := price (call V_ idx) (call K_ idx) (call S_ idx)
                         (call T_ idx) (call r_ idx)]> st).

Lemma BlackScholes_elementwise {V : Type} (out_shape : list index_t)
    (price : V -> V -> V -> V -> V -> V) (K_ V_ S_ r_ T_ : Op V) :
  BlackScholes out_shape price K_ V_ S_ r_ T_
  = elementwise out_shape
      (fun idx => price (call V_ idx) (call K_ idx) (call S_ idx)
                        (call T_ idx) (call r_ idx)).
Proof. reflexivity. Qed.

Lemma elementwise_Shape {V : Type} (shape : list index_t) (f : list index_t -> V) :
  Shape (elementwise shape f) = shape.
Proof.
  unfold Shape. cbn [Rank Size elementwise].
  apply list_eq. intros d. rewrite list_lookup_fmap.
  destruct (decide (d < length shape)%nat) as [Hlt | Hge].
  - rewrite lookup_seq_lt by exact Hlt. cbn.
    symmetry. apply list_lookup_lookup_total_lt. exact Hlt.
  - rewrite lookup_seq_ge by lia. rewrite lookup_ge_None_2 by lia. reflexivity.
Qed.

(** The calls of an element-wise assignment commute, so a permutation of
    the calls ends in the same memory. *)
Lemma apply_calls_permutation {V : Type} (shape : list index_t) (f : list index_t -> V)
    (t1 t2 : list (list index_t)) (st : gmap (list index_t) V) :
  Permutation t1 t2 ->
  apply_calls (elementwise shape f) t1 st = apply_calls (elementwise shape f) t2 st.
Proof.
  intros Hp. revert st. unfold apply_calls.
  induction Hp as [| x l l' _ IH | x y l | l l' l'' _ IH1 _ IH2]; intros st.
  - reflexivity.
  - cbn [fold_left]. apply IH.
  - cbn [fold_left call elementwise]. f_equal.
    destruct (decide (x = y)) as [-> | Hne]; [reflexivity |].
    apply insert_insert_ne. congruence.
  - rewrite IH1. apply IH2.
Qed.

(** The memory after the calls: the visited tuples hold the value of the
    expression, the others are as before. *)
Lemma apply_calls_lookup {V : Type} (shape : list index_t) (f : list index_t -> V)
    (trace : list (list index_t)) (st : gmap (list index_t) V) (c : list index_t) :
  apply_calls (elementwise shape f) trace st !! c
  = if decide (c ∈ trace) then Some (f c) else st !! c.
Proof.
  revert st. unfold apply_calls.
  induction trace as [| x trace IH]; intros st.
  - cbn. rewrite decide_False by apply not_elem_of_nil. reflexivity.
  - cbn [fold_left]. rewrite IH. cbn [call elementwise].
    destruct (decide (c ∈ trace)) as [Hin | Hout].
    + rewrite decide_True by (apply elem_of_cons; right; exact Hin). reflexivity.
    + destruct (decide (c = x)) as [-> | Hne].
      * rewrite decide_True by (apply elem_of_cons; left; reflexivity).
        apply lookup_insert_eq.
      * rewrite decide_False.
        -- apply lookup_insert_ne. congruence.
        -- intros Hin. apply elem_of_cons in Hin. destruct Hin; [congruence | contradiction].
Qed.

(** Every trace of [Exec] holds each in-range coordinate tuple of the
    operator once, and nothing else. *)
Lemma Exec_trace_each_once {S : Type} (omp : bool) (ex : HostExecParams)
    (op : Op (S -> S)) (trace : list (list index_t)) :
  Forall (fun s => 0 <= s) (Shape op) ->
  Exec_trace omp ex op trace ->
  NoDup trace /\ forall c : list index_t, c ∈ trace <-> valid_coords (Shape op) c.
Proof.
  intros Hnn Htr.
  assert (Hperm : forall order : list nat,
            Permutation order (seq 0 (Z.to_nat (TotalSize op))) ->
            NoDup (map (idx_of op) order)
            /\ forall c : list index_t,
                 c ∈ map (idx_of op) order <-> valid_coords (Shape op) c).
  { intros order Hp.
    assert (Hin : forall i : nat, i ∈ order <-> (i < Z.to_nat (TotalSize op))%nat).
    { intros i. rewrite Hp, elem_of_seq. lia. }
    split.
    - apply NoDup_fmap_2_strong.
      + intros i j Hi Hj Heq. apply Hin in Hi, Hj.
        apply Nat2Z.inj.
        apply (GetIdxFromAbs_shape_inj (Shape op)); [exact Hnn | | | exact Heq];
          unfold TotalSize in *; lia.
      + rewrite Hp. apply NoDup_seq.
    - intros c. rewrite list_elem_of_fmap. split.
      + intros (i & -> & Hi). apply Hin in Hi.
        apply (flat_coords_flat (Shape op)); [exact Hnn |].
        unfold TotalSize in *. lia.
      + intros Hv. destruct (coords_flat_coords (Shape op) c Hv) as [Hb Hrt].
        exists (Z.to_nat (GetAbsFromIdx_shape (Shape op) c)). split.
        * unfold idx_of, GetIdxFromAbs. rewrite Z2Nat.id by lia. symmetry. exact Hrt.
        * apply Hin. unfold TotalSize. lia. }
  destruct Htr as [Hr0 | order Hr _ _ Hp | Hr _].
  - assert (Hsh : Shape op = []) by (unfold Shape; rewrite Hr0; reflexivity).
    rewrite Hsh. split; [apply NoDup_singleton |].
    intros c. rewrite list_elem_of_singleton. split.
    + intros ->. constructor.
    + intros Hv. inversion Hv. reflexivity.
  - apply Hperm. exact Hp.
  - apply Hperm. reflexivity.
Qed.

(** Two traces of [Exec] on one operator are permutations of each other,
    whatever the parameters of the executor. *)
Lemma Exec_trace_permutation {S : Type} (omp : bool) (ex1 ex2 : HostExecParams)
    (op : Op (S -> S)) (t1 t2 : list (list index_t)) :
  Exec_trace omp ex1 op t1 -> Exec_trace omp ex2 op t2 -> Permutation t1 t2.
Proof.
  intros H1 H2.
  destruct H1 as [Hr1 | o1 Hr1 _ _ Hp1 | Hr1 _];
    destruct H2 as [Hr2 | o2 Hr2 _ _ Hp2 | Hr2 _];
    try contradiction; try reflexivity.
  - apply Permutation_map. rewrite Hp1, Hp2. reflexivity.
  - apply Permutation_map. exact Hp1.
  - apply Permutation_map. symmetry. exact Hp2.
Qed.

(** [Exec] always has a result. *)
Lemma Exec_total {S : Type} (omp : bool) (ex : HostExecParams) (op : Op (S -> S)) (st : S) :
  exists st' : S, Exec omp ex op st st'.
Proof.
  destruct (decide (Rank op = 0%nat)) as [Hr | Hr].
  - eexists. eexists. split; [apply Exec_rank0; exact Hr | reflexivity].
  - destruct omp eqn:Homp.
    + destruct (Z_le_gt_dec (GetNumThreads ex) 1) as [Hle | Hgt].
      * eexists. eexists. split; [apply Exec_loop; [exact Hr | right; exact Hle] | reflexivity].
      * eexists. eexists. split;
          [apply (Exec_omp true ex op (seq 0 (Z.to_nat (TotalSize op))));
             [exact Hr | reflexivity | lia | reflexivity]
          | reflexivity].
    + eexists. eexists. split; [apply Exec_loop; [exact Hr | left; reflexivity] | reflexivity].
Qed.

(** C6.  For an element-wise assignment over an output of non-negative
    extents, [Exec] with thread count 1 and [Exec] with thread count above 1
    both have a result, and from the same memory all their results are the
    same memory: every in-range output coordinate holds the value of the
    expression there and every other cell is untouched.  Each call of [Exec]
    invokes the operator once at every in-range coordinate tuple and nowhere
    else; for rank 0 that is one call with no argument. *)
Theorem host_exec_thread_count_independent {V : Type} (omp : bool)
    (shape : list index_t) (f : list index_t -> V)
    (ex1 exN : HostExecParams) (st : gmap (list index_t) V) :
  Forall (fun s => 0 <= s) shape ->
  GetNumThreads ex1 = 1 ->
  GetNumThreads exN > 1 ->
  (exists st1, Exec omp ex1 (elementwise shape f) st st1)
  /\ (exists stN, Exec omp exN (elementwise shape f) st stN)
  /\ (forall st1 stN : gmap (list index_t) V,
        Exec omp ex1 (elementwise shape f) st st1 ->
        Exec omp exN (elementwise shape f) st stN ->
        st1 = stN
        /\ forall c : list index_t,
             stN !! c = if decide (valid_coords shape c) then Some (f c) else st !! c)
  /\ (forall (ex : HostExecParams) (trace : list (list index_t)),
        Exec_trace omp ex (elementwise shape f) trace ->
        NoDup trace
        /\ (forall c : list index_t, c ∈ trace <-> valid_coords shape c)
        /\ (shape = [] -> trace = [[]])).
Proof.
  intros Hnn H1 HN.
  assert (Hsh := elementwise_Shape shape f).
  split; [apply Exec_total |]. split; [apply Exec_total |]. split.
  - intros st1 stN (t1 & Ht1 & ->) (tN & HtN & ->).
    split.
    + apply apply_calls_permutation.
      apply (Exec_trace_permutation omp ex1 exN _ _ _ Ht1 HtN).
    + intros c. rewrite apply_calls_lookup.
      destruct (Exec_trace_each_once omp exN _ tN ltac:(rewrite Hsh; exact Hnn) HtN)
        as [_ Hcov].
      rewrite Hsh in Hcov.
      destruct (decide (c ∈ tN)) as [Hin | Hout].
      * rewrite decide_True by (apply Hcov; exact Hin). reflexivity.
      * rewrite decide_False; [reflexivity |]. intros Hv. apply Hout, Hcov. exact Hv.
  - intros ex trace Htr.
    destruct (Exec_trace_each_once omp ex _ trace ltac:(rewrite Hsh; exact Hnn) Htr)
      as [Hnd Hcov].
    rewrite Hsh in Hcov.
    split; [exact Hnd |]. split; [exact Hcov |].
    intros ->.
    destruct Htr as [_ | order Hr _ _ _ | Hr _]; [reflexivity | |];
      exfalso; apply Hr; reflexivity.
Qed.

Lemma host_exec_thread_count_independent_witness :
  exists st1 stN : gmap (list index_t) Z,
    Exec true (MkHostExecParams 1) (elementwise [2; 2] (fun c => c !!! 0%nat + c !!! 1%nat))
      ∅ st1
    /\ Exec true (MkHostExecParams 4)
         (elementwise [2; 2] (fun c => c !!! 0%nat + c !!! 1%nat)) ∅ stN
    /\ st1 = stN
    /\ stN !! [1; 1] = Some 2.
Proof.
  assert (Hnn : Forall (fun s => 0 <= s) [2; 2]) by (repeat constructor; lia).
  assert (H1 : GetNumThreads (MkHostExecParams 1) = 1) by reflexivity.
  assert (HN : GetNumThreads (MkHostExecParams 4) > 1) by (cbn; lia).
  destruct (host_exec_thread_count_independent true [2; 2]
              (fun c => c !!! 0%nat + c !!! 1%nat)
              (MkHostExecParams 1) (MkHostExecParams 4) ∅ Hnn H1 HN)
    as ((st1 & Hs1) & (stN & HsN) & Hsame & _).
  exists st1, stN.
  destruct (Hsame st1 stN Hs1 HsN) as [Heq Hval].
  split; [exact Hs1 |]. split; [exact HsN |]. split; [exact Heq |].
  rewrite (Hval [1; 1]).
  rewrite decide_True by (repeat constructor; lia). reflexivity.
Defined.

End Host.

(** ** Further properties of the slice node *)

Module SliceFacts.

Import Slice.

Section Cells.

Context {M : Markers} {C : DoubleCeil} {V : Type}.

(** The value the inner loop of [get_impl] leaves in cell [i] of [ind],
    from the value [old] the cell had: the last [j] with [dims[j] == i]
    decides. *)
Definition cell_after (rank : nat) (starts : list index_t)
    (strides : option (list index_t)) (dims : list nat) (indices : list index_t)
    (i : nat) (old : index_t) : index_t :=
  for_loop rank (fun j v =>
    if (dims !!! j =? i)%nat then
      match strides with
      | Some str => starts !!! j + indices !!! j * str !!! i
      | None => starts !!! j + indices !!! j
      end
    else v) old.

Lemma inner_loop_one_cell (rank : nat) (starts : list index_t)
    (strides : option (list index_t)) (dims : list nat) (indices : list index_t)
    (i : nat) (a : list index_t) :
  for_loop rank (fun j ind =>
    if (dims !!! j =? i)%nat then
      match strides with
      | Some str => <[i := starts !!! j + indices !!! j * str !!! i]> ind
      | None => <[i := starts !!! j + indices !!! j]> ind
      end
    else ind) a
  = <[i := cell_after rank starts strides dims indices i (a !!! i)]> a.
Proof.
  unfold cell_after. induction rank as [| n IH].
  - rewrite !for_loop_0.
    destruct (decide (i < length a)%nat) as [Hlt | Hge].
    + symmetry. apply list_insert_id. apply list_lookup_lookup_total_lt. exact Hlt.
    + rewrite list_insert_ge by lia. reflexivity.
  - rewrite !for_loop_S, IH.
    destruct (dims !!! n =? i)%nat; [| reflexivity].
    destruct strides as [str |]; apply list_insert_insert_eq.
Qed.

(** [get_impl] reads the inner node at the array whose cell [i] is
    [cell_after] of [starts[i]]. *)
Lemma get_impl_cells (rank : nat) (op : Op V) (starts : list index_t)
    (strides : option (list index_t)) (dims : list nat) (indices : list index_t) :
  length starts = Rank op ->
  get_impl rank op starts strides dims indices
  = call op (imap (cell_after rank starts strides dims indices) starts).
Proof.
  intros Hlen. unfold get_impl. cbv zeta. f_equal.
  rewrite <- Hlen at 1.
  rewrite <- (for_loop_update_imap (cell_after rank starts strides dims indices) starts).
  apply for_loop_ext. intros i a _. apply inner_loop_one_cell.
Qed.

Lemma cell_after_no_match (rank : nat) (starts : list index_t)
    (strides : option (list index_t)) (dims : list nat) (indices : list index_t)
    (i : nat) (old : index_t) :
  (forall j : nat, (j < rank)%nat -> dims !!! j <> i) ->
  cell_after rank starts strides dims indices i old = old.
Proof.
  intros Hno. unfold cell_after. induction rank as [| n IH]; [reflexivity |].
  rewrite for_loop_S, IH by (intros j Hj; apply Hno; lia).
  rewrite (proj2 (Nat.eqb_neq _ _)) by (apply Hno; lia). reflexivity.
Qed.

Lemma cell_after_identity (rank : nat) (starts : list index_t)
    (strides : option (list index_t)) (dims : list nat) (indices : list index_t)
    (i : nat) (old : index_t) :
  (forall j : nat, (j < rank)%nat -> dims !!! j = j) ->
  cell_after rank starts strides dims indices i old
  = if decide (i < rank)%nat
    then starts !!! i + indices !!! i * stride_of strides i
    else old.
Proof.
  intros Hid. unfold cell_after. induction rank as [| n IH].
  - rewrite for_loop_0. destruct (decide (i < 0)%nat); [lia | reflexivity].
  - rewrite for_loop_S, IH by (intros j Hj; apply Hid; lia).
    rewrite (Hid n) by lia.
    destruct (Nat.eqb_spec n i) as [-> | Hne].
    + rewrite decide_True by lia.
      destruct strides as [str |]; cbn [stride_of]; [reflexivity | lia].
    + destruct (decide (i < n)%nat), (decide (i < S n)%nat); try lia; reflexivity.
Qed.

(** The members of a constructed slice, from the loop of the constructor. *)
Lemma SliceOp_members (DIM : nat) (op : Op V) (starts ends : list index_t)
    (strides : option (list index_t)) (s : SliceOp_t V) :
  SliceOp DIM op starts ends strides = Ok s ->
  op_ s = op
  /\ length (kept_dims op ends (Rank op)) = DIM
  /\ length (starts_ s) = Rank op
  /\ (forall i : nat, (i < Rank op)%nat -> starts_ s !!! i = start_of op starts i)
  /\ (forall j : nat, (j < DIM)%nat ->
        dims_ s !! j = kept_dims op ends (Rank op) !! j)
  /\ (forall i : nat, (i < Rank op)%nat ->
        stride_of (strides_ s) i = stride_of strides i).
Proof.
  intros Hctor. unfold SliceOp in Hctor. cbv zeta in Hctor.
  destruct (for_loop_M (Rank op) (ctor_body op starts ends strides) _)
    as [[d s0] | e] eqn:Hloop; [| discriminate].
  rewrite bind_Ok in Hctor.
  destruct (Nat.eqb_spec d DIM) as [Hd | Hd]; [| discriminate].
  cbn in Hctor. injection Hctor as <-.
  destruct (ctor_loop_state op starts ends strides DIM (Rank op) d s0
              (Nat.le_refl _) Hloop)
    as (Hop & Hdk & Hls & Hst & _ & Hdims & _ & Hstr).
  split; [exact Hop |]. split; [congruence |]. split; [exact Hls |].
  split; [exact Hst |]. split.
  - intros j Hj. apply Hdims; lia.
  - intros i Hi. destruct strides as [str |].
    + destruct Hstr as (str_ & -> & _ & Hval). cbn. apply Hval. exact Hi.
    + rewrite Hstr. reflexivity.
Qed.

End Cells.

(** X1.  A slice whose kept dimensions are the leading ones (every dropped
    dimension comes after every kept one; in particular a slice that drops
    none) reads the inner node at [start + i * stride] in each kept
    dimension and at the start in each dropped one, starts resolved and the
    stride 1 when none is given. *)
Theorem slice_leading_dims_round_trip {M : Markers} {C : DoubleCeil} {V : Type}
    (DIM : nat) (op : Op V) (starts ends : list index_t)
    (strides : option (list index_t)) (s : SliceOp_t V) (idx : list index_t) :
  SliceOp DIM op starts ends strides = Ok s ->
  kept_dims op ends (Rank op) = seq 0 DIM ->
  exists ind : list index_t,
    call (as_op DIM s) idx = call op ind
    /\ length ind = Rank op
    /\ forall i : nat, (i < Rank op)%nat ->
         ind !!! i = if decide (i < DIM)%nat
                     then start_of op starts i + idx !!! i * stride_of strides i
                     else start_of op starts i.
Proof.
  intros Hctor Hkept.
  destruct (SliceOp_members DIM op starts ends strides s Hctor)
    as (Hop & _ & Hls & Hst & Hdims & Hstr).
  assert (Hid : forall j : nat, (j < DIM)%nat -> dims_ s !!! j = j).
  { intros j Hj. apply list_lookup_total_correct.
    rewrite Hdims, Hkept by exact Hj. apply lookup_seq_lt. exact Hj. }
  exists (imap (cell_after DIM (starts_ s) (strides_ s) (dims_ s) idx) (starts_ s)).
  split; [| split].
  - cbn [call as_op]. rewrite Hop. apply get_impl_cells. exact Hls.
  - rewrite length_imap. exact Hls.
  - intros i Hi.
    destruct (lookup_lt_is_Some_2 (starts_ s) i ltac:(lia)) as [x Hx].
    erewrite list_lookup_total_correct
      by (rewrite list_lookup_imap, Hx; reflexivity).
    rewrite (cell_after_identity DIM _ _ _ _ i x Hid).
    destruct (decide (i < DIM)%nat) as [Hlt | Hge].
    + rewrite (Hst i Hi), (Hstr i Hi). reflexivity.
    + rewrite <- (Hst i Hi). symmetry. apply list_lookup_total_correct. exact Hx.
Qed.

Lemma slice_leading_dims_round_trip_witness :
  exists (s : SliceOp_t (list index_t)) (ind : list index_t),
    SliceOp (M := markers64) (C := ceil_quotient) 1 (coord_probe [5; 9])
      [-4; 2] [4; matxDropDim (Markers := markers64)] (Some [2; 1]) = Ok s
    /\ call (as_op 1 s) [1] = ind
    /\ ind !!! 0%nat = 3
    /\ ind !!! 1%nat = 2.
Proof.
  assert (Hs : exists s : SliceOp_t (list index_t),
             SliceOp (M := markers64) (C := ceil_quotient) 1 (coord_probe [5; 9])
               [-4; 2] [4; matxDropDim (Markers := markers64)] (Some [2; 1]) = Ok s).
  { eexists. vm_compute. reflexivity. }
  destruct Hs as [s Hs].
  destruct (slice_leading_dims_round_trip (M := markers64) (C := ceil_quotient)
              1 (coord_probe [5; 9]) [-4; 2] [4; matxDropDim (Markers := markers64)]
              (Some [2; 1]) s [1] Hs ltac:(vm_compute; reflexivity))
    as (ind & Hcall & _ & Hcells).
  exists s, ind. split; [exact Hs |]. split; [exact Hcall |].
  split.
  - rewrite (Hcells 0%nat) by (cbn; lia). vm_compute. reflexivity.
  - rewrite (Hcells 1%nat) by (cbn; lia). vm_compute. reflexivity.
Defined.

(** X2.  Whatever dimensions a slice keeps, it reads the inner node at the
    resolved start in every dimension it drops. *)
Theorem slice_dropped_dim_at_start {M : Markers} {C : DoubleCeil} {V : Type}
    (DIM : nat) (op : Op V) (starts ends : list index_t)
    (strides : option (list index_t)) (s : SliceOp_t V) (idx : list index_t) :
  SliceOp DIM op starts ends strides = Ok s ->
  exists ind : list index_t,
    call (as_op DIM s) idx = call op ind
    /\ length ind = Rank op
    /\ forall i : nat, (i < Rank op)%nat ->
         end_of op ends i = matxDropDim ->
         ind !!! i = start_of op starts i.
Proof.
  intros Hctor.
  destruct (SliceOp_members DIM op starts ends strides s Hctor)
    as (Hop & Hk & Hls & Hst & Hdims & _).
  exists (imap (cell_after DIM (starts_ s) (strides_ s) (dims_ s) idx) (starts_ s)).
  split; [| split].
  - cbn [call as_op]. rewrite Hop. apply get_impl_cells. exact Hls.
  - rewrite length_imap. exact Hls.
  - intros i Hi Hdrop.
    destruct (lookup_lt_is_Some_2 (starts_ s) i ltac:(lia)) as [x Hx].
    erewrite list_lookup_total_correct
      by (rewrite list_lookup_imap, Hx; reflexivity).
    rewrite cell_after_no_match.
    + rewrite <- (Hst i Hi). symmetry. apply list_lookup_total_correct. exact Hx.
    + intros j Hj Heq.
      destruct (lookup_lt_is_Some_2 (kept_dims op ends (Rank op)) j ltac:(lia))
        as [i' Hi'].
      assert (Hdj : dims_ s !! j = Some i') by (rewrite Hdims by exact Hj; exact Hi').
      rewrite (list_lookup_total_correct _ _ _ Hdj) in Heq. subst i'.
      assert (Hin : i ∈ kept_dims op ends (Rank op))
        by (apply list_elem_of_lookup; exists j; exact Hi').
      unfold kept_dims in Hin. apply list_elem_of_filter in Hin.
      destruct Hin as [Hne _]. exact (Hne Hdrop).
Qed.

Lemma slice_dropped_dim_at_start_witness :
  exists (s : SliceOp_t (list index_t)) (ind : list index_t),
    SliceOp (M := markers64) (C := ceil_quotient) 1 (coord_probe [3; 4])
      [2; 1] [matxDropDim (Markers := markers64); 3] None = Ok s
    /\ call (as_op 1 s) [0] = ind
    /\ ind !!! 0%nat = 2.
Proof.
  assert (Hs : exists s : SliceOp_t (list index_t),
             SliceOp (M := markers64) (C := ceil_quotient) 1 (coord_probe [3; 4])
               [2; 1] [matxDropDim (Markers := markers64); 3] None = Ok s).
  { eexists. vm_compute. reflexivity. }
  destruct Hs as [s Hs].
  destruct (slice_dropped_dim_at_start (M := markers64) (C := ceil_quotient)
              1 (coord_probe [3; 4]) [2; 1] [matxDropDim (Markers := markers64); 3]
              None s [0] Hs)
    as (ind & Hcall & _ & Hcells).
  exists s, ind. split; [exact Hs |]. split; [exact Hcall |].
  rewrite (Hcells 0%nat) by (try (cbn; lia); vm_compute; reflexivity).
  vm_compute. reflexivity.
Defined.

(** The extent the constructor stores for a kept dimension [i] of a slice
    without strides. *)
Definition kept_extent {M : Markers} {V : Type} (op : Op V)
    (starts ends : list index_t) (i : nat) : index_t :=
  if end_of op ends i =? matxEnd
  then Size op i - start_of op starts i
  else end_of op ends i - start_of op starts i.

Lemma ctor_loop_sizes {M : Markers} {C : DoubleCeil} {V : Type}
    (op : Op V) (starts ends : list index_t) (DIM n d : nat) (s : SliceOp_t V) :
  (n <= Rank op)%nat ->
  for_loop_M n (ctor_body op starts ends None)
    (0%nat,
     MkSliceOp op (replicate DIM 0) (replicate DIM 0%nat) (replicate (Rank op) 0) None)
  = Ok (d, s) ->
  forall j : nat, (j < d)%nat -> (j < DIM)%nat ->
    sizes_ s !! j = kept_extent op starts ends <$> (kept_dims op ends n !! j).
Proof.
  revert d s. induction n as [| n IH]; intros d s Hn Hrun j Hjd HjD.
  - cbn in Hrun. injection Hrun as <- <-. lia.
  - pose proof (ctor_loop_state op starts ends None DIM (S n) d s Hn Hrun)
      as (_ & Hd & _).
    rewrite for_loop_M_S in Hrun.
    destruct (for_loop_M n (ctor_body op starts ends None) _) as [[d0 s0] | e] eqn:Hprev;
      [| discriminate].
    pose proof (ctor_loop_state op starts ends None DIM n d0 s0 ltac:(lia) Hprev)
      as (_ & Hd0 & _ & _ & _ & _ & Hlz & _).
    specialize (IH d0 s0 ltac:(lia) eq_refl).
    rewrite bind_Ok in Hrun.
    destruct (dim_error op starts ends n) as [e |] eqn:He.
    { rewrite (ctor_body_error _ _ _ _ _ _ _ He) in Hrun. discriminate. }
    destruct (ctor_body_ok op starts ends None n d0 s0 He)
      as (d' & s' & Hbody & _ & _ & _ & Hcase).
    rewrite Hbody in Hrun. injection Hrun as <- <-.
    assert (Hkept : kept_dims op ends (S n)
                    = kept_dims op ends n
                      ++ (if decide (end_of op ends n = matxDropDim) then [] else [n])).
    { unfold kept_dims. rewrite seq_S, filter_app. cbn [filter list_filter].
      f_equal. cbn. destruct (decide (end_of op ends n = matxDropDim)) as [Hdr | Hdr].
      - rewrite decide_False by (intros Hc; apply Hc; exact Hdr). reflexivity.
      - rewrite decide_True by exact Hdr. reflexivity. }
    rewrite Hkept.
    destruct (decide (end_of op ends n = matxDropDim)) as [Hdr | Hdr].
    + destruct Hcase as (-> & _ & Hsz). rewrite app_nil_r, Hsz. apply IH; assumption.
    + destruct Hcase as (-> & _ & _ & Hsz). rewrite (Hsz eq_refl).
      destruct (decide (j = d0)) as [-> | Hne].
      * rewrite list_lookup_insert_eq by lia.
        rewrite lookup_app_r by lia. rewrite Hd0, Nat.sub_diag. reflexivity.
      * rewrite list_lookup_insert_ne by congruence.
        rewrite lookup_app_l by lia. apply IH; lia.
Qed.

(** X3.  A constructed slice without strides has rank [DIM], keeps exactly
    [DIM] dimensions of the inner node, and its size in output dimension
    [j] is [end - start] of the [j]-th kept dimension (resolved), or
    [size - start] when the end is [matxEnd]. *)
Theorem slice_sizes {M : Markers} {C : DoubleCeil} {V : Type}
    (DIM : nat) (op : Op V) (starts ends : list index_t) (s : SliceOp_t V) :
  SliceOp DIM op starts ends None = Ok s ->
  Rank (as_op DIM s) = DIM
  /\ length (kept_dims op ends (Rank op)) = DIM
  /\ forall j : nat, (j < DIM)%nat ->
       exists i : nat,
         kept_dims op ends (Rank op) !! j = Some i
         /\ Size (as_op DIM s) j
            = if end_of op ends i =? matxEnd
              then Size op i - start_of op starts i
              else end_of op ends i - start_of op starts i.
Proof.
  intros Hctor.
  destruct (SliceOp_members DIM op starts ends None s Hctor) as (_ & Hk & _).
  split; [reflexivity |]. split; [exact Hk |].
  intros j Hj.
  unfold SliceOp in Hctor. cbv zeta in Hctor.
  destruct (for_loop_M (Rank op) (ctor_body op starts ends None) _)
    as [[d s0] | e] eqn:Hloop; [| discriminate].
  rewrite bind_Ok in Hctor.
  destruct (Nat.eqb_spec d DIM) as [Hd | Hd]; [| discriminate].
  cbn in Hctor. injection Hctor as <-.
  pose proof (ctor_loop_sizes op starts ends DIM (Rank op) d s0 (Nat.le_refl _) Hloop
                j ltac:(lia) Hj) as Hsz.
  destruct (lookup_lt_is_Some_2 (kept_dims op ends (Rank op)) j ltac:(lia)) as [i Hi].
  exists i. split; [exact Hi |].
  rewrite Hi in Hsz. cbn in Hsz.
  cbn [Size as_op]. apply list_lookup_total_correct. exact Hsz.
Qed.

Lemma slice_sizes_witness :
  exists s : SliceOp_t (list index_t),
    SliceOp (M := markers64) (C := ceil_quotient) 1 (coord_probe [5; 9])
      [2; -7] [matxDropDim (Markers := markers64); matxEnd (Markers := markers64)] None
    = Ok s
    /\ Size (as_op 1 s) 0 = 7.
Proof.
  assert (Hs : exists s : SliceOp_t (list index_t),
             SliceOp (M := markers64) (C := ceil_quotient) 1 (coord_probe [5; 9])
               [2; -7] [matxDropDim (Markers := markers64); matxEnd (Markers := markers64)]
               None = Ok s).
  { eexists. vm_compute. reflexivity. }
  destruct Hs as [s Hs]. exists s. split; [exact Hs |].
  destruct (slice_sizes (M := markers64) (C := ceil_quotient) 1 (coord_probe [5; 9])
              [2; -7] [matxDropDim (Markers := markers64); matxEnd (Markers := markers64)]
              s Hs) as (_ & _ & Hsz).
  destruct (Hsz 0%nat ltac:(lia)) as (i & Hi & ->).
  vm_compute in Hi. injection Hi as <-. vm_compute. reflexivity.
Defined.

Lemma good_dim_no_error {M : Markers} {V : Type} (op : Op V)
    (starts ends : list index_t) (i : nat) :
  0 <= start_of op starts i < Size op i ->
  0 <= end_of op ends i <= Size op i \/ matxIdxSentinel < end_of op ends i ->
  end_of op ends i <> matxKeepDim ->
  dim_error op starts ends i = None.
Proof.
  intros Hs Hend Hnk. unfold dim_error. cbv zeta.
  replace (start_of op starts i <? Size op i) with true
    by (symmetry; apply Z.ltb_lt; lia).
  rewrite orb_true_r. cbn [negb].
  replace ((end_of op ends i >? matxIdxSentinel) || (end_of op ends i <=? Size op i))
    with true.
  2: { symmetry. apply orb_true_iff. destruct Hend as [Hend | Hend].
       - right. apply Z.leb_le. lia.
       - left. apply gtb_true. exact Hend. }
  cbn [negb].
  rewrite (proj2 (Z.eqb_neq _ _) Hnk), andb_false_r. reflexivity.
Qed.

Lemma ctor_loop_all_ok {M : Markers} {C : DoubleCeil} {V : Type}
    (DIM : nat) (op : Op V) (starts ends : list index_t)
    (strides : option (list index_t)) :
  (forall i : nat, (i < Rank op)%nat -> dim_error op starts ends i = None) ->
  exists (d : nat) (s0 : SliceOp_t V),
    for_loop_M (Rank op) (ctor_body op starts ends strides)
      (0%nat,
       MkSliceOp op (replicate DIM 0) (replicate DIM 0%nat) (replicate (Rank op) 0)
         (match strides with
          | Some _ => Some (replicate (Rank op) 0)
          | None => None
          end)) = Ok (d, s0)
    /\ d = length (kept_dims op ends (Rank op)).
Proof.
  intros Hgood.
  pose proof (ctor_loop_outcome op starts ends strides (Rank op)
    (0%nat,
     MkSliceOp op (replicate DIM 0) (replicate DIM 0%nat) (replicate (Rank op) 0)
       (match strides with
        | Some _ => Some (replicate (Rank op) 0)
        | None => None
        end))) as Hout.
  destruct (for_loop_M (Rank op) (ctor_body op starts ends strides) _)
    as [[d s0] | e] eqn:Hloop.
  - exists d, s0. split; [reflexivity |].
    apply (ctor_loop_state op starts ends strides DIM (Rank op) d s0 (Nat.le_refl _) Hloop).
  - destruct Hout as (i & Hi & He & _). rewrite (Hgood i Hi) in He. discriminate He.
Qed.

(** X4.  When every dimension passes its checks and fewer dimensions are
    kept than the rank [DIM] asked for, the constructor throws
    [matxInvalidDim]. *)
Theorem slice_rank_mismatch {M : Markers} {C : DoubleCeil} {V : Type}
    (DIM : nat) (op : Op V) (starts ends : list index_t)
    (strides : option (list index_t)) :
  (forall i : nat, (i < Rank op)%nat ->
     0 <= start_of op starts i < Size op i
     /\ (0 <= end_of op ends i <= Size op i \/ matxIdxSentinel < end_of op ends i)
     /\ end_of op ends i <> matxKeepDim) ->
  (length (kept_dims op ends (Rank op)) < DIM)%nat ->
  SliceOp DIM op starts ends strides
  = Err (MkException matxInvalidDim
           "SliceOp: Number of dimensions without matxDropDim must equal new rank.").
Proof.
  intros Hgood Hk.
  destruct (ctor_loop_all_ok DIM op starts ends strides) as (d & s0 & Hloop & Hd).
  { intros i Hi. destruct (Hgood i Hi) as (Hs & He & Hnk).
    apply good_dim_no_error; assumption. }
  unfold SliceOp. cbv zeta. rewrite Hloop, bind_Ok.
  rewrite (proj2 (Nat.eqb_neq d DIM)) by lia. reflexivity.
Qed.

Lemma slice_rank_mismatch_witness :
  SliceOp (M := markers64) (C := ceil_quotient) 2 (coord_probe [3; 4]) [0; 1]
    [matxDropDim (Markers := markers64); 3] None
  = Err (MkException matxInvalidDim
           "SliceOp: Number of dimensions without matxDropDim must equal new rank.").
Proof.
  apply (slice_rank_mismatch (M := markers64) (C := ceil_quotient) 2
           (coord_probe [3; 4]) [0; 1] [matxDropDim (Markers := markers64); 3] None).
  - intros i Hi. cbn in Hi.
    assert (Hc : i = 0%nat \/ i = 1%nat) by lia.
    destruct Hc as [-> | ->].
    + split; [vm_compute; split; [intros [=] | reflexivity] |].
      split; [right; vm_compute; reflexivity | vm_compute; intros [=]].
    + split; [vm_compute; split; [intros [=] | reflexivity] |].
      split; [left; vm_compute; split; intros [=] | vm_compute; intros [=]].
  - vm_compute. lia.
Defined.



End SliceFacts.

(** ** Reverse along several dimensions, flipud, fliplr (operators/reverse.h) *)

Module ReverseMany.

Import Reverse.


(** [flipud(t)]: the dimension is [std::max(0, T1::Rank() - 2)]. *)
Definition flipud {V : Type} (t : Op V) : Op V :=
  let dim := (Rank t - 2)%nat in
  ReverseOp dim t.

(** [fliplr(t)]: the dimension is [T1::Rank() - 1] in both branches. *)
Definition fliplr {V : Type} (t : Op V) : Op V :=
  ReverseOp (Rank t - 1)%nat t.








(** X7.  On a node of rank 1 [flipud] and [fliplr] are the same reverse, and
    on a node of rank at least 2 they commute: flipping up-down then
    left-right reads the same element as left-right then up-down, the one
    mirrored in the last two dimensions. *)
Theorem flipud_fliplr {V : Type} (t : Op V) (idx : list index_t) :
  length idx = Rank t ->
  (Rank t = 1%nat -> flipud t = fliplr t)
  /\ ((2 <= Rank t)%nat ->
      call (flipud (fliplr t)) idx = call (fliplr (flipud t)) idx
      /\ call (flipud (fliplr t)) idx
         = call t (<[(Rank t - 1)%nat := Size t (Rank t - 1) - idx !!! (Rank t - 1)%nat - 1]>
                     (<[(Rank t - 2)%nat := Size t (Rank t - 2) - idx !!! (Rank t - 2)%nat - 1]>
                        idx))).
Proof.
  intros Hlen. split.
  - intros Hr. unfold flipud, fliplr. cbv zeta. rewrite Hr. reflexivity.
  - intros Hr.
    assert (Hnz : (Rank t =? 0)%nat = false) by (apply Nat.eqb_neq; lia).
    unfold flipud, fliplr. cbv zeta. cbn [Rank ReverseOp call Size]. unfold get_impl.
    cbn [Rank ReverseOp call Size]. rewrite !Hnz. cbv zeta.
    unfold get_impl. rewrite Hnz. cbv zeta.
    rewrite !list_lookup_total_insert_ne by lia.
    split; [f_equal; apply list_insert_insert_ne; lia | reflexivity].
Qed.

Lemma flipud_fliplr_witness :
  call (flipud (fliplr (coord_probe [3; 4]))) [0; 1]
  = call (fliplr (flipud (coord_probe [3; 4]))) [0; 1]
  /\ call (flipud (fliplr (coord_probe [3; 4]))) [0; 1] = [2; 2].
Proof.
  destruct (flipud_fliplr (coord_probe [3; 4]) [0; 1] eq_refl) as [_ H].
  destruct (H ltac:(cbn; lia)) as [H1 H2].
  split; [exact H1 |]. rewrite H2. reflexivity.
Defined.

End ReverseMany.

(** ** Remap (RemapOp, operators/remap.h) *)

Module Remap.

(** [RemapOp::get_impl] for [EPT == ElementsPerThread::ONE]; the index
    operator has an integral element type and rank 0 or 1. *)
Definition get_impl {V : Type} (DIM : nat) (op : Op V) (idx : Op index_t)
    (indices : list index_t) : V :=
  let ind := indices in
  let ind :=
    if (Rank idx =? 0)%nat
    then <[DIM := call idx []]> ind
    else <[DIM := call idx [ind !!! DIM]]> ind in
  call op ind.

(** [RemapOp<DIM, T, IdxType>]: [Rank()], [Size(dim)] and [operator()]. *)
Definition RemapOp {V : Type} (DIM : nat) (op_ : Op V) (idx_ : Op index_t) : Op V :=
  MkOp (Rank op_)
       (fun dim =>
          if (dim =? DIM)%nat
          then if (Rank idx_ =? 0)%nat then 1 else Size idx_ 0
          else Size op_ dim)
       (fun indices => get_impl DIM op_ idx_ indices).

(** [remap<DIM>(t, idx)] and [remap<DIM, DIMS...>(t, idx, inds...)]: the
    remap along [DIM] of the remap along the other dimensions. *)
Definition remap {V : Type} (maps : list (nat * Op index_t)) (t : Op V) : Op V :=
  fold_right (fun m op => RemapOp m.1 op m.2) t maps.

(** X8.  With an index operator of rank 1 whose values are positions of
    dimension [DIM] of the inner node, the remap has the size of the index
    operator along [DIM] and the inner sizes elsewhere, and every in-range
    coordinate tuple of the remap reads the inner node at an in-range
    coordinate tuple: the same tuple with the index operator applied to the
    coordinate of [DIM]. *)
Theorem remap_in_range {V : Type} (DIM : nat) (t : Op V) (idx : Op index_t)
    (c : list index_t) :
  (DIM < Rank t)%nat ->
  Rank idx = 1%nat ->
  (forall k : index_t, 0 <= k < Size idx 0 -> 0 <= call idx [k] < Size t DIM) ->
  valid_coords (Shape (RemapOp DIM t idx)) c ->
  Size (RemapOp DIM t idx) DIM = Size idx 0
  /\ (forall d : nat, d <> DIM -> Size (RemapOp DIM t idx) d = Size t d)
  /\ call (RemapOp DIM t idx) c = call t (<[DIM := call idx [c !!! DIM]]> c)
  /\ valid_coords (Shape t) (<[DIM := call idx [c !!! DIM]]> c).
Proof.
  intros HD Hr Hval Hv.
  assert (Hr0 : (Rank idx =? 0)%nat = false) by (rewrite Hr; reflexivity).
  assert (HsD : Size (RemapOp DIM t idx) DIM = Size idx 0).
  { cbn [Size RemapOp]. rewrite Nat.eqb_refl, Hr0. reflexivity. }
  assert (Hso : forall d : nat, d <> DIM -> Size (RemapOp DIM t idx) d = Size t d).
  { intros d Hd. cbn [Size RemapOp]. rewrite (proj2 (Nat.eqb_neq _ _) Hd). reflexivity. }
  split; [exact HsD |]. split; [exact Hso |]. split.
  - cbn [call RemapOp]. unfold get_impl. rewrite Hr0. reflexivity.
  - assert (HcD : 0 <= c !!! DIM < Size idx 0).
    { rewrite <- HsD. apply (valid_coords_lookup _ _ DIM _ Hv).
      apply (Shape_lookup (RemapOp DIM t idx) DIM). exact HD. }
    unfold valid_coords. apply Forall2_same_length_lookup_2.
    + rewrite length_insert, (valid_coords_length _ _ Hv), !Shape_length. reflexivity.
    + intros d s x Hs Hx.
      assert (Hd : (d < Rank t)%nat).
      { rewrite <- (Shape_length t). apply lookup_lt_is_Some. eauto. }
      rewrite (Shape_lookup t d Hd) in Hs. injection Hs as <-.
      destruct (decide (d = DIM)) as [-> | Hne].
      * rewrite list_lookup_insert_eq in Hx
          by (rewrite (valid_coords_length _ _ Hv), Shape_length; exact HD).
        injection Hx as <-. apply Hval. exact HcD.
      * rewrite list_lookup_insert_ne in Hx by congruence.
        rewrite <- (Hso d Hne).
        rewrite <- (list_lookup_total_correct _ _ _ Hx).
        apply (valid_coords_lookup _ _ d _ Hv).
        apply (Shape_lookup (RemapOp DIM t idx) d). exact Hd.
Qed.

Lemma remap_in_range_witness :
  call (RemapOp 1 (coord_probe [3; 4]) (MkOp 1 (fun _ => 2) (fun k => 2 * k !!! 0%nat + 1)))
       [2; 1]
  = [2; 3].
Proof.
  assert (H1 : (1 < Rank (coord_probe [3; 4]%Z))%nat) by (cbn; lia).
  assert (H3 : forall k : index_t,
            0 <= k < Size (MkOp 1 (fun _ => 2) (fun k => 2 * k !!! 0%nat + 1)) 0 ->
            0 <= call (MkOp 1 (fun _ => 2) (fun k => 2 * k !!! 0%nat + 1)) [k]
              < Size (coord_probe [3; 4]) 1).
  { intros k Hk. cbn in *. lia. }
  assert (H4 : valid_coords
                 (Shape (RemapOp 1 (coord_probe [3; 4])
                           (MkOp 1 (fun _ => 2) (fun k => 2 * k !!! 0%nat + 1))))
                 [2; 1]).
  { cbn. repeat constructor; lia. }
  destruct (remap_in_range 1 (coord_probe [3; 4])
              (MkOp 1 (fun _ => 2) (fun k => 2 * k !!! 0%nat + 1)) [2; 1]
              H1 eq_refl H3 H4) as (_ & _ & Hc & _).
  rewrite Hc. reflexivity.
Defined.

(** X9.  A remap along [DIM] by the index operator that counts down from
    the last position of that dimension is the reverse along [DIM]: the
    same rank, sizes and elements. *)
Theorem remap_countdown_is_reverse {V : Type} (DIM : nat) (t : Op V) (idx : Op index_t)
    (c : list index_t) :
  Rank t <> 0%nat ->
  Rank idx = 1%nat ->
  Size idx 0 = Size t DIM ->
  (forall k : index_t, call idx [k] = Size t DIM - k - 1) ->
  call (RemapOp DIM t idx) c = call (Reverse.ReverseOp DIM t) c
  /\ Rank (RemapOp DIM t idx) = Rank (Reverse.ReverseOp DIM t)
  /\ forall d : nat, Size (RemapOp DIM t idx) d = Size (Reverse.ReverseOp DIM t) d.
Proof.
  intros Hrt Hr Hsz Hidx.
  assert (Hr0 : (Rank idx =? 0)%nat = false) by (rewrite Hr; reflexivity).
  split; [| split; [reflexivity |]].
  - cbn [call RemapOp Reverse.ReverseOp]. unfold get_impl, Reverse.get_impl.
    rewrite Hr0, (proj2 (Nat.eqb_neq _ _) Hrt). cbv zeta. rewrite Hidx. reflexivity.
  - intros d. cbn [Size RemapOp Reverse.ReverseOp]. rewrite Hr0.
    destruct (Nat.eqb_spec d DIM) as [-> | Hne]; [exact Hsz | reflexivity].
Qed.

Lemma remap_countdown_is_reverse_witness :
  call (RemapOp 1 (coord_probe [3; 4]) (MkOp 1 (fun _ => 4) (fun k => 4 - k !!! 0%nat - 1)))
       [2; 1]
  = call (Reverse.ReverseOp 1 (coord_probe [3; 4])) [2; 1].
Proof.
  apply (remap_countdown_is_reverse 1 (coord_probe [3; 4])
           (MkOp 1 (fun _ => 4) (fun k => 4 - k !!! 0%nat - 1)) [2; 1]).
  - cbn. lia.
  - reflexivity.
  - reflexivity.
  - intros k. reflexivity.
Defined.

(** X10.  Two remaps along the same dimension compose into one: remapping
    by [i1] and then by [i2] is the remap by the index operator [i1]
    remapped by [i2], with the same sizes and the same element at every
    coordinate tuple that has a coordinate for [DIM]. *)
Theorem remap_compose {V : Type} (DIM : nat) (t : Op V) (i1 i2 : Op index_t)
    (c : list index_t) :
  Rank i1 = 1%nat ->
  (DIM < length c)%nat ->
  call (RemapOp DIM (RemapOp DIM t i1) i2) c = call (RemapOp DIM t (RemapOp 0 i1 i2)) c
  /\ forall d : nat,
       Size (RemapOp DIM (RemapOp DIM t i1) i2) d = Size (RemapOp DIM t (RemapOp 0 i1 i2)) d.
Proof.
  intros Hr1 Hc.
  assert (Hr10 : (Rank i1 =? 0)%nat = false) by (rewrite Hr1; reflexivity).
  split.
  - cbn [call RemapOp Rank]. unfold get_impl. cbn [call RemapOp Rank].
    unfold get_impl. rewrite Hr10. cbv zeta.
    destruct (Rank i2 =? 0)%nat;
      rewrite list_lookup_total_insert_eq by exact Hc;
      rewrite list_insert_insert_eq; reflexivity.
  - intros d. cbn [Size RemapOp Rank]. rewrite Hr10. cbn.
    destruct (d =? DIM)%nat; reflexivity.
Qed.

Lemma remap_compose_witness :
  call (RemapOp 0 (RemapOp 0 (coord_probe [9]) (MkOp 1 (fun _ => 4) (fun k => 2 * k !!! 0%nat)))
          (MkOp 1 (fun _ => 2) (fun k => k !!! 0%nat + 1))) [1]
  = call (RemapOp 0 (coord_probe [9])
            (RemapOp 0 (MkOp 1 (fun _ => 4) (fun k => 2 * k !!! 0%nat))
               (MkOp 1 (fun _ => 2) (fun k => k !!! 0%nat + 1)))) [1].
Proof.
  apply (remap_compose 0 (coord_probe [9])
           (MkOp 1 (fun _ => 4) (fun k => 2 * k !!! 0%nat))
           (MkOp 1 (fun _ => 2) (fun k => k !!! 0%nat + 1)) [1]).
  - reflexivity.
  - cbn. lia.
Defined.

(** X11.  Remaps along two different dimensions commute:
    [remap<D1, D2>(t, a, b)] and [remap<D2, D1>(t, b, a)] have the same
    sizes and the same element at every coordinate tuple. *)
Theorem remap_dims_commute {V : Type} (D1 D2 : nat) (t : Op V) (a b : Op index_t)
    (c : list index_t) :
  D1 <> D2 ->
  call (remap [(D1, a); (D2, b)] t) c = call (remap [(D2, b); (D1, a)] t) c
  /\ forall d : nat,
       Size (remap [(D1, a); (D2, b)] t) d = Size (remap [(D2, b); (D1, a)] t) d.
Proof.
  intros Hne. split.
  - cbn [remap fold_right fst snd call RemapOp]. unfold get_impl.
    cbn [call RemapOp]. unfold get_impl. cbv zeta.
    destruct (Rank a =? 0)%nat, (Rank b =? 0)%nat;
      rewrite ?list_lookup_total_insert_ne by congruence;
      f_equal; apply list_insert_insert_ne; congruence.
  - intros d. cbn [remap fold_right fst snd Size RemapOp].
    destruct (Nat.eqb_spec d D1) as [H1 | H1], (Nat.eqb_spec d D2) as [H2 | H2];
      try reflexivity. congruence.
Qed.

Lemma remap_dims_commute_witness :
  call (remap [(0%nat, MkOp 1 (fun _ => 2) (fun k => k !!! 0%nat + 1));
               (1%nat, MkOp 0 (fun _ => 0) (fun _ => 3))] (coord_probe [3; 4])) [1; 0]
  = call (remap [(1%nat, MkOp 0 (fun _ => 0) (fun _ => 3));
                 (0%nat, MkOp 1 (fun _ => 2) (fun k => k !!! 0%nat + 1))]
            (coord_probe [3; 4])) [1; 0].
Proof.
  apply (remap_dims_commute 0 1 (coord_probe [3; 4])
           (MkOp 1 (fun _ => 2) (fun k => k !!! 0%nat + 1))
           (MkOp 0 (fun _ => 0) (fun _ => 3)) [1; 0]).
  lia.
Defined.

End Remap.

(** ** Further properties of the repeat and flatten nodes *)

Module RepMatFacts.

Import RepMat.

(** X12.  Repeating with factor 1 in every dimension changes nothing: the
    sizes are the inner sizes and every in-range coordinate tuple reads the
    inner element at the same tuple. *)
Theorem repmat_once {V : Type} (t : Op V) (idx : list index_t) :
  valid_coords (Shape t) idx ->
  (forall d : nat, (d < Rank t)%nat -> Size (repmat t 1) d = Size t d)
  /\ call (repmat t 1) idx = call t idx.
Proof.
  intros Hv. split.
  - intros d Hd. rewrite repmat_Size by exact Hd. apply index_mul_1_r.
  - change (call (repmat t 1) idx) with (get_impl t idx).
    rewrite get_impl_imap by (rewrite (valid_coords_length _ _ Hv), Shape_length; reflexivity).
    f_equal. apply list_eq. intros d. rewrite list_lookup_imap.
    destruct (idx !! d) as [i |] eqn:Hi; [| reflexivity]. cbn. f_equal.
    assert (Hd : (d < Rank t)%nat).
    { rewrite <- (Shape_length t), <- (valid_coords_length _ _ Hv).
      apply lookup_lt_is_Some. eauto. }
    pose proof (valid_coords_lookup _ _ d _ Hv (Shape_lookup t d Hd)) as Hr.
    rewrite (list_lookup_total_correct _ _ _ Hi) in Hr.
    apply Z.rem_small. exact Hr.
Qed.

Lemma repmat_once_witness :
  call (repmat (coord_probe [2; 3]) 1) [1; 2] = [1; 2].
Proof.
  assert (Hv : valid_coords (Shape (coord_probe [2; 3])) [1; 2]).
  { cbn. repeat constructor; lia. }
  destruct (repmat_once (coord_probe [2; 3]) [1; 2] Hv) as [_ Hc].
  rewrite Hc. reflexivity.
Defined.

(** X13.  The repeat node is periodic: moving a non-negative coordinate by
    one inner size in its dimension reads the same element. *)
Theorem repmat_periodic {V : Type} (t : Op V) (reps idx : list index_t) (d : nat) :
  length idx = Rank t ->
  (d < Rank t)%nat ->
  0 <= idx !!! d ->
  0 < Size t d ->
  call (repmat_dims t reps) (<[d := idx !!! d + Size t d]> idx)
  = call (repmat_dims t reps) idx.
Proof.
  intros Hlen Hd Hnn Hpos.
  change (call (repmat_dims t reps) ?x) with (get_impl t x).
  rewrite !get_impl_imap by (rewrite ?length_insert; exact Hlen).
  f_equal. apply list_eq. intros k. rewrite !list_lookup_imap.
  destruct (decide (k = d)) as [-> | Hne].
  - rewrite list_lookup_insert_eq by lia.
    rewrite (list_lookup_lookup_total_lt idx d) by lia. cbn. f_equal.
    rewrite !Z.rem_mod_nonneg by lia.
    rewrite <- (Z.mul_1_l (Size t d)) at 1.
    apply Z.mod_add. lia.
  - rewrite list_lookup_insert_ne by congruence. reflexivity.
Qed.

Lemma repmat_periodic_witness :
  call (repmat_dims (coord_probe [2; 3]) [2; 2]) [1; 4]
  = call (repmat_dims (coord_probe [2; 3]) [2; 2]) [1; 1].
Proof.
  apply (repmat_periodic (coord_probe [2; 3]) [2; 2] [1; 1] 1).
  - reflexivity.
  - cbn. lia.
  - cbn. lia.
  - cbn. lia.
Defined.

End RepMatFacts.

Module FlattenFacts.

Import Flatten.

(** X14.  [flatten] is idempotent, it returns a node of rank 0 or 1 as it
    is, and the flattening of a node of rank above 1 with an extent 0 is
    empty: its size is 0. *)
Theorem flatten_idempotent_and_empty {V : Type} (t : Op V) :
  flatten (flatten t) = flatten t
  /\ ((Rank t <= 1)%nat -> flatten t = t)
  /\ ((1 < Rank t)%nat ->
      (exists d : nat, (d < Rank t)%nat /\ Size t d = 0) ->
      Size (flatten t) 0 = 0).
Proof.
  split; [| split].
  - unfold flatten. destruct (Nat.leb_spec (Rank t) 1) as [Hle | Hgt].
    + rewrite (proj2 (Nat.leb_le _ _) Hle). reflexivity.
    + reflexivity.
  - intros Hle. unfold flatten. rewrite (proj2 (Nat.leb_le _ _) Hle). reflexivity.
  - intros Hgt (d & Hd & Hz). unfold flatten.
    rewrite (proj2 (Nat.leb_gt _ _) Hgt). cbn [Size FlattenOp].
    unfold FlattenOp_Size. cbn [Nat.eqb]. cbv zeta.
    apply size_loop_zero. exists d. split; [exact Hd | exact Hz].
Qed.

Lemma flatten_idempotent_and_empty_witness :
  Size (flatten (coord_probe [3; 0; 4])) 0 = 0.
Proof.
  destruct (flatten_idempotent_and_empty (coord_probe [3; 0; 4])) as (_ & _ & H).
  apply H.
  - cbn. lia.
  - exists 1%nat. split; [cbn; lia | reflexivity].
Defined.

End FlattenFacts.

(** ** Further properties of the interpolation node *)

Module InterpFacts.

Import Interp.

Section Methods.

Context {Dom : Domain} {V : Type}.

Variable get_value_x : Op D -> list index_t -> D.
Variable get_value_v : Op V -> list index_t -> V.
Variable interpolate_linear :
  Interp1Op_t V -> D -> list index_t -> list index_t -> V.
Variable interpolate_spline :
  Interp1Op_t V -> D -> list index_t -> list index_t -> V.
Variable op : Interp1Op_t V.

Lemma ltb_irrefl (a : D) : ltb a a = false.
Proof.
  destruct (ltb a a) eqn:H; [| reflexivity].
  rewrite (ltb_asym _ _ H) in H. discriminate H.
Qed.

(** The loop finds a sample point equal to the query point that lies
    strictly inside the bracket. *)
Lemma searchsorted_loop_exact (idx : list index_t) (q : D) (m : index_t)
    (low high : index_t) :
  ascending get_value_x op idx ->
  q = x_at get_value_x op idx m ->
  eqb q q = true ->
  0 <= low < m -> m < high < Size (x_ op) (AXIS_X op) ->
  searchsorted_loop get_value_x op idx q low high = (m, m).
Proof.
  intros Hasc Hq Hrefl.
  apply (searchsorted_loop_elim get_value_x op
           (fun idx' q' low high res =>
              idx' = idx -> q' = q ->
              0 <= low < m -> m < high < Size (x_ op) (AXIS_X op) ->
              res = (m, m))); [| | reflexivity | reflexivity].
  - intros idx' q' lo hi Hgt IHl IHr _ -> -> Hlo Hhi. cbv zeta in *.
    rewrite Z.gtb_ltb in Hgt. apply Z.ltb_lt in Hgt.
    pose proof (quot2_between lo hi Hgt) as Hmid.
    fold (x_at get_value_x op idx (Z.quot (lo + hi) 2)).
    destruct (Z.lt_trichotomy (Z.quot (lo + hi) 2) m) as [Hlt | [Heq | Hgtm]].
    + assert (Hb : ltb (x_at get_value_x op idx (Z.quot (lo + hi) 2)) q = true)
        by (rewrite Hq; apply Hasc; lia).
      destruct (eqb q (x_at get_value_x op idx (Z.quot (lo + hi) 2))) eqn:He.
      { exfalso. destruct (eqb_not_ltb _ _ He) as [_ Hn]. exact (diff_true_false (eq_trans (eq_sym Hb) Hn)). }
      rewrite (ltb_asym _ _ Hb).
      apply IHr; [reflexivity | reflexivity | lia | lia].
    + rewrite Heq, <- Hq, Hrefl. reflexivity.
    + assert (Hb : ltb q (x_at get_value_x op idx (Z.quot (lo + hi) 2)) = true)
        by (rewrite Hq; apply Hasc; lia).
      destruct (eqb q (x_at get_value_x op idx (Z.quot (lo + hi) 2))) eqn:He.
      { exfalso. destruct (eqb_not_ltb _ _ He) as [Hn _]. exact (diff_true_false (eq_trans (eq_sym Hb) Hn)). }
      rewrite Hb.
      apply IHl; [reflexivity | reflexivity | lia | lia].
  - intros idx' q' lo hi Hle _ -> -> Hlo Hhi.
    rewrite Z.gtb_ltb in Hle. apply Z.ltb_ge in Hle. lia.
Qed.

(** On an exact match [searchsorted] returns the degenerate bracket. *)
Lemma searchsorted_exact (idx : list index_t) (m : index_t) :
  (AXIS op < length idx)%nat ->
  ascending get_value_x op idx ->
  eqb (x_at get_value_x op idx m) (x_at get_value_x op idx m) = true ->
  0 <= m < Size (x_ op) (AXIS_X op) ->
  searchsorted get_value_x op idx (x_at get_value_x op idx m)
  = (<[AXIS op := m]> idx, <[AXIS op := m]> idx).
Proof.
  intros Hax Hasc Hrefl Hm. unfold searchsorted. cbv zeta.
  rewrite !list_insert_insert_eq.
  fold (x_at get_value_x op idx 0)
       (x_at get_value_x op idx (Size (x_ op) (AXIS_X op) - 1)).
  set (q := x_at get_value_x op idx m) in *.
  destruct (Z.eq_dec m 0) as [-> | Hm0].
  { fold q. rewrite ltb_irrefl, Hrefl. reflexivity. }
  assert (H0 : ltb (x_at get_value_x op idx 0) q = true) by (apply Hasc; lia).
  rewrite (ltb_asym _ _ H0).
  destruct (eqb q (x_at get_value_x op idx 0)) eqn:He0.
  { exfalso. destruct (eqb_not_ltb _ _ He0) as [_ Hn]. exact (diff_true_false (eq_trans (eq_sym H0) Hn)). }
  destruct (Z.eq_dec m (Size (x_ op) (AXIS_X op) - 1)) as [Hlast | Hlast].
  { rewrite <- Hlast. fold q. rewrite ltb_irrefl, Hrefl. reflexivity. }
  assert (H1 : ltb q (x_at get_value_x op idx (Size (x_ op) (AXIS_X op) - 1)) = true)
    by (apply Hasc; lia).
  rewrite (ltb_asym _ _ H1).
  destruct (eqb q (x_at get_value_x op idx (Size (x_ op) (AXIS_X op) - 1))) eqn:He1.
  { exfalso. destruct (eqb_not_ltb _ _ He1) as [Hn _]. exact (diff_true_false (eq_trans (eq_sym H1) Hn)). }
  rewrite !list_lookup_total_insert_eq by exact Hax.
  rewrite (searchsorted_loop_exact idx q m 0 (Size (x_ op) (AXIS_X op) - 1)
             Hasc eq_refl Hrefl) by lia.
  reflexivity.
Qed.

(** X15.  For a query point strictly between the adjacent samples [k] and
    [k + 1] of strictly ascending sample points, [NEXT] gives the value of
    sample [k + 1], [PREV] the value of sample [k], and [NEAREST] the value
    of sample [k] when the query point is closer to it
    ([x_query - x_low < x_high - x_query]) and of sample [k + 1]
    otherwise. *)
Theorem between_samples (indices : list index_t) (k : index_t) :
  (1 <= Rank (xq_ op))%nat ->
  length indices = Rank (xq_ op) ->
  ascending get_value_x op indices ->
  0 <= k /\ k + 1 < Size (x_ op) (AXIS_X op) ->
  ltb (x_at get_value_x op indices k) (call (xq_ op) indices) = true ->
  ltb (call (xq_ op) indices) (x_at get_value_x op indices (k + 1)) = true ->
  call (as_op get_value_x get_value_v interpolate_linear interpolate_spline op) indices
  = match method_ op with
    | NEXT => get_value_v (v_ op) (<[AXIS op := k + 1]> indices)
    | PREV => get_value_v (v_ op) (<[AXIS op := k]> indices)
    | NEAREST =>
        if ltb (sub (call (xq_ op) indices) (x_at get_value_x op indices k))
               (sub (x_at get_value_x op indices (k + 1)) (call (xq_ op) indices))
        then get_value_v (v_ op) (<[AXIS op := k]> indices)
        else get_value_v (v_ op) (<[AXIS op := k + 1]> indices)
    | LINEAR =>
        interpolate_linear op (call (xq_ op) indices)
          (<[AXIS op := k]> indices) (<[AXIS op := k + 1]> indices)
    | SPLINE =>
        interpolate_spline op (call (xq_ op) indices)
          (<[AXIS op := k]> indices) (<[AXIS op := k + 1]> indices)
    end.
Proof.
  intros Hrank Hlen Hasc Hk Hlow Hhigh.
  assert (Hax : (AXIS op < length indices)%nat) by (unfold AXIS, RANK; lia).
  cbn [call as_op]. unfold Interp1Op_call. cbv zeta.
  rewrite (searchsorted_brackets get_value_x op indices (call (xq_ op) indices) k
             Hasc Hk Hlow Hhigh Hax).
  unfold interpolate.
  destruct (method_ op); try reflexivity.
  - unfold interpolate_nearest. cbv zeta.
    rewrite !list_lookup_total_insert_eq by exact Hax.
    rewrite (proj2 (Z.eqb_neq _ _)) by lia.
    rewrite (proj2 (Z.eqb_neq _ _)) by lia.
    reflexivity.
  - unfold interpolate_next.
    rewrite !list_lookup_total_insert_eq by exact Hax.
    rewrite (proj2 (Z.eqb_neq _ _)) by lia. reflexivity.
  - unfold interpolate_prev.
    rewrite !list_lookup_total_insert_eq by exact Hax.
    rewrite (proj2 (Z.eqb_neq _ _)) by lia. reflexivity.
Qed.

(** X16.  A query point equal to a sample point (ascending samples) gets
    the degenerate bracket of that sample from [searchsorted], and
    [NEAREST], [NEXT] and [PREV] all give the value of that sample. *)
Theorem exact_match (indices : list index_t) (m : index_t) :
  (1 <= Rank (xq_ op))%nat ->
  length indices = Rank (xq_ op) ->
  ascending get_value_x op indices ->
  0 <= m < Size (x_ op) (AXIS_X op) ->
  call (xq_ op) indices = x_at get_value_x op indices m ->
  eqb (x_at get_value_x op indices m) (x_at get_value_x op indices m) = true ->
  method_ op = NEAREST \/ method_ op = NEXT \/ method_ op = PREV ->
  searchsorted get_value_x op indices (call (xq_ op) indices)
  = (<[AXIS op := m]> indices, <[AXIS op := m]> indices)
  /\ call (as_op get_value_x get_value_v interpolate_linear interpolate_spline op) indices
     = get_value_v (v_ op) (<[AXIS op := m]> indices).
Proof.
  intros Hrank Hlen Hasc Hm Hq Hrefl Hmeth.
  assert (Hax : (AXIS op < length indices)%nat) by (unfold AXIS, RANK; lia).
  assert (Hs := searchsorted_exact indices m Hax Hasc Hrefl Hm).
  rewrite <- Hq in Hs. split; [exact Hs |].
  cbn [call as_op]. unfold Interp1Op_call. cbv zeta. rewrite Hs.
  unfold interpolate.
  destruct Hmeth as [-> | [-> | ->]].
  - unfold interpolate_nearest. cbv zeta.
    rewrite !list_lookup_total_insert_eq by exact Hax.
    rewrite (proj2 (Z.eqb_neq _ _)) by lia.
    destruct (ltb _ _); reflexivity.
  - unfold interpolate_next.
    rewrite !list_lookup_total_insert_eq by exact Hax.
    rewrite (proj2 (Z.eqb_neq _ _)) by lia. reflexivity.
  - unfold interpolate_prev.
    rewrite !list_lookup_total_insert_eq by exact Hax.
    rewrite (proj2 (Z.eqb_neq _ _)) by lia. reflexivity.
Qed.

(** X17.  Outside the sample points [NEAREST], [NEXT] and [PREV] clamp: a
    query point below the first sample gets the value of the first sample,
    and one above the last sample the value of the last sample. *)
Theorem clamp_outside (indices : list index_t) :
  (1 <= Rank (xq_ op))%nat ->
  length indices = Rank (xq_ op) ->
  method_ op = NEAREST \/ method_ op = NEXT \/ method_ op = PREV ->
  (ltb (call (xq_ op) indices) (x_at get_value_x op indices 0) = true ->
   call (as_op get_value_x get_value_v interpolate_linear interpolate_spline op) indices
   = get_value_v (v_ op) (<[AXIS op := 0]> indices))
  /\ (ltb (call (xq_ op) indices) (x_at get_value_x op indices 0) = false ->
      eqb (call (xq_ op) indices) (x_at get_value_x op indices 0) = false ->
      ltb (x_at get_value_x op indices (Size (x_ op) (AXIS_X op) - 1))
          (call (xq_ op) indices) = true ->
      call (as_op get_value_x get_value_v interpolate_linear interpolate_spline op) indices
      = get_value_v (v_ op) (<[AXIS op := Size (x_ op) (AXIS_X op) - 1]> indices)).
Proof.
  intros Hrank Hlen Hmeth.
  assert (Hax : (AXIS op < length indices)%nat) by (unfold AXIS, RANK; lia).
  split.
  - intros Hbelow.
    cbn [call as_op]. unfold Interp1Op_call, searchsorted. cbv zeta.
    rewrite !list_insert_insert_eq.
    fold (x_at get_value_x op indices 0). rewrite Hbelow.
    unfold interpolate.
    destruct Hmeth as [-> | [-> | ->]].
    + unfold interpolate_nearest. cbv zeta.
      rewrite !list_lookup_total_insert_eq by exact Hax.
      rewrite Z.eqb_refl. reflexivity.
    + unfold interpolate_next.
      rewrite !list_lookup_total_insert_eq by exact Hax.
      destruct (Z.eqb_spec 0 (Size (x_ op) (AXIS_X op))) as [<- | _]; reflexivity.
    + unfold interpolate_prev.
      rewrite !list_lookup_total_insert_eq by exact Hax.
      rewrite Z.eqb_refl. reflexivity.
  - intros Hnb Hne Habove.
    cbn [call as_op]. unfold Interp1Op_call, searchsorted. cbv zeta.
    rewrite !list_insert_insert_eq.
    fold (x_at get_value_x op indices 0)
         (x_at get_value_x op indices (Size (x_ op) (AXIS_X op) - 1)).
    rewrite Hnb, Hne, Habove.
    unfold interpolate.
    destruct Hmeth as [-> | [-> | ->]].
    + unfold interpolate_nearest. cbv zeta.
      rewrite !list_lookup_total_insert_eq by exact Hax.
      rewrite (proj2 (Z.eqb_neq _ _)) by lia.
      rewrite Z.eqb_refl. reflexivity.
    + unfold interpolate_next.
      rewrite !list_lookup_total_insert_eq by exact Hax.
      rewrite Z.eqb_refl. reflexivity.
    + unfold interpolate_prev.
      rewrite !list_lookup_total_insert_eq by exact Hax.
      rewrite (proj2 (Z.eqb_neq _ _)) by lia. reflexivity.
Qed.

End Methods.

Lemma ascending_0_2_6 (xq : list Z) (m : InterpMethod) :
  ascending (fun t idx => call t idx)
    (MkInterp1Op (Dom := Z_Domain) (tensor1 [0; 2; 6] 0) (tensor1 [10; 20; 30] 0)
       (tensor1 xq 0) m) [0].
Proof.
  intros i j Hij Hj. cbn in Hj.
  assert (Hc : (i = 0 /\ j = 1) \/ (i = 0 /\ j = 2) \/ (i = 1 /\ j = 2)) by lia.
  destruct Hc as [[-> ->] | [[-> ->] | [-> ->]]]; reflexivity.
Qed.

Lemma between_samples_witness :
  call (as_op (fun t idx => call t idx) (fun t idx => call t idx)
          (fun _ _ _ _ => 0) (fun _ _ _ _ => 0)
          (MkInterp1Op (Dom := Z_Domain) (tensor1 [0; 2; 6] 0) (tensor1 [10; 20; 30] 0)
             (tensor1 [3] 0) PREV))
       [0]
  = 20.
Proof.
  apply (between_samples (Dom := Z_Domain)
           (fun t idx => call t idx) (fun t idx => call t idx)
           (fun _ _ _ _ => 0) (fun _ _ _ _ => 0)
           (MkInterp1Op (Dom := Z_Domain) (tensor1 [0; 2; 6] 0) (tensor1 [10; 20; 30] 0)
              (tensor1 [3] 0) PREV)
           [0] 1).
  - cbn. lia.
  - reflexivity.
  - apply ascending_0_2_6.
  - cbn. lia.
  - reflexivity.
  - reflexivity.
Defined.

Lemma exact_match_witness :
  call (as_op (fun t idx => call t idx) (fun t idx => call t idx)
          (fun _ _ _ _ => 0) (fun _ _ _ _ => 0)
          (MkInterp1Op (Dom := Z_Domain) (tensor1 [0; 2; 6] 0) (tensor1 [10; 20; 30] 0)
             (tensor1 [2] 0) NEXT))
       [0]
  = 20.
Proof.
  apply (exact_match (Dom := Z_Domain)
           (fun t idx => call t idx) (fun t idx => call t idx)
           (fun _ _ _ _ => 0) (fun _ _ _ _ => 0)
           (MkInterp1Op (Dom := Z_Domain) (tensor1 [0; 2; 6] 0) (tensor1 [10; 20; 30] 0)
              (tensor1 [2] 0) NEXT)
           [0] 1).
  - cbn. lia.
  - reflexivity.
  - apply ascending_0_2_6.
  - cbn. lia.
  - reflexivity.
  - reflexivity.
  - right. left. reflexivity.
Defined.

Lemma clamp_outside_witness :
  call (as_op (fun t idx => call t idx) (fun t idx => call t idx)
          (fun _ _ _ _ => 0) (fun _ _ _ _ => 0)
          (MkInterp1Op (Dom := Z_Domain) (tensor1 [0; 2; 6] 0) (tensor1 [10; 20; 30] 0)
             (tensor1 [9] 0) NEAREST))
       [0]
  = 30.
Proof.
  destruct (clamp_outside (Dom := Z_Domain)
              (fun t idx => call t idx) (fun t idx => call t idx)
              (fun _ _ _ _ => 0) (fun _ _ _ _ => 0)
              (MkInterp1Op (Dom := Z_Domain) (tensor1 [0; 2; 6] 0) (tensor1 [10; 20; 30] 0)
                 (tensor1 [9] 0) NEAREST)
              [0]) as [_ Habove].
  - cbn. lia.
  - reflexivity.
  - left. reflexivity.
  - apply Habove; reflexivity.
Defined.

End InterpFacts.

(** ** The constructor of the interpolation node *)

Module InterpCtor.

Import Interp.

(** [MATX_THROW(error, str)]: the exception thrown. *)
Definition MATX_THROW {A : Type} (error : matxError) (str : string)
    : result matxException A :=
  Err (MkException error str).

(** [Interp1Op(x, v, xq, method)]: the size checks of the constructor.
    [interp1] asserts statically that the rank of [x] is at least 1 and at
    most the rank of [v], which is at most the rank of [xq], so the
    dimension numbers below are not negative. *)
Definition Interp1Op {Dom : Domain} {V : Type} (x : Op D) (v : Op V) (xq : Op D)
    (method : InterpMethod) : result matxException (Interp1Op_t V) :=
  _ ← (if negb (Size x (Rank x - 1) =? Size v (Rank v - 1))
       then MATX_THROW matxInvalidSize
              "interp1: sample points and values must have the same size in the last dimension"
       else Ok tt);
  _ ← for_loop_M (Rank x - 1) (fun i _ =>
         let ri := (i + 2)%nat in
         if negb (Size xq (Rank xq - ri) =? Size x (Rank x - ri))
         then MATX_THROW matxInvalidSize
                "interp1: query and sample points must have compatible dimensions"
         else Ok tt) tt;
  _ ← for_loop_M (Rank v - 1) (fun i _ =>
         let ri := (i + 2)%nat in
         if negb (Size xq (Rank xq - ri) =? Size v (Rank v - ri))
         then MATX_THROW matxInvalidSize
                "interp1: query points and sample values must have compatible dimensions"
         else Ok tt) tt;
  Ok (MkInterp1Op x v xq method).

(** A loop of checks completes when every check passes and otherwise
    throws the exception of the checks. *)
Lemma check_loop (n : nat) (chk : nat -> bool) (e : matxException) :
  for_loop_M n (fun i (_ : unit) => if negb (chk i) then Err e else Ok tt) tt
  = if forallb chk (seq 0 n) then Ok tt else Err e.
Proof.
  induction n as [| n IH]; [reflexivity |].
  rewrite for_loop_M_S, IH, seq_S, forallb_app. cbn [forallb].
  destruct (forallb chk (seq 0 n)); [| reflexivity].
  rewrite bind_Ok, andb_true_r. cbn [andb Nat.add]. destruct (chk n); reflexivity.
Qed.

(** X18.  The constructor of the interpolation node succeeds exactly when
    the sample points and values have the same size in their last
    dimension and, counted from the last dimension, every other dimension
    of the sample points and of the sample values has the size of the
    matching dimension of the query points; every failure is
    [matxInvalidSize]. *)
Theorem Interp1Op_size_checks {Dom : Domain} {V : Type} (x : Op D) (v : Op V) (xq : Op D)
    (method : InterpMethod) :
  ((Size x (Rank x - 1) = Size v (Rank v - 1)
    /\ (forall ri : nat, (2 <= ri <= Rank x)%nat ->
          Size xq (Rank xq - ri) = Size x (Rank x - ri))
    /\ (forall ri : nat, (2 <= ri <= Rank v)%nat ->
          Size xq (Rank xq - ri) = Size v (Rank v - ri)))
   <-> Interp1Op x v xq method = Ok (MkInterp1Op x v xq method))
  /\ forall e : matxException,
       Interp1Op x v xq method = Err e -> e_code e = matxInvalidSize.
Proof.
  unfold Interp1Op, MATX_THROW.
  rewrite (check_loop (Rank x - 1)
             (fun i => Size xq (Rank xq - (i + 2)) =? Size x (Rank x - (i + 2)))).
  rewrite (check_loop (Rank v - 1)
             (fun i => Size xq (Rank xq - (i + 2)) =? Size v (Rank v - (i + 2)))).
  destruct (Z.eqb_spec (Size x (Rank x - 1)) (Size v (Rank v - 1))) as [Hlast | Hlast];
    cbn [negb].
  2: { split; [| intros e [= <-]; reflexivity].
       split; [intros (H & _); contradiction | intros [=]]. }
  rewrite bind_Ok.
  destruct (forallb _ (seq 0 (Rank x - 1))) eqn:Hx.
  2: { rewrite bind_Err. split; [| intros e [= <-]; reflexivity].
       split; [| intros [=]]. intros (_ & Hxs & _). exfalso.
       apply not_true_iff_false in Hx. apply Hx. apply forallb_forall.
       intros i Hi. apply in_seq in Hi. apply Z.eqb_eq. apply Hxs. lia. }
  rewrite bind_Ok.
  destruct (forallb _ (seq 0 (Rank v - 1))) eqn:Hv.
  2: { rewrite bind_Err. split; [| intros e [= <-]; reflexivity].
       split; [| intros [=]]. intros (_ & _ & Hvs). exfalso.
       apply not_true_iff_false in Hv. apply Hv. apply forallb_forall.
       intros i Hi. apply in_seq in Hi. apply Z.eqb_eq. apply Hvs. lia. }
  rewrite bind_Ok. split; [| intros e [=]].
  split; [reflexivity |]. intros _.
  rewrite forallb_forall in Hx, Hv.
  split; [exact Hlast |]. split.
  - intros ri Hri. specialize (Hx (ri - 2)%nat).
    rewrite in_seq in Hx. specialize (Hx ltac:(lia)). apply Z.eqb_eq in Hx.
    replace (ri - 2 + 2)%nat with ri in Hx by lia. exact Hx.
  - intros ri Hri. specialize (Hv (ri - 2)%nat).
    rewrite in_seq in Hv. specialize (Hv ltac:(lia)). apply Z.eqb_eq in Hv.
    replace (ri - 2 + 2)%nat with ri in Hv by lia. exact Hv.
Qed.

End InterpCtor.

(** ** Further properties of the host executor *)

Module HostFacts.

Import Host.

Lemma apply_calls_map {S : Type} (op : Op (S -> S)) (order : list nat) (st : S) :
  apply_calls op (map (idx_of op) order) st
  = fold_left (fun st i => call op (GetIdxFromAbs op (Z.of_nat i)) st) order st.
Proof.
  unfold apply_calls. revert st.
  induction order as [| i order IH]; intros st; [reflexivity |].
  cbn [map fold_left]. apply IH.
Qed.

(** X19.  Without [MATX_EN_OMP], or with a thread count of at most 1,
    [Exec] is the sequential loop for every operator: its only result is
    the call with no argument for rank 0, and otherwise the calls at the
    flat indices [0 .. size-1] in that order.  An executor built by default
    in mode [SINGLE] or [SELECT], or in any mode without [MATX_EN_OMP], has
    thread count 1. *)
Theorem host_exec_sequential {S : Type} (omp : bool) (procs : Z) (ex : HostExecParams)
    (op : Op (S -> S)) (st st' : S) :
  omp = false \/ GetNumThreads ex <= 1 ->
  (Exec omp ex op st st' <->
   st' = if (Rank op =? 0)%nat
         then call op [] st
         else for_loop (Z.to_nat (TotalSize op))
                (fun i st => call op (GetIdxFromAbs op (Z.of_nat i)) st) st)
  /\ (forall MODE : ThreadsMode, MODE <> ALL \/ omp = false ->
        GetNumThreads (params_ (HostExecutor_default omp procs MODE)) = 1).
Proof.
  intros Hseq. split.
  - split.
    + intros (trace & Htr & ->).
      destruct Htr as [Hr | order Hr Homp Hth _ | Hr _].
      * rewrite Hr. reflexivity.
      * exfalso. destruct Hseq as [Hs | Hs]; [congruence | lia].
      * rewrite (proj2 (Nat.eqb_neq _ _) Hr). apply apply_calls_map.
    + intros ->. destruct (Nat.eqb_spec (Rank op) 0) as [Hr | Hr].
      * exists [[]]. split; [apply Exec_rank0; exact Hr | reflexivity].
      * exists (map (idx_of op) (seq 0 (Z.to_nat (TotalSize op)))).
        split; [apply Exec_loop; [exact Hr | exact Hseq] |].
        symmetry. apply apply_calls_map.
  - intros MODE [Hm | ->]; destruct MODE; try reflexivity. contradiction.
Qed.

Lemma host_exec_sequential_witness :
  Exec false (MkHostExecParams 8) (elementwise [2] (fun c => c !!! 0%nat)) ∅
    (<[[1] := 1]> (<[[0] := 0]> ∅)).
Proof.
  apply (host_exec_sequential false 8 (MkHostExecParams 8)
           (elementwise [2] (fun c => c !!! 0%nat)) ∅ (<[[1] := 1]> (<[[0] := 0]> ∅))).
  - left. reflexivity.
  - reflexivity.
Defined.

(** X20.  An operator with an extent 0 has an empty iteration space: [Exec]
    makes no call and leaves the memory as it was, for every thread
    count. *)
Theorem host_exec_empty {S : Type} (omp : bool) (ex : HostExecParams)
    (op : Op (S -> S)) (st st' : S) :
  (exists d : nat, (d < Rank op)%nat /\ Size op d = 0) ->
  Exec omp ex op st st' ->
  st' = st
  /\ forall trace : list (list index_t), Exec_trace omp ex op trace -> trace = [].
Proof.
  intros (d & Hd & Hz) Hex.
  assert (Hsize : Z.to_nat (TotalSize op) = 0%nat).
  { unfold TotalSize. rewrite Flatten.shape_product_zero; [reflexivity |].
    apply list_elem_of_lookup. exists d. rewrite <- Hz. apply Shape_lookup. exact Hd. }
  assert (Hempty : forall trace : list (list index_t),
            Exec_trace omp ex op trace -> trace = []).
  { intros trace Htr. destruct Htr as [Hr | order Hr _ _ Hp | Hr _].
    - lia.
    - rewrite Hsize in Hp. cbn in Hp. apply Permutation_nil_r in Hp. subst order.
      reflexivity.
    - rewrite Hsize. reflexivity. }
  split; [| exact Hempty].
  destruct Hex as (trace & Htr & ->). rewrite (Hempty trace Htr). reflexivity.
Qed.

Lemma host_exec_empty_witness :
  exists st' : gmap (list index_t) Z,
    Exec true (MkHostExecParams 4) (elementwise [3; 0] (fun c => c !!! 0%nat)) ∅ st'
    /\ st' = ∅.
Proof.
  assert (Hex : Exec true (MkHostExecParams 4)
                  (elementwise [3; 0] (fun c => c !!! 0%nat)) ∅ ∅).
  { exists []. split; [| reflexivity].
    apply (Exec_omp true (MkHostExecParams 4) _ []).
    - cbn. lia.
    - reflexivity.
    - cbn. lia.
    - cbn. constructor. }
  exists ∅. split; [exact Hex |].
  apply (host_exec_empty true (MkHostExecParams 4)
           (elementwise [3; 0] (fun c => c !!! 0%nat)) ∅ ∅).
  - exists 1%nat. split; [cbn; lia | reflexivity].
  - exact Hex.
Defined.

End HostFacts.

(** ** Further properties of the transform nodes *)

Module TransformFacts.

Import Transform.

Section Shapes.

Context {V : Type}.

Variable junk : V.

Variable provider :
  Kind V -> (list index_t -> option V) -> list index_t -> index_t -> V.

(** The loop of the constructors, [out_dims_[r] = a_.Size(r)] for [r] below
    [n], fills the [n] entries of [out_dims_]. *)
Lemma ctor_dims_lookup (a : XformOp V) (n d : nat) :
  (d < n)%nat ->
  for_loop n (fun r o => <[r := Size a r]> o) (replicate n 0) !! d = Some (Size a d).
Proof.
  intros Hd.
  pose proof (for_loop_update_lookup (fun i _ => Size a i) (replicate n 0) n d) as H.
  cbv beta in H. rewrite H. rewrite decide_True by exact Hd.
  rewrite lookup_replicate_2 by exact Hd. reflexivity.
Qed.

Lemma ctor_dims_length (a : XformOp V) (n : nat) :
  length (for_loop n (fun r o => <[r := Size a r]> o) (replicate n 0)) = n.
Proof.
  pose proof (for_loop_update_length (fun i _ => Size a i) (replicate n 0) n) as H.
  cbv beta in H. rewrite H. apply length_replicate.
Qed.

(** X21.  The shapes the constructors declare.  [CovOp] has the extents of
    its operand; [HistOp] has them too except the last, which is
    [num_levels - 1]; [StddOp] and [AllOp] of output rank [ORank] have the
    first [ORank] extents of the operand. *)
Theorem transform_ctor_shapes (a : XformOp V) (lower upper : V) (num_levels ddof : Z)
    (ORank d : nat) :
  (d < Rank a)%nat ->
  Rank (CovOp a) = Rank a
  /\ Size (CovOp a) d = Size a d
  /\ Rank (HistOp a lower upper num_levels) = Rank a
  /\ Size (HistOp a lower upper num_levels) d
     = (if decide (d = Rank a - 1)%nat then num_levels - 1 else Size a d)
  /\ ((d < ORank)%nat ->
      Size (StddOp ORank a ddof) d = Size a d /\ Size (AllOp ORank a) d = Size a d).
Proof.
  intros Hd.
  split; [reflexivity |]. split.
  { cbn [CovOp Size]. apply list_lookup_total_correct, ctor_dims_lookup. exact Hd. }
  split; [reflexivity |]. split.
  { cbn [HistOp Size]. cbv zeta. rewrite ctor_dims_length.
    apply list_lookup_total_correct.
    destruct (decide (d = Rank a - 1)%nat) as [-> | Hne].
    - apply list_lookup_insert_eq. rewrite ctor_dims_length. lia.
    - rewrite list_lookup_insert_ne by congruence. apply ctor_dims_lookup. exact Hd. }
  intros Ho. split; cbn [StddOp AllOp Size];
    apply list_lookup_total_correct, ctor_dims_lookup; exact Ho.
Qed.

(** X22.  A transform over a transform over an operand.  [PreRun] runs the
    inner node first: the inner buffer holds the inner provider's values
    over the operand's elements, the outer buffer is a second, distinct
    buffer, and the input the outer provider reads is the inner buffer in
    row-major order.  The matching [PostRun] releases both. *)
Theorem nested_transform_reads_inner (k1 k2 : Kind V) (r1 r2 : nat) (t : Op V)
    (dims1 dims2 : list index_t) (tmp1 tmp2 : tensor_impl_t) (ptr1 ptr2 : option positive)
    (h : gmap positive (list V)) :
  exists (p1 p2 : positive) (n' : XformOp V) (h' : gmap positive (list V))
         (input : list index_t -> option V),
    PreRun junk provider
      (TransformOp k1 r1 (TransformOp k2 r2 (Operand t) dims2 tmp2 ptr2) dims1 tmp1 ptr1) h
    = (n', h')
    /\ owned n' = [p2; p1]
    /\ p1 <> p2 /\ h !! p1 = None /\ h !! p2 = None
    /\ h' !! p2
       = Some (map (fun flat => provider k2 (fun idx => Some (call t idx)) dims2 (Z.of_nat flat))
                 (seq 0 (Z.to_nat (shape_product dims2))))
    /\ h' !! p1
       = Some (map (fun flat => provider k1 input dims1 (Z.of_nat flat))
                 (seq 0 (Z.to_nat (shape_product dims1))))
    /\ (forall idx : list index_t, valid_coords dims2 idx ->
          input idx
          = Some (provider k2 (fun idx => Some (call t idx)) dims2
                    (GetAbsFromIdx_shape dims2 idx)))
    /\ (forall q : positive, q <> p1 -> q <> p2 -> h' !! q = h !! q)
    /\ PostRun n' h' = Ok h.
Proof.
  destruct (PreRun junk provider
              (TransformOp k1 r1 (TransformOp k2 r2 (Operand t) dims2 tmp2 ptr2) dims1 tmp1 ptr1) h)
    as [n' h'] eqn:Hrun.
  pose proof (PreRun_PostRun junk provider _ _ _ _ Hrun) as Hpost.
  cbn [PreRun] in Hrun. unfold AllocateTempTensor, Exec in Hrun.
  cbn [ldata_ shape_] in Hrun.
  change (access (Operand t) _) with (fun idx : list index_t => Some (call t idx)) in Hrun.
  change (access (TransformOp k2 r2 (Operand t) dims2 ?tmp (Some ?p)) ?g)
    with (tensor_read g tmp) in Hrun.
  set (p2 := fresh (dom h)) in *.
  set (buf2 := map (fun flat => provider k2 (fun idx => Some (call t idx)) dims2 (Z.of_nat flat))
                 (seq 0 (Z.to_nat (shape_product dims2)))) in *.
  set (h2 := <[p2 := buf2]> (<[p2 := replicate (Z.to_nat (shape_product dims2)) junk]> h)) in *.
  set (p1 := fresh (dom h2)) in *.
  set (input := tensor_read (<[p1 := replicate (Z.to_nat (shape_product dims1)) junk]> h2)
                  (MkTensorImpl (Some p2) dims2)) in *.
  injection Hrun as <- <-.
  assert (Hp2 : h !! p2 = None) by (apply not_elem_of_dom, is_fresh).
  assert (Hp1 : h2 !! p1 = None) by (apply not_elem_of_dom, is_fresh).
  assert (Hne : p1 <> p2).
  { intros Heq. rewrite Heq in Hp1. unfold h2 in Hp1.
    rewrite lookup_insert_eq in Hp1. discriminate Hp1. }
  eexists p1, p2, _, _, input.
  split; [reflexivity |]. split; [reflexivity |]. split; [exact Hne |].
  split.
  { unfold h2 in Hp1. rewrite !lookup_insert_ne in Hp1 by congruence. exact Hp1. }
  split; [exact Hp2 |].
  split.
  { rewrite !lookup_insert_ne by congruence. apply lookup_insert_eq. }
  split; [apply lookup_insert_eq |].
  split.
  { intros idx Hv. unfold input, tensor_read. cbn [ldata_ shape_ mbind option_bind].
    rewrite lookup_insert_ne by congruence. unfold h2. rewrite lookup_insert_eq.
    cbn [option_bind].
    destruct (coords_flat_coords dims2 idx Hv) as [Hb _].
    unfold buf2. cbn [mbind option_bind].
    change (map ?f ?l) with (f <$> l).
    rewrite list_lookup_fmap, lookup_seq_lt by lia.
    cbn. rewrite Z2Nat.id by lia. reflexivity. }
  split; [| exact Hpost].
  intros q Hq1 Hq2. unfold h2. rewrite !lookup_insert_ne by congruence. reflexivity.
Qed.

End Shapes.

Lemma transform_ctor_shapes_witness :
  Size (HistOp (Operand (coord_probe [8; 4])) [] [] 11) 1 = 10.
Proof.
  apply (transform_ctor_shapes (Operand (coord_probe [8; 4])) [] [] 11 0 0 1).
  cbn. lia.
Defined.

End TransformFacts.

(** ** Slices with strides *)

Module SliceStrided.

Import Slice SliceFacts.

(** One iteration of the constructor loop of a strided slice on a dimension
    that is kept and passes its checks. *)
Lemma ctor_body_strided {M : Markers} {C : DoubleCeil} {V : Type}
    (op : Op V) (starts ends str str_ : list index_t) (i d : nat) (s : SliceOp_t V) :
  dim_error op starts ends i = None ->
  end_of op ends i <> matxDropDim ->
  strides_ s = Some str_ ->
  exists s' : SliceOp_t V,
    ctor_body op starts ends (Some str) i (d, s) = Ok (S d, s')
    /\ sizes_ s'
       = <[d := ceil_div_double
                  (<[d := kept_extent op starts ends i]> (sizes_ s) !!! d)
                  (<[i := str !!! i]> str_ !!! d)]>
           (<[d := kept_extent op starts ends i]> (sizes_ s)).
Proof.
  intros He Hkeep Hs.
  unfold dim_error in He. unfold ctor_body, kept_extent.
  fold (start_of op starts i) (end_of op ends i) in *. cbv zeta in He.
  destruct ((_ >? matxIdxSentinel) || (_ <? Size op i)); cbn [negb] in *; [| discriminate].
  destruct ((_ >? matxIdxSentinel) || (_ <=? Size op i)); cbn [negb] in *; [| discriminate].
  rewrite (proj2 (Z.eqb_neq _ _) Hkeep) in *. cbn [negb andb] in *.
  destruct (end_of op ends i =? matxKeepDim); [discriminate |].
  cbn [op_ starts_ strides_ dims_ sizes_]. rewrite Hs.
  destruct (end_of op ends i =? matxEnd);
    (eexists; split; [reflexivity |]; cbn [op_ starts_ strides_ dims_ sizes_]; reflexivity).
Qed.

Lemma kept_dims_length_le {M : Markers} {V : Type} (op : Op V) (ends : list index_t)
    (n : nat) :
  (length (kept_dims op ends n) <= n)%nat.
Proof.
  unfold kept_dims.
  etransitivity; [apply length_filter |]. rewrite length_seq. reflexivity.
Qed.

Lemma ctor_loop_strided_sizes {M : Markers} {C : DoubleCeil} {V : Type}
    (op : Op V) (starts ends str : list index_t) (DIM n d : nat) (s : SliceOp_t V) :
  (n <= Rank op)%nat ->
  for_loop_M n (ctor_body op starts ends (Some str))
    (0%nat,
     MkSliceOp op (replicate DIM 0) (replicate DIM 0%nat) (replicate (Rank op) 0)
       (Some (replicate (Rank op) 0)))
  = Ok (d, s) ->
  forall j : nat, (j < d)%nat -> (j < DIM)%nat ->
    sizes_ s !! j
    = (fun i => ceil_div_double (kept_extent op starts ends i) (str !!! j))
        <$> (kept_dims op ends n !! j).
Proof.
  revert d s. induction n as [| n IH]; intros d s Hn Hrun j Hjd HjD.
  - cbn in Hrun. injection Hrun as <- <-. lia.
  - rewrite for_loop_M_S in Hrun.
    destruct (for_loop_M n (ctor_body op starts ends (Some str)) _)
      as [[d0 s0] | e] eqn:Hprev; [| discriminate].
    pose proof (ctor_loop_state op starts ends (Some str) DIM n d0 s0 ltac:(lia) Hprev)
      as (_ & Hd0 & _ & _ & _ & _ & Hlz & (str_ & Hs0 & Hlen & Hval)).
    specialize (IH d0 s0 ltac:(lia) eq_refl).
    rewrite bind_Ok in Hrun.
    destruct (dim_error op starts ends n) as [e |] eqn:He.
    { rewrite (ctor_body_error _ _ _ _ _ _ _ He) in Hrun. discriminate. }
    assert (Hkept : kept_dims op ends (S n)
                    = kept_dims op ends n
                      ++ (if decide (end_of op ends n = matxDropDim) then [] else [n])).
    { unfold kept_dims. rewrite seq_S, filter_app. cbn [filter list_filter].
      f_equal. cbn. destruct (decide (end_of op ends n = matxDropDim)) as [Hdr | Hdr].
      - rewrite decide_False by (intros Hc; apply Hc; exact Hdr). reflexivity.
      - rewrite decide_True by exact Hdr. reflexivity. }
    rewrite Hkept.
    destruct (decide (end_of op ends n = matxDropDim)) as [Hdr | Hdr].
    + destruct (ctor_body_ok op starts ends (Some str) n d0 s0 He)
        as (d' & s' & Hbody & _ & _ & _ & Hcase).
      rewrite decide_True in Hcase by exact Hdr.
      rewrite Hbody in Hrun. injection Hrun as <- <-.
      destruct Hcase as (-> & _ & Hsz). rewrite app_nil_r, Hsz. apply IH; assumption.
    + destruct (ctor_body_strided op starts ends str str_ n d0 s0 He Hdr Hs0)
        as (s' & Hbody & Hsz).
      rewrite Hbody in Hrun. injection Hrun as <- <-. rewrite Hsz.
      pose proof (kept_dims_length_le op ends n) as Hle.
      destruct (decide (j = d0)) as [-> | Hne].
      * rewrite list_lookup_insert_eq by (rewrite length_insert; lia).
        rewrite lookup_app_r by lia. rewrite Hd0, Nat.sub_diag. cbn. f_equal.
        rewrite list_lookup_total_insert_eq by lia. f_equal.
        destruct (decide (length (kept_dims op ends n) = n)) as [Heq | Hlt].
        -- rewrite Heq. apply list_lookup_total_insert_eq. lia.
        -- rewrite list_lookup_total_insert_ne by lia. apply Hval. lia.
      * rewrite !list_lookup_insert_ne by congruence.
        rewrite lookup_app_l by lia. apply IH; lia.
Qed.

(** The sizes of a constructed slice with strides, read off the loop. *)
Lemma SliceOp_strided_sizes {M : Markers} {C : DoubleCeil} {V : Type}
    (DIM : nat) (op : Op V) (starts ends strides : list index_t) (s : SliceOp_t V) :
  SliceOp DIM op starts ends (Some strides) = Ok s ->
  forall j : nat, (j < DIM)%nat ->
    sizes_ s !! j
    = (fun i => ceil_div_double (kept_extent op starts ends i) (strides !!! j))
        <$> (kept_dims op ends (Rank op) !! j).
Proof.
  intros Hctor j Hj.
  unfold SliceOp in Hctor. cbv zeta in Hctor.
  destruct (for_loop_M (Rank op) (ctor_body op starts ends (Some strides)) _)
    as [[d s0] | e] eqn:Hloop; [| discriminate].
  rewrite bind_Ok in Hctor.
  destruct (Nat.eqb_spec d DIM) as [Hd | Hd]; [| discriminate].
  cbn in Hctor. injection Hctor as <-.
  apply (ctor_loop_strided_sizes op starts ends strides DIM (Rank op) d s0
           (Nat.le_refl _) Hloop j); lia.
Qed.

(** The exact ceiling: below [ceil (ext / st)] steps of [st] stay below
    [ext]. *)
Lemma ceil_quotient_steps (ext st k : index_t) :
  0 < st -> 0 <= k < ceil_quotient ext st -> k * st < ext.
Proof.
  unfold ceil_quotient. intros Hst [Hk0 Hk].
  destruct (Z_lt_le_dec (k * st) ext) as [Hlt | Hge]; [exact Hlt | exfalso].
  assert (- k <= (- ext) / st) by (apply Z.div_le_lower_bound; lia).
  lia.
Qed.

(** X23.  A constructed slice with strides has, in output dimension [j], the
    size of the [j]-th kept dimension ([end - start], or [size - start] for
    [matxEnd]) divided by the stride at position [j] of [strides], rounded
    up by [ceil_div_double]: the constructor reads [strides_[d]] with the
    counter of the output dimensions. *)
Theorem slice_strided_sizes {M : Markers} {C : DoubleCeil} {V : Type}
    (DIM : nat) (op : Op V) (starts ends strides : list index_t) (s : SliceOp_t V) :
  SliceOp DIM op starts ends (Some strides) = Ok s ->
  Rank (as_op DIM s) = DIM
  /\ forall j : nat, (j < DIM)%nat ->
       exists i : nat,
         kept_dims op ends (Rank op) !! j = Some i
         /\ Size (as_op DIM s) j
            = ceil_div_double
                (if end_of op ends i =? matxEnd
                 then Size op i - start_of op starts i
                 else end_of op ends i - start_of op starts i)
                (strides !!! j).
Proof.
  intros Hctor. split; [reflexivity |]. intros j Hj.
  destruct (SliceOp_members DIM op starts ends (Some strides) s Hctor) as (_ & Hk & _).
  pose proof (SliceOp_strided_sizes DIM op starts ends strides s Hctor j Hj) as Hsz.
  destruct (lookup_lt_is_Some_2 (kept_dims op ends (Rank op)) j ltac:(lia)) as [i Hi].
  exists i. split; [exact Hi |].
  rewrite Hi in Hsz. cbn in Hsz.
  cbn [Size as_op]. apply list_lookup_total_correct. exact Hsz.
Qed.

Lemma slice_strided_sizes_witness :
  exists s : SliceOp_t (list index_t),
    SliceOp (M := markers64) (C := ceil_quotient) 1 (coord_probe [5; 9])
      [2; 1] [matxDropDim (Markers := markers64); 8] (Some [3; 2])
    = Ok s
    /\ Size (as_op 1 s) 0 = 3.
Proof.
  assert (Hs : exists s : SliceOp_t (list index_t),
             SliceOp (M := markers64) (C := ceil_quotient) 1 (coord_probe [5; 9])
               [2; 1] [matxDropDim (Markers := markers64); 8] (Some [3; 2]) = Ok s).
  { eexists. vm_compute. reflexivity. }
  destruct Hs as [s Hs]. exists s. split; [exact Hs |].
  destruct (slice_strided_sizes (M := markers64) (C := ceil_quotient) 1 (coord_probe [5; 9])
              [2; 1] [matxDropDim (Markers := markers64); 8] [3; 2] s Hs) as (_ & Hsz).
  destruct (Hsz 0%nat ltac:(lia)) as (i & Hi & ->).
  vm_compute in Hi. injection Hi as <-. vm_compute. reflexivity.
Defined.

(** X24.  Where the double-precision ceiling of the constructor is the exact
    one and the strides are positive, a strided slice that keeps every
    dimension, with starts that are not negative and ends inside the inner
    node (or [matxEnd]), reads the inner node in range at every in-range
    coordinate tuple. *)
Theorem slice_strided_in_range {M : Markers} {C : DoubleCeil} {V : Type}
    (op : Op V) (starts ends strides : list index_t) (s : SliceOp_t V)
    (idx : list index_t) :
  SliceOp (Rank op) op starts ends (Some strides) = Ok s ->
  (forall i : nat, (i < Rank op)%nat ->
     end_of op ends i <> matxDropDim
     /\ 0 <= start_of op starts i
     /\ (end_of op ends i = matxEnd \/ end_of op ends i <= Size op i)
     /\ 0 < strides !!! i
     /\ ceil_div_double (kept_extent op starts ends i) (strides !!! i)
        = - ((- kept_extent op starts ends i) / strides !!! i)) ->
  valid_coords (Shape (as_op (Rank op) s)) idx ->
  exists ind : list index_t,
    call (as_op (Rank op) s) idx = call op ind
    /\ valid_coords (Shape op) ind
    /\ forall i : nat, (i < Rank op)%nat ->
         ind !!! i = start_of op starts i + idx !!! i * strides !!! i.
Proof.
  intros Hctor Hgood Hv.
  assert (Hall : forall i : nat, (i < Rank op)%nat -> end_of op ends i <> matxDropDim)
    by (intros i Hi; apply (Hgood i Hi)).
  destruct (slice_keep_all_access op starts ends (Some strides) s idx
              Hctor Hall) as (ind & Hcall & Hlen & Hind).
  exists ind. split; [exact Hcall |]. split; [| exact Hind].
  apply Forall2_same_length_lookup. split.
  { unfold Shape. rewrite length_fmap, length_seq. symmetry. exact Hlen. }
  intros i sz v Hsz Hvi.
  assert (Hi : (i < Rank op)%nat).
  { apply lookup_lt_Some in Hvi. lia. }
  rewrite Shape_lookup in Hsz by exact Hi. injection Hsz as <-.
  apply list_lookup_total_correct in Hvi. rewrite (Hind i Hi) in Hvi. subst v.
  cbn [stride_of].
  destruct (Hgood i Hi) as (_ & Hs0 & Hend & Hst & Hexact).
  pose proof (SliceOp_strided_sizes (Rank op) op starts ends strides s
                Hctor i Hi) as Hsize.
  rewrite (kept_dims_all op ends (Rank op) Hall), lookup_seq_lt in Hsize by exact Hi.
  cbn in Hsize. rewrite Hexact in Hsize.
  assert (Hidx : 0 <= idx !!! i
                 < ceil_quotient (kept_extent op starts ends i) (strides !!! i)).
  { pose proof (Forall2_lookup_l _ _ _ i _ Hv
                  (Shape_lookup (as_op (Rank op) s) i Hi)) as (v & Hv1 & Hv2).
    rewrite (list_lookup_total_correct _ _ _ Hv1).
    cbn [Size as_op] in Hv2.
    rewrite (list_lookup_total_correct _ _ _ Hsize) in Hv2. exact Hv2. }
  pose proof (ceil_quotient_steps _ _ _ Hst Hidx) as Hstep.
  assert (Hext : kept_extent op starts ends i <= Size op i - start_of op starts i).
  { unfold kept_extent. destruct (Z.eqb_spec (end_of op ends i) matxEnd) as [He | He];
      [lia |]. destruct Hend as [Hend | Hend]; [contradiction | lia]. }
  split; [| lia].
  assert (0 <= idx !!! i * strides !!! i) by (apply Z.mul_nonneg_nonneg; lia).
  lia.
Qed.

Lemma slice_strided_in_range_witness :
  exists (s : SliceOp_t (list index_t)) (ind : list index_t),
    SliceOp (M := markers64) (C := ceil_quotient) 2 (coord_probe [5; 9])
      [1; 2] [matxEnd (Markers := markers64); 9] (Some [2; 3])
    = Ok s
    /\ call (as_op 2 s) [1; 2] = call (coord_probe [5; 9]) ind
    /\ valid_coords [5; 9] ind.
Proof.
  assert (Hs : exists s : SliceOp_t (list index_t),
             SliceOp (M := markers64) (C := ceil_quotient) 2 (coord_probe [5; 9])
               [1; 2] [matxEnd (Markers := markers64); 9] (Some [2; 3]) = Ok s).
  { eexists. vm_compute. reflexivity. }
  destruct Hs as [s Hs]. exists s.
  destruct (slice_strided_in_range (M := markers64) (C := ceil_quotient)
              (coord_probe [5; 9])
              [1; 2] [matxEnd (Markers := markers64); 9] [2; 3] s [1; 2] Hs)
    as (ind & Hcall & Hvalid & _).
  - intros i Hi. destruct i as [| [| i]]; [| | cbn in Hi; lia];
      (split; [vm_compute; discriminate |]; split; [vm_compute; discriminate |];
       split; [| split; vm_compute; reflexivity]).
    + left. reflexivity.
    + right. vm_compute. discriminate.
  - vm_compute in Hs. injection Hs as <-.
    apply (bool_decide_unpack _). vm_compute. exact I.
  - exists ind. split; [exact Hs |]. split; [exact Hcall | exact Hvalid].
Defined.

End SliceStrided.

(** ** Bounds of the granularity *)

Module CapabilityFacts.

Import Capability.

Section Bounds.

Context {OtherCap : Type} {A : Attributes OtherCap}.

Lemma plug_frame_le (f : Frame) (t : Node) :
  granularity (plug_frame f t) <= granularity t
  /\ granularity (plug_frame f t) <= Zpos ept_default.
Proof.
  unfold granularity.
  destruct f;
    cbn [plug_frame get_capability combine_capabilities fold_left combine default_value ONE];
    unfold ONE; lia.
Qed.

(** X25.  No operator node reports a coarser granularity than one of its
    operands: the granularity of a tree is at most the granularity of each
    of its subtrees, and the granularity of a tree with an operator node at
    the root is at most the default. *)
Theorem granularity_le_subtree (ctx : list Frame) (t : Node) :
  granularity (plug ctx t) <= granularity t
  /\ (ctx <> [] -> granularity (plug ctx t) <= Zpos ept_default).
Proof.
  induction ctx as [| f ctx IH] using rev_ind.
  - split; [cbn; lia | congruence].
  - unfold plug in *. rewrite fold_left_app. cbn [fold_left].
    destruct (plug_frame_le f (fold_left (fun n f => plug_frame f n) ctx t)) as [H1 H2].
    split; [lia | intros _; exact H2].
Qed.

End Bounds.

End CapabilityFacts.

(** ** The spline interpolation: temporaries and rows *)

Module InterpSpline.

Import Transform Interp Core.

(** The mutable members of [Interp1Op]: the tensor [m_] of the derivatives
    at the sample points and its storage [ptr_m_], [nullptr] at first. *)
Record Interp1Op_members : Type := MkMembers {
  m_ : tensor_impl_t;
  ptr_m_ : option positive
}.

Section Spline.

Context {V : Type}.

(** The content of a cell of freshly allocated memory. *)
Variable junk : V.

(** The floating-point results, taken as parameters: the values
    [InterpSplineTridiagonalFillOp] stores at each flat index of [dl_],
    [d_], [du_] and [b_], and the solution [solve(A, M)] of the tridiagonal
    system, given the cells of [A] and of [M]. *)
Variables fill_dl fill_d fill_du fill_b : index_t -> V.
Variable solve : list V -> list V -> list V.

(** Modelled from the spec: [matxAlloc] is declared outside the files at
    hand.  Sections 4.5 and 6: a buffer of the size asked for, in cells
    here, under a handle no live buffer has. *)
Definition matxAlloc (cells : index_t) (h : gmap positive (list V))
    : positive * gmap positive (list V) :=
  let p := fresh (dom h) in
  (p, <[p := replicate (Z.to_nat cells) junk]> h).

(** A store through a tensor made over the buffer [p] at the cell [off]:
    the cells of the buffer from [off] on take the values; a store outside
    the buffer, undefined in the source, is dropped. *)
Definition store (p : positive) (off : nat) (vals : list V) (h : gmap positive (list V))
    : gmap positive (list V) :=
  alter (list_inserts off vals) p h.

(** [Interp1Op::PreRun(shape, ex)] with the sample values [v_], on a CUDA
    executor, the only one the source accepts for [SPLINE].  [interp1]
    asserts statically that the rank of [v_] is at least 1, so
    [v_.Rank() - 1] is not negative. *)
Definition PreRun (v_ : Op V) (method_ : InterpMethod) (st : Interp1Op_members)
    (h : gmap positive (list V))
    : result alloc_error (Interp1Op_members * gmap positive (list V)) :=
  match method_ with
  | SPLINE =>
      let batch_count := for_loop (Rank v_ - 1) (fun i b => b * Size v_ i) 1 in
      let n := Size v_ (Rank v_ - 1) in
      let m_shape := Shape v_ in
      let '(m_, ptr_m_, h) := AllocateTempTensor junk m_shape h in
      let '(ptr_tridiag_, h) := matxAlloc (3 * batch_count * n) h in
      let ptr_dl_ := 0%nat in
      let ptr_d_ := Z.to_nat (batch_count * n) in
      let ptr_du_ := Z.to_nat (batch_count * n * 2) in
      let cells := seq 0 (Z.to_nat (shape_product m_shape)) in
      let h := store ptr_tridiag_ ptr_dl_ (map (fun k => fill_dl (Z.of_nat k)) cells) h in
      let h := store ptr_tridiag_ ptr_d_ (map (fun k => fill_d (Z.of_nat k)) cells) h in
      let h := store ptr_tridiag_ ptr_du_ (map (fun k => fill_du (Z.of_nat k)) cells) h in
      let h := store ptr_m_ 0 (map (fun k => fill_b (Z.of_nat k)) cells) h in
      let A := take (Z.to_nat (batch_count * n * 3)) (h !!! ptr_tridiag_) in
      let M := take (Z.to_nat (batch_count * n)) (h !!! ptr_m_) in
      let h := store ptr_m_ 0 (take (Z.to_nat (batch_count * n)) (solve A M)) h in
      h ← matxFree (Some ptr_tridiag_) h;
      Ok (MkMembers m_ (Some ptr_m_), h)
  | _ => Ok (st, h)
  end.

(** [Interp1Op::PostRun(shape, ex)]. *)
Definition PostRun (method_ : InterpMethod) (st : Interp1Op_members)
    (h : gmap positive (list V)) : result alloc_error (gmap positive (list V)) :=
  match method_ with
  | SPLINE => matxFree (ptr_m_ st) h
  | _ => Ok h
  end.

Lemma store_lookup_ne (p q : positive) (off : nat) (vals : list V)
    (h : gmap positive (list V)) :
  p <> q -> store p off vals h !! q = h !! q.
Proof. intros Hne. unfold store. apply lookup_alter_ne. exact Hne. Qed.

Lemma store_lookup_length (p : positive) (off : nat) (vals buf : list V)
    (h : gmap positive (list V)) :
  h !! p = Some buf ->
  exists buf' : list V, store p off vals h !! p = Some buf' /\ length buf' = length buf.
Proof.
  intros Hp. unfold store. rewrite lookup_alter_eq, Hp. cbn.
  eexists. split; [reflexivity |]. apply length_inserts.
Qed.

(** X26.  [PreRun] of the interpolation node always completes.  For a
    method other than [SPLINE] it touches neither the node nor the memory.
    For [SPLINE] it leaves exactly one new buffer live, the one of [m_],
    with one cell per sample value, under a handle that was not live; the
    buffer of the tridiagonal system is released before [PreRun] returns.
    The matching [PostRun] leaves the memory as it was before [PreRun]. *)
Theorem interp1_prerun_postrun (v_ : Op V) (method_ : InterpMethod)
    (st : Interp1Op_members) (h : gmap positive (list V)) :
  exists (st' : Interp1Op_members) (h' : gmap positive (list V)),
    PreRun v_ method_ st h = Ok (st', h')
    /\ PostRun method_ st' h' = Ok h
    /\ (method_ <> SPLINE -> st' = st /\ h' = h)
    /\ (method_ = SPLINE ->
        exists (p : positive) (buf : list V),
          st' = MkMembers (MkTensorImpl (Some p) (Shape v_)) (Some p)
          /\ h !! p = None
          /\ h' = <[p := buf]> h
          /\ length buf = Z.to_nat (shape_product (Shape v_))).
Proof.
  destruct method_;
    try (exists st, h; split; [reflexivity |]; split; [reflexivity |];
         split; [intros _; split; reflexivity | intros [=]]).
  unfold PreRun, AllocateTempTensor, matxAlloc. cbv zeta.
  set (pm := fresh (dom h)).
  set (h1 := <[pm := replicate (Z.to_nat (shape_product (Shape v_))) junk]> h).
  set (pt := fresh (dom h1)).
  set (bn := for_loop (Rank v_ - 1) (fun i b => b * Size v_ i) 1 * Size v_ (Rank v_ - 1)).
  set (h2 := <[pt := replicate (Z.to_nat (3 * for_loop (Rank v_ - 1) (fun i b => b * Size v_ i) 1
                                           * Size v_ (Rank v_ - 1))) junk]> h1).
  assert (Hpm : h !! pm = None) by (apply not_elem_of_dom, is_fresh).
  assert (Hpt : h1 !! pt = None) by (apply not_elem_of_dom, is_fresh).
  assert (Hne : pt <> pm).
  { intros Heq. rewrite Heq in Hpt. unfold h1 in Hpt.
    rewrite lookup_insert_eq in Hpt. discriminate Hpt. }
  match goal with
  | |- context [matxFree (Some pt) ?g] => set (h5 := g)
  end.
  assert (Hlive : exists bt : list V, h5 !! pt = Some bt).
  { unfold h5. rewrite store_lookup_ne, store_lookup_ne by congruence.
    destruct (store_lookup_length pt 0 (map (fun k => fill_dl (Z.of_nat k))
                 (seq 0 (Z.to_nat (shape_product (Shape v_))))) _ h2
                ltac:(unfold h2; apply lookup_insert_eq)) as (b1 & Hb1 & _).
    destruct (store_lookup_length pt (Z.to_nat bn) (map (fun k => fill_d (Z.of_nat k))
                 (seq 0 (Z.to_nat (shape_product (Shape v_))))) _ _ Hb1) as (b2 & Hb2 & _).
    destruct (store_lookup_length pt (Z.to_nat (bn * 2)) (map (fun k => fill_du (Z.of_nat k))
                 (seq 0 (Z.to_nat (shape_product (Shape v_))))) _ _ Hb2) as (b3 & Hb3 & _).
    exists b3. exact Hb3. }
  destruct Hlive as [bt Hbt].
  assert (Hm : exists buf : list V,
             h5 !! pm = Some buf /\ length buf = Z.to_nat (shape_product (Shape v_))).
  { unfold h5.
    match goal with
    | |- context [store pm 0 ?vals2 (store pm 0 ?vals1 ?g)] =>
        assert (Hg : g !! pm = Some (replicate (Z.to_nat (shape_product (Shape v_))) junk))
    end.
    { rewrite !store_lookup_ne by congruence. unfold h2.
      rewrite lookup_insert_ne by exact Hne. unfold h1. apply lookup_insert_eq. }
    destruct (store_lookup_length pm 0 (map (fun k => fill_b (Z.of_nat k))
                 (seq 0 (Z.to_nat (shape_product (Shape v_))))) _ _ Hg) as (b1 & Hb1 & Hl1).
    match goal with
    | |- context [store pm 0 ?vals2 _] =>
        destruct (store_lookup_length pm 0 vals2 _ _ Hb1) as (b2 & Hb2 & Hl2)
    end.
    exists b2. split; [exact Hb2 |]. rewrite Hl2, Hl1. apply length_replicate. }
  destruct Hm as (buf & Hbuf & Hlen).
  assert (Hother : forall q : positive, q <> pm -> q <> pt -> h5 !! q = h !! q).
  { intros q Hq1 Hq2. unfold h5. rewrite !store_lookup_ne by congruence.
    unfold h2, h1. rewrite !lookup_insert_ne by congruence. reflexivity. }
  cbn [matxFree]. rewrite Hbt, bind_Ok.
  assert (Hh' : delete pt h5 = <[pm := buf]> h).
  { apply map_eq. intros q. destruct (decide (q = pt)) as [-> | Hq].
    - rewrite lookup_delete_eq, lookup_insert_ne by congruence.
      symmetry. unfold h1 in Hpt. rewrite lookup_insert_ne in Hpt by congruence. exact Hpt.
    - rewrite lookup_delete_ne by congruence. destruct (decide (q = pm)) as [-> | Hq'].
      + rewrite lookup_insert_eq. exact Hbuf.
      + rewrite lookup_insert_ne by congruence. apply Hother; assumption. }
  exists (MkMembers (MkTensorImpl (Some pm) (Shape v_)) (Some pm)), (delete pt h5).
  split; [reflexivity |]. split.
  { cbn [PostRun ptr_m_ matxFree]. rewrite Hh', lookup_insert_eq. f_equal.
    rewrite delete_insert_eq. apply delete_id. exact Hpm. }
  split; [intros Hc; contradiction |].
  intros _. exists pm, buf. split; [reflexivity |]. split; [exact Hpm |].
  split; [exact Hh' | exact Hlen].
Qed.

End Spline.

(** The positions along the interpolation axis of [idx0], [idx1] and
    [idx2], at which [InterpSplineTridiagonalFillOp::operator()] reads [x_]
    and [v_] for the row [idxInterp]; [n] is [x_.Size(AXIS_X)]. *)
Definition InterpSplineTridiagonalFillOp_reads (n idxInterp : index_t) : list index_t :=
  if idxInterp =? 0 then [idxInterp + 0; idxInterp + 1; idxInterp + 2]
  else if idxInterp =? n - 1 then [idxInterp - 2; idxInterp - 1; idxInterp]
  else [idxInterp - 1; idxInterp; idxInterp + 1].

(** X27.  Every row of the tridiagonal system reads the samples at three
    consecutive positions, and all rows read in range exactly when there
    are at least three samples (or none): with one or two samples the row
    of the left boundary reads position 2. *)
Theorem spline_rows_read_in_range (n : index_t) :
  (forall idxInterp : index_t,
     exists k : index_t, InterpSplineTridiagonalFillOp_reads n idxInterp = [k; k + 1; k + 2])
  /\ ((forall idxInterp : index_t, 0 <= idxInterp < n ->
         Forall (fun k => 0 <= k < n) (InterpSplineTridiagonalFillOp_reads n idxInterp))
      <-> (n <= 0 \/ 3 <= n)).
Proof.
  split.
  - intros i. unfold InterpSplineTridiagonalFillOp_reads.
    destruct (i =? 0); [exists (i + 0) |
      destruct (i =? n - 1); [exists (i - 2) | exists (i - 1)]];
      repeat (apply (f_equal2 (@cons index_t)); [lia |]); reflexivity.
  - split.
    + intros Hall. destruct (Z_le_gt_dec n 0) as [Hn | Hn]; [left; exact Hn | right].
      specialize (Hall 0 ltac:(lia)). cbn in Hall.
      apply Forall_cons in Hall as [_ Hall]. apply Forall_cons in Hall as [_ Hall].
      apply Forall_cons in Hall as [H2 _]. lia.
    + intros Hn i Hi. unfold InterpSplineTridiagonalFillOp_reads.
      destruct (Z.eqb_spec i 0) as [H0 | H0];
        [| destruct (Z.eqb_spec i (n - 1)) as [H1 | H1]];
        repeat constructor; lia.
Qed.

End InterpSpline.

(** ** The checks of the slice constructor *)

Module SliceChecks.

Import Slice SliceFacts.

(** A cell of the coordinate tuple [get_impl] reads is the value it had or a
    start plus a local coordinate times the stride of the cell. *)
Lemma cell_after_cases (rank : nat) (starts : list index_t)
    (strides : option (list index_t)) (dims : list nat) (indices : list index_t)
    (i : nat) (old : index_t) :
  cell_after rank starts strides dims indices i old = old
  \/ exists j : nat, (j < rank)%nat
       /\ cell_after rank starts strides dims indices i old
          = starts !!! j + indices !!! j * stride_of strides i.
Proof.
  unfold cell_after. induction rank as [| n IH]; [left; reflexivity |].
  rewrite for_loop_S. destruct (dims !!! n =? i)%nat.
  - right. exists n. split; [lia |].
    destruct strides as [str |]; cbn [stride_of]; [reflexivity | lia].
  - destruct IH as [IH | (j & Hj & IH)]; [left; exact IH |].
    right. exists j. split; [lia | exact IH].
Qed.

(** The exception of the checks of one dimension. *)
Lemma dim_error_code {M : Markers} {V : Type} (op : Op V) (starts ends : list index_t)
    (i : nat) (e : matxException) :
  dim_error op starts ends i = Some e ->
  e_code e = matxInvalidDim
  \/ (e_code e = matxInvalidParameter /\ end_of op ends i = matxKeepDim).
Proof.
  unfold dim_error. cbv zeta. intros He.
  destruct (negb _) in He; [injection He as <-; left; reflexivity |].
  destruct (negb _) in He; [injection He as <-; left; reflexivity |].
  destruct (Z.eqb_spec (end_of op ends i) matxKeepDim) as [Hk | Hk].
  - destruct (negb _) in He; [| discriminate He].
    injection He as <-. right. split; [reflexivity | exact Hk].
  - rewrite andb_false_r in He. discriminate He.
Qed.

(** A start or an end out of range fails the range checks of its
    dimension. *)
Lemma dim_error_range {M : Markers} {V : Type} (op : Op V) (starts ends : list index_t)
    (i : nat) :
  (start_of op starts i <= matxIdxSentinel /\ Size op i <= start_of op starts i)
  \/ (end_of op ends i <= matxIdxSentinel /\ Size op i < end_of op ends i) ->
  exists e : matxException,
    dim_error op starts ends i = Some e /\ e_code e = matxInvalidDim.
Proof.
  intros Hbad. unfold dim_error. cbv zeta.
  destruct (negb ((start_of op starts i >? matxIdxSentinel)
                  || (start_of op starts i <? Size op i))) eqn:Hs.
  { eexists. split; reflexivity. }
  destruct (negb ((end_of op ends i >? matxIdxSentinel)
                  || (end_of op ends i <=? Size op i))) eqn:He.
  { eexists. split; reflexivity. }
  exfalso. apply negb_false_iff, orb_true_iff in Hs, He.
  destruct Hbad as [[H1 H2] | [H1 H2]].
  - destruct Hs as [Hs | Hs];
      [rewrite Z.gtb_ltb in Hs; apply Z.ltb_lt in Hs | apply Z.ltb_lt in Hs]; lia.
  - destruct He as [He | He];
      [rewrite Z.gtb_ltb in He; apply Z.ltb_lt in He | apply Z.leb_le in He]; lia.
Qed.

(** C3 (amended).  The constructor resolves a negative start or end against
    the size of its dimension, and stores the resolved start.  It throws when
    some dimension has a resolved start that is not above [matxIdxSentinel]
    and is at least the size, or a resolved end that is not above
    [matxIdxSentinel] and exceeds the size (in a construction that keeps at
    most [DIM] dimensions before that one); the exception is the range error
    [matxInvalidDim] unless a dimension before that one has the end
    [matxKeepDim], which is rejected first with [matxInvalidParameter].  It
    succeeds when every resolved start is in [[0, size)], every resolved end
    is in [[0, size]] or above [matxIdxSentinel], no end is [matxKeepDim],
    and the number of kept dimensions is the rank of the slice.  Element
    access of a constructed slice makes no check: at every coordinate tuple,
    in range or not, it is the element of the inner node at a tuple that
    holds, in each dimension, a resolved start or a resolved start plus a
    local coordinate times the stride of the dimension. *)
Theorem slice_ctor_range_check {M : Markers} {C : DoubleCeil} {V : Type}
    (DIM : nat) (op : Op V) (starts ends : list index_t)
    (strides : option (list index_t)) :
  (forall s : SliceOp_t V, SliceOp DIM op starts ends strides = Ok s ->
     (forall i : nat, (i < Rank op)%nat ->
        starts_ s !!! i
        = if starts !!! i <? 0 then Size op i + starts !!! i else starts !!! i)
     /\ forall idx : list index_t, exists ind : list index_t,
          call (as_op DIM s) idx = call op ind
          /\ length ind = Rank op
          /\ forall i : nat, (i < Rank op)%nat ->
               ind !!! i = start_of op starts i
               \/ exists j : nat, (j < DIM)%nat
                    /\ ind !!! i
                       = start_of op starts j + idx !!! j * stride_of strides i)
  /\ (forall i : nat, (i < Rank op)%nat ->
        (length (kept_dims op ends i) <= DIM)%nat ->
        (start_of op starts i <= matxIdxSentinel /\ Size op i <= start_of op starts i)
        \/ (end_of op ends i <= matxIdxSentinel /\ Size op i < end_of op ends i) ->
        exists e : matxException,
          SliceOp DIM op starts ends strides = Err e
          /\ (e_code e = matxInvalidDim \/ e_code e = matxInvalidParameter)
          /\ ((forall k : nat, (k < i)%nat -> end_of op ends k <> matxKeepDim) ->
              e_code e = matxInvalidDim))
  /\ ((forall i : nat, (i < Rank op)%nat ->
         0 <= start_of op starts i < Size op i
         /\ (0 <= end_of op ends i <= Size op i \/ matxIdxSentinel < end_of op ends i)
         /\ end_of op ends i <> matxKeepDim) ->
      length (kept_dims op ends (Rank op)) = DIM ->
      exists s : SliceOp_t V, SliceOp DIM op starts ends strides = Ok s).
Proof.
  split; [| split].
  - intros s Hctor.
    destruct (SliceOp_members DIM op starts ends strides s Hctor)
      as (Hop & Hk & Hls & Hst & _ & Hstr).
    assert (HD : (DIM <= Rank op)%nat).
    { rewrite <- Hk. unfold kept_dims.
      etransitivity; [apply length_filter |]. rewrite length_seq. reflexivity. }
    split.
    + intros i Hi. rewrite (Hst i Hi). reflexivity.
    + intros idx.
      exists (imap (cell_after DIM (starts_ s) (strides_ s) (dims_ s) idx) (starts_ s)).
      split; [cbn [call as_op]; rewrite Hop; apply get_impl_cells; exact Hls |].
      split; [rewrite length_imap; exact Hls |].
      intros i Hi.
      assert (Hcell : imap (cell_after DIM (starts_ s) (strides_ s) (dims_ s) idx)
                        (starts_ s) !!! i
                      = cell_after DIM (starts_ s) (strides_ s) (dims_ s) idx i
                          (starts_ s !!! i)).
      { apply list_lookup_total_correct. rewrite list_lookup_imap.
        rewrite (list_lookup_lookup_total_lt (starts_ s) i) by lia. reflexivity. }
      rewrite Hcell.
      destruct (cell_after_cases DIM (starts_ s) (strides_ s) (dims_ s) idx i
                  (starts_ s !!! i)) as [-> | (j & Hj & ->)].
      * left. apply Hst. exact Hi.
      * right. exists j. split; [exact Hj |].
        rewrite (Hst j) by lia. rewrite (Hstr i Hi). reflexivity.
  - intros i Hi _ Hbad.
    destruct (dim_error_range op starts ends i Hbad) as (ei & Hei & _).
    unfold SliceOp. cbv zeta.
    set (init := (0%nat, MkSliceOp op _ _ _ _)).
    pose proof (ctor_loop_outcome op starts ends strides (Rank op) init) as Hout.
    destruct (for_loop_M (Rank op) (ctor_body op starts ends strides) init)
      as [[d s0] | e0] eqn:Hloop.
    { rewrite (Hout i Hi) in Hei. discriminate Hei. }
    destruct Hout as (i0 & Hi0 & He0 & Hbefore).
    rewrite bind_Err. exists e0. split; [reflexivity |].
    destruct (dim_error_code op starts ends i0 e0 He0) as [Hc | [Hc Hkd]].
    + split; [left; exact Hc | intros _; exact Hc].
    + split; [right; exact Hc |].
      intros Hnk. exfalso.
      destruct (Nat.lt_trichotomy i0 i) as [Hlt | [Heq | Hgt]].
      * exact (Hnk i0 Hlt Hkd).
      * subst i0. destruct (dim_error_range op starts ends i Hbad) as (e' & He' & Hc').
        rewrite He0 in He'. injection He' as <-. rewrite Hc in Hc'. discriminate Hc'.
      * rewrite (Hbefore i Hgt) in Hei. discriminate Hei.
  - intros Hgood Hk.
    destruct (ctor_loop_all_ok DIM op starts ends strides) as (d & s0 & Hloop & Hd).
    { intros i Hi. destruct (Hgood i Hi) as (Hs & He & Hnk).
      apply good_dim_no_error; assumption. }
    unfold SliceOp. cbv zeta. rewrite Hloop, bind_Ok.
    rewrite (proj2 (Nat.eqb_eq d DIM)) by congruence. eexists. reflexivity.
Qed.

Lemma slice_ctor_range_check_witness :
  (exists e : matxException,
     SliceOp (M := markers64) (C := ceil_quotient) 1 (coord_probe [3]) [0] [4] None = Err e
     /\ e_code e = matxInvalidDim)
  /\ exists s : SliceOp_t (list index_t),
       SliceOp (M := markers64) (C := ceil_quotient) 1 (coord_probe [3]) [-2] [3] None = Ok s
       /\ starts_ s !!! 0%nat = 1.
Proof.
  split.
  - destruct (slice_ctor_range_check (M := markers64) (C := ceil_quotient)
                1 (coord_probe [3]) [0] [4] None) as (_ & Hfail & _).
    destruct (Hfail 0%nat) as (e & He & _ & Hcode).
    + cbn. lia.
    + vm_compute. lia.
    + right. vm_compute. split; [intros [=] | reflexivity].
    + exists e. split; [exact He |]. apply Hcode. intros k Hk. lia.
  - destruct (slice_ctor_range_check (M := markers64) (C := ceil_quotient)
                1 (coord_probe [3]) [-2] [3] None) as (Hres & _ & Hok).
    destruct Hok as (s & Hs).
    + intros i Hi. cbn in Hi. assert (i = 0%nat) as -> by lia.
      split; [vm_compute; split; [intros [=] | reflexivity] |].
      split; [left; vm_compute; split; intros [=] | vm_compute; intros [=]].
    + reflexivity.
    + exists s. split; [exact Hs |].
      destruct (Hres s Hs) as [Hstart _].
      rewrite (Hstart 0%nat) by (cbn; lia). reflexivity.
Defined.

End SliceChecks.
